(** * pyCycle: equilibrium solver (ChemEq) and static-flow resolver
      (PsResid, PsCalc)

    A shallow embedding of [pycycle/cea/chem_eq.py],
    [pycycle/cea/static_ps_resid.py] and [pycycle/cea/static_ps_calc.py].

    Numbers.  A NumPy float is modelled as an extended real: a finite value
    carries an exact real number, and the three special values of IEEE-754
    arithmetic (+inf, -inf, NaN) are kept, because the source produces and
    tests them ([np.inf], the results of guarded divisions and square roots).
    Rounding, overflow and underflow of binary64 are not modelled, and zero
    carries no sign.  Under [np.seterr(all='raise')] an operation raises
    [FloatingPointError] when it delivers NaN from operands none of which is
    NaN (invalid operation) or an infinity from finite operands (division by
    zero); under the default ['warn'] setting it delivers the special value.

    Exceptions.  Python exceptions are the [Raise] results of a small error
    monad.  The error state on entry is a parameter of the static-flow
    evaluations, whose handlers depend on it; everything else is modelled
    in the default state ['warn'], which every guarded block of the source
    restores when it completes. *)

From Stdlib Require Import Reals Lra Lia List String Ascii Bool Arith.
Import ListNotations.
Open Scope string_scope.
Open Scope list_scope.
Open Scope R_scope.

(* ------------------------------------------------------------------ *)
(** ** NumPy floats *)

Inductive npfloat : Type :=
| Fin (x : R)
| PInf
| NInf
| NaN.

Definition Rltb (x y : R) : bool := if Rlt_dec x y then true else false.
Definition Rleb (x y : R) : bool := if Rle_dec x y then true else false.
Definition Reqb (x y : R) : bool := if Req_dec_T x y then true else false.

Definition is_nan (a : npfloat) : bool :=
  match a with NaN => true | _ => false end.
Definition is_inf (a : npfloat) : bool :=
  match a with PInf | NInf => true | _ => false end.
Definition is_finite (a : npfloat) : bool :=
  match a with Fin _ => true | _ => false end.

(** The infinity with the sign of [s]; NaN when [s] is zero. *)
Definition inf_signed (s : R) : npfloat :=
  if Rltb 0 s then PInf else if Rltb s 0 then NInf else NaN.

Definition fneg (a : npfloat) : npfloat :=
  match a with
  | Fin x => Fin (- x)
  | PInf => NInf
  | NInf => PInf
  | NaN => NaN
  end.

Definition fabs (a : npfloat) : npfloat :=
  match a with
  | Fin x => Fin (Rabs x)
  | PInf | NInf => PInf
  | NaN => NaN
  end.

Definition fadd (a b : npfloat) : npfloat :=
  match a, b with
  | NaN, _ | _, NaN => NaN
  | Fin x, Fin y => Fin (x + y)
  | PInf, NInf | NInf, PInf => NaN
  | PInf, _ | _, PInf => PInf
  | NInf, _ | _, NInf => NInf
  end.

Definition fsub (a b : npfloat) : npfloat := fadd a (fneg b).

Definition fmul (a b : npfloat) : npfloat :=
  match a, b with
  | NaN, _ | _, NaN => NaN
  | Fin x, Fin y => Fin (x * y)
  | Fin x, PInf | PInf, Fin x => inf_signed x
  | Fin x, NInf | NInf, Fin x => inf_signed (- x)
  | PInf, PInf | NInf, NInf => PInf
  | PInf, NInf | NInf, PInf => NInf
  end.

Definition fdiv (a b : npfloat) : npfloat :=
  match a, b with
  | NaN, _ | _, NaN => NaN
  | Fin x, Fin y => if Reqb y 0 then inf_signed x else Fin (x / y)
  | Fin _, _ => Fin 0
  | PInf, Fin y => if Rltb y 0 then NInf else PInf
  | NInf, Fin y => if Rltb y 0 then PInf else NInf
  | _, _ => NaN
  end.

Definition fsqrt (a : npfloat) : npfloat :=
  match a with
  | Fin x => if Rltb x 0 then NaN else Fin (sqrt x)
  | PInf => PInf
  | _ => NaN
  end.

Definition fexp (a : npfloat) : npfloat :=
  match a with
  | Fin x => Fin (exp x)
  | PInf => PInf
  | NInf => Fin 0
  | NaN => NaN
  end.

Definition flog (a : npfloat) : npfloat :=
  match a with
  | Fin x => if Rltb 0 x then Fin (ln x) else if Reqb x 0 then NInf else NaN
  | PInf => PInf
  | _ => NaN
  end.

(** Comparisons: every ordered comparison with NaN is false. *)
Definition fltb (a b : npfloat) : bool :=
  match a, b with
  | NaN, _ | _, NaN => false
  | Fin x, Fin y => Rltb x y
  | Fin _, PInf => true
  | Fin _, NInf => false
  | NInf, NInf => false
  | NInf, _ => true
  | PInf, _ => false
  end.

Definition feqb (a b : npfloat) : bool :=
  match a, b with
  | Fin x, Fin y => Reqb x y
  | PInf, PInf | NInf, NInf => true
  | _, _ => false
  end.

Definition fleb (a b : npfloat) : bool := fltb a b || feqb a b.
Definition fgtb (a b : npfloat) : bool := fltb b a.
Definition fgeb (a b : npfloat) : bool := fleb b a.
Definition fneb (a b : npfloat) : bool := negb (feqb a b).

(* ------------------------------------------------------------------ *)
(** ** Python results *)

Inductive exn : Type :=
| FloatingPointError
| AnalysisError (pathname : string) (vals : list npfloat)
| NameError (name : string)
| AttributeError (name : string)
| TypeError.

Inductive result (A : Type) : Type :=
| Ok (a : A)
| Raise (e : exn).
Arguments Ok {A} a.
Arguments Raise {A} e.

Definition bind {A B} (r : result A) (k : A -> result B) : result B :=
  match r with
  | Ok a => k a
  | Raise e => Raise e
  end.

Notation "x <- r ;; k" := (bind r (fun x => k))
  (at level 61, r at next level, right associativity).

(** [getattr name o]: reading an attribute that was never assigned. *)
Definition getattr {A} (name : string) (o : option A) : result A :=
  match o with
  | Some a => Ok a
  | None => Raise (AttributeError name)
  end.

(** Arithmetic on an attribute that still holds [None]. *)
Definition not_None {A} (o : option A) : result A :=
  match o with
  | Some a => Ok a
  | None => Raise TypeError
  end.

Fixpoint mapM {A B} (f : A -> result B) (l : list A) : result (list B) :=
  match l with
  | [] => Ok []
  | x :: t => y <- f x ;; ys <- mapM f t ;; Ok (y :: ys)
  end.

(* ------------------------------------------------------------------ *)
(** ** Floating-point errors under [np.seterr(all='raise')] *)

(** [signals args r]: the operation that delivered [r] from [args] signalled
    an invalid operation or a division by zero. *)
Definition signals (args : list npfloat) (r : npfloat) : bool :=
  (is_nan r && forallb (fun a => negb (is_nan a)) args)
  || (is_inf r && forallb is_finite args).

Definition raising (args : list npfloat) (r : npfloat) : result npfloat :=
  if signals args r then Raise FloatingPointError else Ok r.

Definition fadd_raise (a b : npfloat) := raising [a; b] (fadd a b).
Definition fsub_raise (a b : npfloat) := raising [a; b] (fsub a b).
Definition fmul_raise (a b : npfloat) := raising [a; b] (fmul a b).
Definition fdiv_raise (a b : npfloat) := raising [a; b] (fdiv a b).
Definition fsqrt_raise (a : npfloat) := raising [a] (fsqrt a).
Definition flog_raise (a : npfloat) := raising [a] (flog a).

(** NumPy's global error state, as far as the source sets it. *)
Inductive errstate : Type := ErrWarn | ErrRaise.

(** An operation evaluated in error state [em]. *)
Definition np_op (em : errstate) (args : list npfloat) (r : npfloat)
    : result npfloat :=
  match em with
  | ErrWarn => Ok r
  | ErrRaise => raising args r
  end.
Definition op1 (em : errstate) (f : npfloat -> npfloat) (a : npfloat) :=
  np_op em [a] (f a).
Definition op2 (em : errstate) (f : npfloat -> npfloat -> npfloat)
    (a b : npfloat) :=
  np_op em [a; b] (f a b).

(* ------------------------------------------------------------------ *)
(** ** [np.power] *)

Definition is_integer (y : R) : bool := Reqb (frac_part y) 0.

Definition fpow (a b : npfloat) : npfloat :=
  match a, b with
  | _, Fin y =>
      if Reqb y 0 then Fin 1 else
      match a with
      | Fin x =>
          if Reqb x 1 then Fin 1
          else if Rltb 0 x then Fin (Rpower x y)
          else if Reqb x 0 then (if Rltb 0 y then Fin 0 else PInf)
          else if is_integer y then Fin (powerRZ x (Int_part y))
          else NaN
      | PInf => if Rltb 0 y then PInf else Fin 0
      | NInf =>
          if Rltb 0 y
          then (if is_integer y && Z.odd (Int_part y) then NInf else PInf)
          else Fin 0
      | NaN => NaN
      end
  | Fin x, PInf =>
      if Reqb (Rabs x) 1 then Fin 1
      else if Rltb (Rabs x) 1 then Fin 0 else PInf
  | Fin x, NInf =>
      if Reqb (Rabs x) 1 then Fin 1
      else if Rltb (Rabs x) 1 then PInf else Fin 0
  | Fin x, NaN => if Reqb x 1 then Fin 1 else NaN
  | PInf, PInf | NInf, PInf => PInf
  | PInf, NInf | NInf, NInf => Fin 0
  | _, _ => NaN
  end.

(* ------------------------------------------------------------------ *)
(** ** Arrays *)

Definition vec : Type := list npfloat.
(** A dense matrix, row by row. *)
Definition matrix : Type := list vec.

Fixpoint map2 {A B C} (f : A -> B -> C) (l : list A) (m : list B) : list C :=
  match l, m with
  | x :: l', y :: m' => f x y :: map2 f l' m'
  | _, _ => []
  end.

Fixpoint mapi_from {A B} (k : nat) (f : nat -> A -> B) (l : list A) : list B :=
  match l with
  | [] => []
  | x :: t => f k x :: mapi_from (S k) f t
  end.
Definition mapi {A B} (f : nat -> A -> B) (l : list A) : list B :=
  mapi_from 0 f l.

(** [np.sum] of a vector. *)
Definition np_sum (v : vec) : npfloat := fold_left fadd v (Fin 0).

(** [np.linalg.norm] of a vector, and the norm of a whole residual vector. *)
Definition np_norm (v : vec) : npfloat :=
  fsqrt (np_sum (map (fun x => fmul x x) v)).

(** [np.where(cond)] on a vector: the indices at which [cond] holds. *)
Definition np_where (cond : npfloat -> bool) (v : vec) : list nat :=
  List.concat (mapi (fun j x => if cond x then [j] else []) v).

Definition in_mask (mask : list nat) (j : nat) : bool :=
  existsb (Nat.eqb j) mask.

(** Entry [(i, j)] of a matrix and of a vector; an index out of range has no
    entry (reads as NaN here; the source never reads one). *)
Definition vget (v : vec) (j : nat) : npfloat := nth j v NaN.
Definition mget (M : matrix) (i j : nat) : npfloat := vget (nth i M []) j.

(** In-place assignment to the entries selected by [sel]:
    [M[sel] = f(i, j, old)]. *)
Definition vset_where (v : vec) (sel : nat -> bool)
    (f : nat -> npfloat -> npfloat) : vec :=
  mapi (fun j x => if sel j then f j x else x) v.

Definition mset_where (M : matrix) (sel : nat -> nat -> bool)
    (f : nat -> nat -> npfloat -> npfloat) : matrix :=
  mapi (fun i row => vset_where row (sel i) (f i)) M.

(** [M[r0:r1, c0:c1]] as a value. *)
Definition mblock (M : matrix) (r0 r1 c0 c1 : nat) : matrix :=
  map (fun row => firstn (c1 - c0) (skipn c0 row)) (firstn (r1 - r0) (skipn r0 M)).

Definition np_zeros (rows cols : nat) : matrix :=
  repeat (repeat (Fin 0) cols) rows.

Definition np_eye (k : nat) : matrix :=
  map (fun i => map (fun j => if Nat.eqb i j then Fin 1 else Fin 0) (seq 0 k)) (seq 0 k).

(** Python's [needle in haystack] on strings. *)
Fixpoint str_in (needle haystack : string) : bool :=
  if prefix needle haystack then true
  else match haystack with
       | EmptyString => false
       | String _ rest => str_in needle rest
       end.

(** [print(...)]: a line written to standard output. *)
Inductive printed : Type :=
| Print (strs : list string) (vals : list npfloat).

(* ================================================================== *)
(** * [pycycle/cea/chem_eq.py] *)

Module ChemEq.

(** Constants of [pycycle.constants], with the values recorded at the head of
    [chem_eq.py]. *)
Definition P_REF : npfloat := Fin 1.01325.
Definition R_UNIVERSAL_ENG : npfloat := Fin 1.9872035.
Definition MIN_VALID_CONCENTRATION : npfloat := Fin 1e-10.

Definition _resid_weighting (n : npfloat) : npfloat :=
  fmul (fsub (fdiv (Fin 1) (fadd (Fin 1) (fexp (fmul (Fin (-1e5)) n)))) (Fin 0.5))
       (Fin 2).

Inductive Mode : Type := ModeT | ModeS | ModeH.

Definition mode_is_T (m : Mode) : bool :=
  match m with ModeT => true | _ => false end.

(** The thermodynamic data object ([options['thermo']]). *)
Record Thermo : Type := {
  num_prod : nat;
  num_element : nat;
  aij : matrix;                         (* num_element x num_prod *)
  thermo_b0 : vec;
  H0 : npfloat -> result vec;
  S0 : npfloat -> result vec;
  H0_applyJ : npfloat -> npfloat -> vec;
  S0_applyJ : npfloat -> npfloat -> vec
}.

(** The component's inputs: [b0], [P] and the closure variable, which is
    [inputs['T']], [inputs['h']] or [inputs['S']] according to the mode. *)
Record Inputs : Type := {
  i_b0 : vec;
  i_P : npfloat;
  i_closure : npfloat
}.

(** The component's outputs (its states); [o_T] exists in modes h and S. *)
Record Outputs : Type := {
  o_T : npfloat;
  o_n : vec;
  o_pi : vec;
  o_n_moles : npfloat
}.

(** The residual vector; [r_T] is present in modes h and S. *)
Record Resids : Type := {
  r_T : option npfloat;
  r_n : vec;
  r_pi : vec;
  r_n_moles : npfloat
}.

(** The attributes of a [ChemEq] instance. *)
Record ChemEq : Type := {
  mode : Mode;
  thermo : Thermo;
  pathname : string;
  remove_trace_species : bool;
  use_trace_damping : bool;
  n_init : vec;
  size : nat;
  _dRdy : matrix;
  H0_T : option vec;
  S0_T : option vec;
  dH0_dT : option vec;
  dS0_dT : option vec;
  sum_n_H0_T : option npfloat;
  mu : option vec;
  weights : option vec;
  _trace : option (list nat);
  stdout : list printed
}.

(** [setup]: the instance as configured, and the initial value of its
    outputs. *)
Definition setup (m : Mode) (th : Thermo) (path : string) : ChemEq :=
  let sz := (num_prod th + num_element th + (if mode_is_T m then 0 else 1))%nat in
  {| mode := m;
     thermo := th;
     pathname := path;
     remove_trace_species := false;
     use_trace_damping := true;
     n_init := repeat (fdiv (fdiv (Fin 1) (Fin (INR (num_prod th)))) (Fin 10))
                      (num_prod th);
     size := sz;
     _dRdy := np_zeros sz sz;
     H0_T := None;
     S0_T := None;
     dH0_dT := None;
     dS0_dT := None;
     sum_n_H0_T := None;
     mu := None;
     weights := None;
     _trace := None;
     stdout := [] |}.

Definition setup_outputs (self : ChemEq) : Outputs :=
  {| o_T := Fin 400;
     o_n := n_init self;
     o_pi := repeat (Fin 1) (num_element (thermo self));
     o_n_moles := Fin 0.034 |}.

(** [resids.get_norm()]: the 2-norm of the component's residual vector. *)
Definition get_norm (resids : Resids) : npfloat :=
  np_norm ((match r_T resids with Some t => [t] | None => [] end)
           ++ r_n resids ++ r_pi resids ++ [r_n_moles resids]).

(** [np.any(outputs['n'] < 0)] *)
Definition any_negative (n : vec) : bool :=
  existsb (fun x => fltb x (Fin 0)) n.

Definition guess_nonlinear (self : ChemEq) (inputs : Inputs)
    (outputs : Outputs) (resids : Resids) : Outputs :=
  let norm := get_norm resids in
  if fgtb norm (Fin 1e-2) || feqb norm (Fin 0) || any_negative (o_n outputs)
  then
    let T' := if mode_is_T (mode self) then o_T outputs else Fin 1000 in
    {| o_T := T';
       o_n := n_init self;
       o_pi := o_pi outputs;
       o_n_moles := o_n_moles outputs |}
  else outputs.

(** Elementwise operations of the guarded chemical-potential expression,
    evaluated under [np.seterr(all='raise')]. *)
Definition map2M (f : npfloat -> npfloat -> result npfloat) (a b : vec)
    : result vec :=
  mapM (fun p => f (fst p) (snd p)) (combine a b).

(** [H0_T - S0_T + np.log(n) + np.log(P) - np.log(n_moles)], where [lnP_arg]
    is the argument of the pressure logarithm. *)
Definition mu_raise (H0_T S0_T n : vec) (lnP_arg n_moles : npfloat)
    : result vec :=
  d <- map2M fsub_raise H0_T S0_T ;;
  ln_n <- mapM flog_raise n ;;
  s1 <- map2M fadd_raise d ln_n ;;
  ln_P <- flog_raise lnP_arg ;;
  s2 <- mapM (fun x => fadd_raise x ln_P) s1 ;;
  ln_nm <- flog_raise n_moles ;;
  mapM (fun x => fsub_raise x ln_nm) s2.

(** Column [j] of a matrix. *)
Definition col (M : matrix) (j : nat) : vec := map (fun row => vget row j) M.

(** [np.sum(pi * aij.T, axis=1)] *)
Definition sum_pi_aijT (th : Thermo) (pi : vec) : vec :=
  map (fun j => np_sum (map2 fmul pi (col (aij th) j))) (seq 0 (num_prod th)).

(** [np.sum(aij * n, axis=1)] *)
Definition sum_aij_n (th : Thermo) (n : vec) : vec :=
  map (fun row => np_sum (map2 fmul row n)) (aij th).

(** The entropy sum of mode S:
    [np.sum(n*(S0_T - np.log(n) + np.log(n_moles) - np.log(P)))]. *)
Definition entropy_sum (n S0_T : vec) (n_moles P : npfloat) : npfloat :=
  np_sum (map2 (fun nj s0 =>
                  fmul nj (fsub (fadd (fsub s0 (flog nj)) (flog n_moles)) (flog P)))
               n S0_T).

Definition apply_nonlinear (self : ChemEq) (inputs : Inputs) (outputs : Outputs)
    : result (ChemEq * Resids) :=
  let th := thermo self in
  let b0 := i_b0 inputs in
  let T := if mode_is_T (mode self) then i_closure inputs else o_T outputs in
  let n := o_n outputs in
  let pi := o_pi outputs in
  let n_moles_out := o_n_moles outputs in
  let P := fdiv (i_P inputs) P_REF in
  let n_moles := np_sum n in
  (* Output equation for n_moles *)
  let resids_n_moles := fsub n_moles n_moles_out in
  (* try: H0(T), S0(T); except: raise AnalysisError -- a name the module does
     not import *)
  H0S0 <- match H0 th T with
          | Ok h0 => match S0 th T with
                     | Ok s0 => Ok (h0, s0)
                     | Raise _ => Raise (NameError "AnalysisError")
                     end
          | Raise _ => Raise (NameError "AnalysisError")
          end ;;
  let H0_T' := fst H0S0 in
  let S0_T' := snd H0S0 in
  (* try: mu under seterr(all='raise'); except: print, recompute with the
     pressure term floored, still under 'raise' *)
  mu_out <- match mu_raise H0_T' S0_T' n P n_moles with
            | Ok m => Ok (m, stdout self)
            | Raise _ =>
                m <- mu_raise H0_T' S0_T' n (Fin 1e-5) n_moles ;;
                Ok (m, stdout self ++
                       [Print ["ChemEQ error in: "; pathname self] [];
                        Print ["n"] n; Print ["P"] [P];
                        Print ["n_moles"] [n_moles]])
            end ;;
  let mu' := fst mu_out in
  let resids_n0 := map2 fsub mu' (sum_pi_aijT th pi) in
  let weights' :=
    if use_trace_damping self
    then Some (map _resid_weighting (map (fun x => fmul x n_moles) n))
    else weights self in
  let resids_n1 :=
    if use_trace_damping self
    then map2 fmul resids_n0 (map _resid_weighting (map (fun x => fmul x n_moles) n))
    else resids_n0 in
  (* Zero out resids when a concentration drops too low. *)
  let trace' :=
    if remove_trace_species self
    then Some (np_where (fun x => fleb x (fadd MIN_VALID_CONCENTRATION (Fin 1e-20))) n)
    else _trace self in
  let resids_n :=
    if remove_trace_species self
    then vset_where resids_n1
           (in_mask (np_where (fun x => fleb x (fadd MIN_VALID_CONCENTRATION (Fin 1e-20))) n))
           (fun _ _ => Fin 0)
    else resids_n1 in
  (* residuals from the conservation of mass *)
  let resids_pi := map2 fsub (sum_aij_n th n) b0 in
  (* residuals from temperature equation when T is a state *)
  let sum_n_H0_T' :=
    match mode self with
    | ModeH => Some (np_sum (map2 fmul n H0_T'))
    | _ => sum_n_H0_T self
    end in
  let resids_T :=
    match mode self with
    | ModeT => None
    | ModeH =>
        let h := i_closure inputs in
        Some (fdiv (fsub h (fmul (fmul (np_sum (map2 fmul n H0_T')) R_UNIVERSAL_ENG) T)) h)
    | ModeS =>
        let S := i_closure inputs in
        Some (fdiv (fsub S (fmul R_UNIVERSAL_ENG (entropy_sum n S0_T' n_moles P))) S)
    end in
  let resids :=
    {| r_T := resids_T; r_n := resids_n; r_pi := resids_pi;
       r_n_moles := resids_n_moles |} in
  let self' :=
    {| mode := mode self;
       thermo := thermo self;
       pathname := pathname self;
       remove_trace_species := fltb (np_norm resids_n) (Fin 1e-4);
       use_trace_damping := use_trace_damping self;
       n_init := n_init self;
       size := size self;
       _dRdy := _dRdy self;
       H0_T := Some H0_T';
       S0_T := Some S0_T';
       dH0_dT := dH0_dT self;
       dS0_dT := dS0_dT self;
       sum_n_H0_T := sum_n_H0_T';
       mu := Some mu';
       weights := weights';
       _trace := trace';
       stdout := snd mu_out |} in
  Ok (self', resids).

(** Index predicates of the slices [r0:r1] and [r0:r1, c0:c1]. *)
Definition in_range (lo hi i : nat) : bool := (lo <=? i)%nat && (i <? hi)%nat.
Definition in_block (r0 r1 c0 c1 i j : nat) : bool :=
  in_range r0 r1 i && in_range c0 c1 j.

(** The trace loop at the end of [_calc_dRdy]:
    [for j in range(num_prod): if n[j] <= 1.0e-10: dRdy[j, :] = 0.0;
     dRdy[j, j] = -1.0]. *)
Definition trace_row (n : vec) (dRdy : matrix) (j : nat) : matrix :=
  if fleb (vget n j) (Fin 1.0e-10)
  then mset_where (mset_where dRdy (fun i _ => Nat.eqb i j) (fun _ _ _ => Fin 0))
                  (fun i k => Nat.eqb i j && Nat.eqb k j) (fun _ _ _ => Fin (-1))
  else dRdy.

Definition _calc_dRdy (self : ChemEq) (inputs : Inputs) (outputs : Outputs)
    : result ChemEq :=
  let th := thermo self in
  let P := num_prod th in
  let n := o_n outputs in
  let n_moles := np_sum n in
  let last := (size self - 1)%nat in
  let damp := use_trace_damping self in
  w <- (if damp then getattr "weights" (weights self) else Ok []) ;;
  let scale_rows (sel : nat -> nat -> bool) (M : matrix) : matrix :=
    if damp then mset_where M sel (fun i _ old => fmul old (vget w i)) else M in
  (* dRgibbs_dn *)
  let MW := fdiv (Fin 1) n_moles in
  let d1 := mset_where (_dRdy self) (in_block 0 P 0 P) (fun _ _ _ => fneg MW) in
  let d2 := mset_where d1 (fun i j => in_block 0 P 0 P i j && Nat.eqb i j)
              (fun i _ _ => fsub (fdiv (Fin 1) (vget n i)) MW) in
  let d3 := scale_rows (in_block 0 P 0 P) d2 in
  let end_element := (P + num_element th)%nat in
  (* dRgibbs_dpi *)
  let d4 := mset_where d3 (in_block 0 P P end_element)
              (fun i j _ => fneg (mget (aij th) (j - P) i)) in
  let d5 := scale_rows (in_block 0 P P end_element) d4 in
  (* dRgibbs_dT *)
  let T := o_T outputs in
  let dH := H0_applyJ th T (Fin 1) in
  let dS := S0_applyJ th T (Fin 1) in
  let d6 :=
    if mode_is_T (mode self) then d5
    else scale_rows (fun i j => in_range 0 P i && Nat.eqb j last)
           (mset_where d5 (fun i j => in_range 0 P i && Nat.eqb j last)
              (fun i _ _ => fsub (vget dH i) (vget dS i))) in
  d7 <- match mode self with
        | ModeT => Ok d6
        | ModeH =>
            let h := i_closure inputs in
            H0_T' <- not_None (H0_T self) ;;
            s <- not_None (sum_n_H0_T self) ;;
            (* dRT_dn *)
            let a := mset_where d6 (fun i j => Nat.eqb i last && in_range 0 P j)
                       (fun _ j _ =>
                          fdiv (fmul (fmul (fneg R_UNIVERSAL_ENG) T) (vget H0_T' j)) h) in
            (* dRT_dT *)
            Ok (mset_where a (fun i j => Nat.eqb i last && Nat.eqb j last)
                  (fun _ _ _ =>
                     fdiv (fmul (fneg R_UNIVERSAL_ENG)
                                (fadd (fmul T (np_sum (map2 fmul n dH))) s)) h))
        | ModeS =>
            let Pq := fdiv (i_P inputs) P_REF in
            let S := i_closure inputs in
            S0_T' <- not_None (S0_T self) ;;
            let a := mset_where d6 (fun i j => Nat.eqb i last && in_range 0 P j)
                       (fun _ j _ =>
                          fdiv (fmul (fneg R_UNIVERSAL_ENG)
                                  (fsub (fadd (fsub (vget S0_T' j) (flog (vget n j)))
                                              (flog n_moles))
                                        (flog Pq))) S) in
            Ok (mset_where a (fun i j => Nat.eqb i last && Nat.eqb j last)
                  (fun _ _ _ =>
                     fdiv (fmul (fneg R_UNIVERSAL_ENG) (np_sum (map2 fmul n dS))) S))
        end ;;
  (* dRmass_dn *)
  let d8 := mset_where d7 (in_block P end_element 0 P)
              (fun i j _ => mget (aij th) (i - P) j) in
  (* Replace J for tiny values of n with identity *)
  let d9 := if remove_trace_species self
            then fold_left (trace_row n) (seq 0 P) d8
            else d8 in
  Ok {| mode := mode self;
        thermo := thermo self;
        pathname := pathname self;
        remove_trace_species := remove_trace_species self;
        use_trace_damping := use_trace_damping self;
        n_init := n_init self;
        size := size self;
        _dRdy := d9;
        H0_T := H0_T self;
        S0_T := S0_T self;
        dH0_dT := if mode_is_T (mode self) then dH0_dT self else Some dH;
        dS0_dT := if mode_is_T (mode self) then dS0_dT self else Some dS;
        sum_n_H0_T := sum_n_H0_T self;
        mu := mu self;
        weights := weights self;
        _trace := _trace self;
        stdout := stdout self |}.

(** The partial derivatives [linearize] stores in [J]. *)
Record Jac : Type := {
  J_n_n : matrix;
  J_n_P : vec;                          (* shape (num_prod, 1) *)
  J_n_T : vec;                          (* shape (num_prod, 1) *)
  J_n_pi : matrix;
  J_pi_n : matrix;
  J_pi_b0 : matrix;
  J_T_n : option vec;                   (* shape (1, num_prod) *)
  J_T_h : option npfloat;
  J_T_S : option npfloat;
  J_T_T : option npfloat;
  J_T_P : option npfloat;
  J_n_moles_n : vec                     (* shape (1, num_prod) *)
}.

(** The masking block of [linearize] on the views [J_n_n], [J_n_pi] and (when
    T is a state) [J_n_T] of [dRdy]. *)
Definition mask_dRdy (P end_element last : nat) (T_state : bool)
    (mask : list nat) (dRdy : matrix) : matrix :=
  (* J_n_n[:, mask] = 0. *)
  let a := mset_where dRdy (fun i j => in_block 0 P 0 P i j && in_mask mask j)
             (fun _ _ _ => Fin 0) in
  (* J_n_n[mask, :] = 0. *)
  let b := mset_where a (fun i j => in_block 0 P 0 P i j && in_mask mask i)
             (fun _ _ _ => Fin 0) in
  (* J_n_n[mask, mask] = 1. *)
  let c := mset_where b (fun i j => in_block 0 P 0 P i j && in_mask mask i
                                    && Nat.eqb i j)
             (fun _ _ _ => Fin 1) in
  (* J_n_T[mask, :] = 0 *)
  let d := if T_state
           then mset_where c (fun i j => in_range 0 P i && Nat.eqb j last
                                         && in_mask mask i)
                  (fun _ _ _ => Fin 0)
           else c in
  (* J_n_pi[mask, :] = 0 *)
  mset_where d (fun i j => in_block 0 P P end_element i j && in_mask mask i)
    (fun _ _ _ => Fin 0).

Definition linearize (self0 : ChemEq) (inputs : Inputs) (outputs : Outputs)
    : result (ChemEq * Jac) :=
  self <- _calc_dRdy self0 inputs outputs ;;
  let dRdy := _dRdy self in
  let th := thermo self in
  let num_element := num_element th in
  let num_prod := num_prod th in
  let last := (size self - 1)%nat in
  let T_state := negb (mode_is_T (mode self)) in
  let P := fdiv (i_P inputs) P_REF in
  let n := o_n outputs in
  let n_moles := np_sum n in
  let qP := fdiv (fdiv (Fin 1.0) P_REF) P in
  let end_element := (num_prod + num_element)%nat in
  J_n_P0 <- (if use_trace_damping self
             then w <- getattr "weights" (weights self) ;;
                  Ok (map (fun x => fmul x qP) w)
             else Ok (repeat (fmul qP (Fin 1)) num_prod)) ;;
  (* can only use the dRdy vals when T is a state *)
  J_n_T0 <- (if T_state then Ok (col (mblock dRdy 0 num_prod 0 (size self)) last)
             else
               let T := i_closure inputs in
               let dH := H0_applyJ th T (Fin 1) in
               let dS := S0_applyJ th T (Fin 1) in
               if use_trace_damping self
               then w <- getattr "weights" (weights self) ;;
                    Ok (map2 fmul (map2 fsub dH dS) w)
               else Ok (map2 fsub dH dS)) ;;
  let J_pi_n' := mblock dRdy num_prod end_element 0 num_prod in
  let J_pi_b0' := map (map fneg) (np_eye num_element) in
  let T_row := firstn num_prod (nth last dRdy []) in
  JT <- match mode self with
        | ModeT => Ok (None, None, None, None, None)
        | ModeH =>
            s <- not_None (sum_n_H0_T self) ;;
            let h := i_closure inputs in
            Ok (Some T_row,
                Some (fdiv (fmul (fmul s R_UNIVERSAL_ENG) (o_T outputs)) (fmul h h)),
                None,
                Some (mget dRdy last last),
                None)
        | ModeS =>
            let S := i_closure inputs in
            S0_T' <- not_None (S0_T self) ;;
            let tmp := entropy_sum n S0_T' n_moles P in
            Ok (Some T_row,
                None,
                Some (fdiv (fmul R_UNIVERSAL_ENG tmp) (fmul S S)),
                Some (mget dRdy last last),
                Some (fdiv (fmul R_UNIVERSAL_ENG n_moles) (fmul (fmul P S) P_REF)))
        end ;;
  masked <- (if remove_trace_species self
             then mask <- getattr "_trace" (_trace self) ;;
                  Ok (mask_dRdy num_prod end_element last T_state mask dRdy,
                      vset_where J_n_P0 (in_mask mask) (fun _ _ => Fin 0),
                      vset_where J_n_T0 (in_mask mask) (fun _ _ => Fin 0))
             else Ok (dRdy, J_n_P0, J_n_T0)) ;;
  let dRdy' := fst (fst masked) in
  let J :=
    {| J_n_n := mblock dRdy' 0 num_prod 0 num_prod;
       J_n_P := snd (fst masked);
       J_n_T := snd masked;
       J_n_pi := mblock dRdy' 0 num_prod num_prod end_element;
       J_pi_n := J_pi_n';
       J_pi_b0 := J_pi_b0';
       J_T_n := fst (fst (fst (fst JT)));
       J_T_h := snd (fst (fst (fst JT)));
       J_T_S := snd (fst (fst JT));
       J_T_T := snd (fst JT);
       J_T_P := snd JT;
       J_n_moles_n := repeat (Fin 1) num_prod |} in
  let self' :=
    {| mode := mode self;
       thermo := thermo self;
       pathname := pathname self;
       remove_trace_species := remove_trace_species self;
       use_trace_damping := use_trace_damping self;
       n_init := n_init self;
       size := size self;
       _dRdy := dRdy';
       H0_T := H0_T self;
       S0_T := S0_T self;
       dH0_dT := dH0_dT self;
       dS0_dT := dS0_dT self;
       sum_n_H0_T := sum_n_H0_T self;
       mu := mu self;
       weights := weights self;
       _trace := _trace self;
       stdout := stdout self |} in
  Ok (self', J).

End ChemEq.

(* ================================================================== *)
(** * [pycycle/cea/static_ps_resid.py] *)

Module PsResid.

Inductive Mode : Type := ModeMN | ModeArea.

(** The inputs; [i_MN] exists in MN mode, [i_guess_MN] and [i_area] in area
    mode. *)
Record Inputs : Type := {
  i_Ts : npfloat;
  i_ht : npfloat;
  i_hs : npfloat;
  i_n_moles : npfloat;
  i_gamma : npfloat;
  i_W : npfloat;
  i_rho : npfloat;
  i_guess_gamt : npfloat;
  i_guess_Pt : npfloat;
  i_MN : npfloat;
  i_guess_MN : npfloat;
  i_area : npfloat
}.

(** The outputs; [o_area] exists in MN mode, [o_MN] in area mode. *)
Record Outputs : Type := {
  o_Ps : npfloat;
  o_V : npfloat;
  o_Vsonic : npfloat;
  o_area : npfloat;
  o_MN : npfloat
}.

Record PsResid : Type := {
  mode : Mode;
  pathname : string;
  _ps_guess_cache : npfloat;
  stdout : list printed
}.

Definition setup (m : Mode) (path : string) : PsResid :=
  {| mode := m; pathname := path; _ps_guess_cache := Fin (-1); stdout := [] |}.

Definition set_Ps (outputs : Outputs) (ps : npfloat) : Outputs :=
  {| o_Ps := ps; o_V := o_V outputs; o_Vsonic := o_Vsonic outputs;
     o_area := o_area outputs; o_MN := o_MN outputs |}.

Definition set_cache (self : PsResid) (c : npfloat) : PsResid :=
  {| mode := mode self; pathname := pathname self; _ps_guess_cache := c;
     stdout := stdout self |}.

Definition add_stdout (self : PsResid) (l : list printed) : PsResid :=
  {| mode := mode self; pathname := pathname self;
     _ps_guess_cache := _ps_guess_cache self; stdout := stdout self ++ l |}.

(** [Pt * (1 + (gamt-1)/2 * M**2)**(-gamt/(gamt-1))] *)
Definition isentropic_Ps (Pt gamt M : npfloat) : npfloat :=
  fmul Pt (fpow (fadd (Fin 1) (fmul (fdiv (fsub gamt (Fin 1)) (Fin 2)) (fmul M M)))
                (fdiv (fneg gamt) (fsub gamt (Fin 1)))).

Section WithConstants.

(** [R_UNIVERSAL_SI] of [pycycle.constants], and [scipy.optimize.fsolve] on a
    system of two equations. *)
Variable R_UNIVERSAL_SI : npfloat.
Variable fsolve :
  (npfloat * npfloat -> npfloat * npfloat) -> npfloat * npfloat -> npfloat * npfloat.

(** The local function [equations] of [guess_nonlinear].  Its body reads the
    enclosing [M_guess] and [ps_guess], which hold the start values while
    [fsolve] runs; the parameters [ps] and [MN] occur once each. *)
Definition equations (inputs : Inputs) (gamt M_guess ps_guess : npfloat)
    (params : npfloat * npfloat) : npfloat * npfloat :=
  let ps := fst params in
  let MN := snd params in
  let f1 := fsub ps (isentropic_Ps (i_guess_Pt inputs) gamt M_guess) in
  let f2 := fsub MN
              (fdiv (fmul (i_W inputs) (fsqrt (fmul R_UNIVERSAL_SI (i_Ts inputs))))
                    (fmul (fmul (fmul ps_guess (Fin 1.0e6)) (i_area inputs))
                          (fsqrt gamt))) in
  (f1, f2).

Definition guess_nonlinear (self : PsResid) (inputs : Inputs) (outputs : Outputs)
    : PsResid * Outputs :=
  let gamt := i_guess_gamt inputs in
  match mode self with
  | ModeMN =>
      let ps_guess := isentropic_Ps (i_guess_Pt inputs) gamt (i_MN inputs) in
      if fgtb (fabs (fsub ps_guess (_ps_guess_cache self))) (Fin 1e-10)
      then if feqb (_ps_guess_cache self) (Fin (-1))
           then (set_cache self ps_guess, set_Ps outputs ps_guess)
           else (self, outputs)
      else (self, outputs)
  | ModeArea =>
      let M_guess := i_guess_MN inputs in
      let ps_guess := isentropic_Ps (i_guess_Pt inputs) gamt M_guess in
      let sol := fsolve (equations inputs gamt M_guess ps_guess) (ps_guess, M_guess) in
      let ps_guess' := fst sol in
      if fgtb (fabs (fsub ps_guess' (_ps_guess_cache self))) (Fin 1e-10)
      then (set_cache self ps_guess',
            set_Ps outputs
              (if str_in "mixer.Fl_I1_calc" (pathname self) then Fin 3 else ps_guess'))
      else (self, outputs)
  end.

(** [(gamma*R_UNIVERSAL_SI*n_moles*Ts)**0.5] in error state [em]. *)
Definition Vsonic_expr (em : errstate) (Ts n_moles gamma : npfloat)
    : result npfloat :=
  a <- op2 em fmul gamma R_UNIVERSAL_SI ;;
  b <- op2 em fmul a n_moles ;;
  c <- op2 em fmul b Ts ;;
  op1 em fsqrt c.

Definition _compute_outputs_MN (em : errstate) (self : PsResid)
    (Ts n_moles gamma W rho MN : npfloat)
    : result (list printed * (npfloat * npfloat * npfloat)) :=
  Vsonic0 <- Vsonic_expr em Ts n_moles gamma ;;
  (* try: ... except: seterr(all='warn'); print(...) *)
  let guarded :=
    match Vsonic_expr ErrRaise Ts n_moles gamma with
    | Ok v => (v, [])
    | Raise _ => (Vsonic0, [Print [pathname self] [gamma; n_moles; Ts]])
    end in
  let Vsonic := fst guarded in
  let area :=
    if fltb MN (Fin 1e-16) then PInf
    else fdiv W (fmul (fmul rho Vsonic) MN) in
  let V := fmul MN Vsonic in
  Ok (snd guarded, (Vsonic, V, area)).

(** [W/(rho*Vsonic*area)] under [np.seterr(all='raise')]. *)
Definition MN_guarded (W rho Vsonic area : npfloat) : result npfloat :=
  a <- fmul_raise rho Vsonic ;;
  b <- fmul_raise a area ;;
  fdiv_raise W b.

Definition _compute_outputs_area (em : errstate) (self : PsResid)
    (Ts n_moles gamma W rho area : npfloat)
    : result (list printed * (npfloat * npfloat * npfloat)) :=
  Vsonic <- Vsonic_expr em Ts n_moles gamma ;;
  if feqb area PInf
  then
    let MN := Fin 0 in
    V <- op2 em fmul MN Vsonic ;;
    Ok ([], (MN, Vsonic, V))
  else
    let guarded :=
      match MN_guarded W rho Vsonic area with
      | Ok m => (m, [])
      | Raise _ =>
          (Fin 5, [Print ["MN_calc"; pathname self] [W; rho; Vsonic; area]])
      end in
    let MN := fst guarded in
    let V := fmul MN Vsonic in
    Ok (snd guarded, (MN, Vsonic, V)).

(** [except FloatingPointError: raise om.AnalysisError(...)] *)
Definition reraise {A} (self : PsResid) (inputs : Inputs) (r : result A)
    : result A :=
  match r with
  | Raise FloatingPointError => Raise (AnalysisError (pathname self) [i_Ts inputs])
  | _ => r
  end.

Definition solve_nonlinear (em : errstate) (self : PsResid) (inputs : Inputs)
    (outputs : Outputs) : result (PsResid * Outputs) :=
  reraise self inputs
    (match mode self with
     | ModeMN =>
         r <- _compute_outputs_MN em self (i_Ts inputs) (i_n_moles inputs)
                (i_gamma inputs) (i_W inputs) (i_rho inputs) (i_MN inputs) ;;
         let '(out, (Vsonic, V, area)) := r in
         Ok (add_stdout self out,
             {| o_Ps := o_Ps outputs; o_V := V; o_Vsonic := Vsonic;
                o_area := area; o_MN := o_MN outputs |})
     | ModeArea =>
         r <- _compute_outputs_area em self (i_Ts inputs) (i_n_moles inputs)
                (i_gamma inputs) (i_W inputs) (i_rho inputs) (i_area inputs) ;;
         let '(out, (MN, Vsonic, V)) := r in
         Ok (add_stdout self out,
             {| o_Ps := o_Ps outputs; o_V := V; o_Vsonic := Vsonic;
                o_area := o_area outputs; o_MN := MN |})
     end).

(** The residual vector; [r_area] exists in MN mode, [r_MN] in area mode. *)
Record Resids : Type := {
  r_Ps : npfloat;
  r_V : npfloat;
  r_Vsonic : npfloat;
  r_area : npfloat;
  r_MN : npfloat
}.

(** The error state in which the lines after [_compute_outputs_*] run: both
    branches of each guarded block end in [np.seterr(all='warn')]; the branch
    [area == np.inf] has no guarded block. *)
Definition state_after_compute (em : errstate) (self : PsResid)
    (inputs : Inputs) : errstate :=
  match mode self with
  | ModeMN => ErrWarn
  | ModeArea => if feqb (i_area inputs) PInf then em else ErrWarn
  end.

Definition apply_nonlinear (em : errstate) (self : PsResid) (inputs : Inputs)
    (outputs : Outputs) (resids : Resids) : result (PsResid * Resids) :=
  let Ts := i_Ts inputs in
  let ht := i_ht inputs in
  let hs := i_hs inputs in
  let n_moles := i_n_moles inputs in
  let gamma := i_gamma inputs in
  let em' := state_after_compute em self inputs in
  (* explicit vars *)
  c <- match mode self with
       | ModeMN =>
           r <- _compute_outputs_MN em self Ts n_moles gamma (i_W inputs)
                  (i_rho inputs) (i_MN inputs) ;;
           let '(out, (Vsonic, V, area)) := r in
           res_area <- (if fneb area PInf
                        then op2 em' fsub area (o_area outputs)
                        else Ok (Fin 0)) ;;
           Ok (out, i_MN inputs, Vsonic, V, res_area)
       | ModeArea =>
           r <- _compute_outputs_area em self Ts n_moles gamma (i_W inputs)
                  (i_rho inputs) (i_area inputs) ;;
           let '(out, (MN, Vsonic, V)) := r in
           res_MN <- op2 em' fsub MN (o_MN outputs) ;;
           Ok (out, MN, Vsonic, V, res_MN)
       end ;;
  let '(out, MN, Vsonic, V, res_4) := c in
  res_Vsonic <- op2 em' fsub Vsonic (o_Vsonic outputs) ;;
  res_V <- op2 em' fsub V (o_V outputs) ;;
  (* actual residual for Ps *)
  a <- op2 em' fmul R_UNIVERSAL_SI Ts ;;
  RT_q_MW <- op2 em' fmul a n_moles ;;
  b <- op2 em' fmul MN MN ;;
  MN_squared_q2 <- op2 em' fdiv b (Fin 2) ;;
  d <- op2 em' fmul MN_squared_q2 gamma ;;
  e <- op2 em' fmul d RT_q_MW ;;
  ht_calc <- op2 em' fadd hs e ;;
  f <- op2 em' fsub ht_calc ht ;;
  res_Ps <- op2 em' fdiv f ht ;;
  Ok (add_stdout self out,
      match mode self with
      | ModeMN =>
          {| r_Ps := res_Ps; r_V := res_V; r_Vsonic := res_Vsonic;
             r_area := res_4; r_MN := r_MN resids |}
      | ModeArea =>
          {| r_Ps := res_Ps; r_V := res_V; r_Vsonic := res_Vsonic;
             r_area := r_area resids; r_MN := res_4 |}
      end).

(** The sub-Jacobian dictionary [J]: [J[out, wrt] = v] puts a binding in
    front; a lookup finds the latest one. *)
Definition Jacobian : Type := list (string * string * npfloat).

Definition J_set (J : Jacobian) (out wrt : string) (v : npfloat) : Jacobian :=
  (out, wrt, v) :: J.

Fixpoint J_get (J : Jacobian) (out wrt : string) : option npfloat :=
  match J with
  | [] => None
  | (o, w, v) :: rest =>
      if String.eqb o out && String.eqb w wrt then Some v else J_get rest out wrt
  end.

(** [linearize], in the default error state. *)
Definition linearize (self : PsResid) (inputs : Inputs) (outputs : Outputs)
    (J0 : Jacobian) : result (PsResid * Jacobian) :=
  let Ts := i_Ts inputs in
  let ht := i_ht inputs in
  let hs := i_hs inputs in
  let n_moles := i_n_moles inputs in
  let gamma := i_gamma inputs in
  let W := i_W inputs in
  let rho := i_rho inputs in
  let R := R_UNIVERSAL_SI in
  let MN_squared_q2 :=
    match mode self with
    | ModeMN => fdiv (fmul (i_MN inputs) (i_MN inputs)) (Fin 2)
    | ModeArea => fdiv (fmul (o_MN outputs) (o_MN outputs)) (Fin 2)
    end in
  let RT_q_MW := fmul (fmul R Ts) n_moles in
  let ht_calc := fadd hs (fmul (fmul MN_squared_q2 gamma) RT_q_MW) in
  let J1 := J_set J0 "Ps" "ht" (fdiv (fneg ht_calc) (fmul ht ht)) in
  let J2 := J_set J1 "Ps" "hs" (fdiv (Fin 1) ht) in
  (* Derivatives of outputs *)
  let part :=
    fmul (Fin 0.5)
         (fpow (fmul (fmul (fmul gamma R) n_moles) Ts) (Fin (-0.5))) in
  let dVs_dgamma := fmul (fmul (fmul part R) n_moles) Ts in
  let J3 := J_set J2 "Vsonic" "gamma" dVs_dgamma in
  let JVs_n := fmul (fmul (fmul part gamma) R) Ts in
  let J4 := J_set J3 "Vsonic" "n_moles" JVs_n in
  let JVs_Ts := fmul (fmul (fmul part gamma) R) n_moles in
  let J5 := J_set J4 "Vsonic" "Ts" JVs_Ts in
  let J6 := J_set J5 "Vsonic" "Vsonic" (Fin (-1)) in
  match mode self with
  | ModeMN =>
      let MN := i_MN inputs in
      r <- _compute_outputs_MN ErrWarn self Ts n_moles gamma W rho MN ;;
      let '(out, (Vsonic, V, area)) := r in
      let J7 := J_set J6 "area" "area" (Fin (-1)) in
      let J8 := J_set J7 "Ps" "MN" (fdiv (fmul (fmul MN gamma) RT_q_MW) ht) in
      let J9 := J_set J8 "Ps" "n_moles"
                  (fdiv (fmul (fmul (fmul R Ts) MN_squared_q2) gamma) ht) in
      let J10 := J_set J9 "Ps" "gamma" (fdiv (fmul RT_q_MW MN_squared_q2) ht) in
      let J11 := J_set J10 "Ps" "Ts"
                   (fdiv (fmul (fmul (fmul MN_squared_q2 gamma) R) n_moles) ht) in
      if fgeb MN (Fin 1e-16)
      then
        let J12 := J_set J11 "area" "W"
                     (fdiv (Fin 1.0) (fmul (fmul rho Vsonic) MN)) in
        let J13 := J_set J12 "area" "rho"
                     (fdiv (fneg W) (fmul (fmul Vsonic MN) (fmul rho rho))) in
        let part' :=
          fmul (fmul (fmul (fdiv (fneg W)
                              (fmul (fmul rho (fmul Vsonic Vsonic)) MN))
                           (Fin 0.5))
                     (fpow (fmul (fmul (fmul R gamma) n_moles) Ts) (Fin (-0.5))))
               R in
        let J14 := J_set J13 "area" "gamma" (fmul (fmul part' n_moles) Ts) in
        let J15 := J_set J14 "area" "n_moles" (fmul (fmul part' gamma) Ts) in
        let J16 := J_set J15 "area" "Ts" (fmul (fmul part' gamma) n_moles) in
        let J17 := J_set J16 "area" "MN"
                     (fdiv (fdiv (fdiv (fneg W) rho) Vsonic) (fmul MN MN)) in
        let J18 := J_set J17 "V" "MN" Vsonic in
        let J19 := J_set J18 "V" "Ts" (fmul MN JVs_Ts) in
        let J20 := J_set J19 "V" "n_moles" (fmul MN JVs_n) in
        let J21 := J_set J20 "V" "gamma" (fmul MN dVs_dgamma) in
        Ok (add_stdout self out, J21)
      else Ok (add_stdout self out, J11)
  | ModeArea =>
      let area := i_area inputs in
      r <- _compute_outputs_area ErrWarn self Ts n_moles gamma W rho area ;;
      let '(out, (MN, Vsonic, V)) := r in
      let J7 := J_set J6 "MN" "MN" (Fin (-1)) in
      let dresid_dMN := fmul (fmul MN gamma) RT_q_MW in
      let dMN_dA := fneg (fdiv (fdiv (fdiv W rho) Vsonic) (fmul area area)) in
      let J8 := J_set J7 "Ps" "area" (fdiv (fmul dMN_dA dresid_dMN) ht) in
      let J9 := J_set J8 "V" "area" (fmul dMN_dA Vsonic) in
      let J10 := J_set J9 "MN" "area" dMN_dA in
      let dMN_dVs :=
        fdiv (fneg W) (fmul (fmul rho area) (fmul Vsonic Vsonic)) in
      let dVs_dTs :=
        fdiv (fmul (fmul (fmul (Fin 0.5) gamma) R) n_moles) Vsonic in
      let J11 := J_set J10 "Ps" "Ts"
                   (fdiv (fmul gamma
                            (fadd (fmul (fmul (fmul MN dMN_dVs) dVs_dTs) RT_q_MW)
                                  (fmul (fmul MN_squared_q2 R) n_moles)))
                         ht) in
      let J12 := J_set J11 "V" "Ts"
                   (fneg (fadd (fmul (fmul dMN_dVs dVs_dTs) Vsonic)
                               (fmul MN dVs_dTs))) in
      let J13 := J_set J12 "MN" "Ts" (fmul dMN_dVs dVs_dTs) in
      let dVs_dnmoles :=
        fdiv (fmul (fmul (fmul (Fin 0.5) gamma) R) Ts) Vsonic in
      let J14 := J_set J13 "Ps" "n_moles"
                   (fdiv (fmul (fneg gamma)
                            (fadd (fmul (fmul (fmul MN RT_q_MW) dMN_dVs) dVs_dnmoles)
                                  (fmul (fmul MN_squared_q2 R) Ts)))
                         ht) in
      let J15 := J_set J14 "V" "n_moles"
                   (fadd (fmul (fmul dMN_dVs dVs_dnmoles) Vsonic)
                         (fmul dVs_dnmoles MN)) in
      let J16 := J_set J15 "MN" "n_moles" (fmul dMN_dVs dVs_dnmoles) in
      let dMN_dW := fdiv (fdiv (fdiv (Fin 1) rho) Vsonic) area in
      let J17 := J_set J16 "Ps" "W" (fdiv (fmul dMN_dW dresid_dMN) ht) in
      let J18 := J_set J17 "V" "W" (fmul dMN_dW Vsonic) in
      let J19 := J_set J18 "MN" "W" dMN_dW in
      let dMN_dgamma := fmul dMN_dVs dVs_dgamma in
      let J20 := J_set J19 "MN" "gamma" dMN_dgamma in
      let J21 := J_set J20 "Ps" "gamma"
                   (fmul (fdiv RT_q_MW ht)
                         (fadd MN_squared_q2 (fmul (fmul gamma MN) dMN_dgamma))) in
      let J22 := J_set J21 "V" "gamma"
                   (fadd (fmul dMN_dgamma Vsonic) (fmul dVs_dgamma MN)) in
      let dMN_drho :=
        fdiv (fneg W) (fmul (fmul area Vsonic) (fmul rho rho)) in
      let J23 := J_set J22 "Ps" "rho"
                   (fdiv (fmul (fmul (fmul (fmul (fmul MN gamma) R) n_moles) Ts)
                               dMN_drho)
                         ht) in
      let J24 := J_set J23 "V" "rho" (fmul dMN_drho Vsonic) in
      let J25 := J_set J24 "MN" "rho" dMN_drho in
      Ok (add_stdout self out, J25)
  end.

End WithConstants.

End PsResid.

(* ================================================================== *)
(** * [pycycle/cea/static_ps_calc.py] *)

Module PsCalc.

Record Inputs : Type := {
  i_P : npfloat;
  i_gamma : npfloat;
  i_n_moles : npfloat;
  i_Ts : npfloat;
  i_ht : npfloat;
  i_hs : npfloat;
  i_W : npfloat;
  i_rho : npfloat
}.

Record Outputs : Type := {
  o_MN : npfloat;
  o_V : npfloat;
  o_Vsonic : npfloat;
  o_area : npfloat
}.

Section WithConstants.

Variable R_UNIVERSAL_SI : npfloat.

Definition compute (em : errstate) (inputs : Inputs) : result Outputs :=
  let gamma := i_gamma inputs in
  let n_moles := i_n_moles inputs in
  let Ts := i_Ts inputs in
  let ht := i_ht inputs in
  let hs := i_hs inputs in
  let W := i_W inputs in
  let rho := i_rho inputs in
  a <- op2 em fmul gamma R_UNIVERSAL_SI ;;
  b <- op2 em fmul a n_moles ;;
  c <- op2 em fmul b Ts ;;
  Vsonic <- op1 em fsqrt c ;;
  (* If ht < hs then V will be imaginary, so use an inverse relationship *)
  V <- (if fgeb ht hs
        then d <- op2 em fsub ht hs ;;
             e <- op2 em fmul (Fin 2.0) d ;;
             op1 em fsqrt e
        else d <- op2 em fsub hs ht ;;
             e <- op2 em fmul (Fin 2.0) d ;;
             op1 em fsqrt e) ;;
  MN <- op2 em fdiv V Vsonic ;;
  f <- op2 em fmul rho V ;;
  area <- op2 em fdiv W f ;;
  Ok {| o_MN := MN; o_V := V; o_Vsonic := Vsonic; o_area := area |}.

(** The sub-Jacobian dictionary of [compute_partials]: a binding in front
    for every assignment [J[out, wrt] = v]. *)
Definition Jacobian : Type := list (string * string * npfloat).

Definition J_set (J : Jacobian) (out wrt : string) (v : npfloat) : Jacobian :=
  (out, wrt, v) :: J.

Fixpoint J_get (J : Jacobian) (out wrt : string) : option npfloat :=
  match J with
  | [] => None
  | (o, w, v) :: rest =>
      if String.eqb o out && String.eqb w wrt then Some v else J_get rest out wrt
  end.

(** [compute_partials], in the default error state. *)
Definition compute_partials (inputs : Inputs) (J0 : Jacobian) : Jacobian :=
  let gamma := i_gamma inputs in
  let n_moles := i_n_moles inputs in
  let Ts := i_Ts inputs in
  let ht := i_ht inputs in
  let hs := i_hs inputs in
  let W := i_W inputs in
  let rho := i_rho inputs in
  let Vsonic := fsqrt (fmul (fmul (fmul gamma R_UNIVERSAL_SI) n_moles) Ts) in
  let JVs_gamma := fdiv Vsonic (fmul (Fin 2.0) gamma) in
  let J1 := J_set J0 "Vsonic" "gamma" JVs_gamma in
  let JVs_n := fdiv Vsonic (fmul (Fin 2.0) n_moles) in
  let J2 := J_set J1 "Vsonic" "n_moles" JVs_n in
  let JVs_Ts := fdiv Vsonic (fmul (Fin 2.0) Ts) in
  let J3 := J_set J2 "Vsonic" "Ts" JVs_Ts in
  let V :=
    if fgeb ht hs
    then fsqrt (fmul (Fin 2.0) (fsub ht hs))
    else fsqrt (fmul (Fin 2.0) (fsub hs ht)) in
  let JV_ht :=
    if fgeb ht hs then fdiv (Fin 1.0) V else fdiv (Fin (-1.0)) V in
  let JV_hs :=
    if fgeb ht hs then fdiv (Fin (-1.0)) V else fdiv (Fin 1.0) V in
  let J4 :=
    if fgeb ht hs
    then J_set (J_set J3 "V" "ht" JV_ht) "V" "hs" JV_hs
    else J_set (J_set J3 "V" "hs" JV_hs) "V" "ht" JV_ht in
  let J5 := J_set J4 "MN" "ht" (fmul (fdiv (Fin 1.0) Vsonic) JV_ht) in
  let J6 := J_set J5 "MN" "hs" (fmul (fdiv (Fin 1.0) Vsonic) JV_hs) in
  let mVq := fdiv (fneg V) (fmul Vsonic Vsonic) in
  let J7 := J_set J6 "MN" "gamma" (fmul mVq JVs_gamma) in
  let J8 := J_set J7 "MN" "n_moles" (fmul mVq JVs_n) in
  let J9 := J_set J8 "MN" "Ts" (fmul mVq JVs_Ts) in
  let J10 := J_set J9 "area" "W" (fdiv (Fin 1.0) (fmul rho V)) in
  let J11 := J_set J10 "area" "rho" (fdiv (fneg W) (fmul (fmul rho rho) V)) in
  let mWq := fdiv (fneg W) (fmul rho (fmul V V)) in
  let J12 := J_set J11 "area" "ht" (fmul mWq JV_ht) in
  J_set J12 "area" "hs" (fmul mWq JV_hs).

End WithConstants.

End PsCalc.

(* ================================================================== *)
(** * Facts about the numeric model *)

Section NumFacts.

Lemma Rltb_true (x y : R) : x < y -> Rltb x y = true.
Proof. intros H; unfold Rltb; destruct (Rlt_dec x y); [reflexivity | lra]. Qed.

Lemma Rltb_false (x y : R) : y <= x -> Rltb x y = false.
Proof. intros H; unfold Rltb; destruct (Rlt_dec x y); [lra | reflexivity]. Qed.

Lemma Rltb_iff (x y : R) : Rltb x y = true <-> x < y.
Proof.
  unfold Rltb; destruct (Rlt_dec x y); split; intros; try lra; auto; discriminate.
Qed.

Lemma Reqb_true (x y : R) : x = y -> Reqb x y = true.
Proof. intros H; unfold Reqb; destruct (Req_dec_T x y); [reflexivity | lra]. Qed.

Lemma Reqb_false (x y : R) : x <> y -> Reqb x y = false.
Proof. intros H; unfold Reqb; destruct (Req_dec_T x y); [contradiction | reflexivity]. Qed.

Lemma Reqb_iff (x y : R) : Reqb x y = true <-> x = y.
Proof.
  unfold Reqb; destruct (Req_dec_T x y); split; intros; auto; try discriminate;
    try contradiction.
Qed.

Lemma fleb_Fin (x y : R) : fleb (Fin x) (Fin y) = true <-> x <= y.
Proof.
  unfold fleb; simpl. rewrite orb_true_iff, Rltb_iff, Reqb_iff. lra.
Qed.

Lemma fsub_Fin (x y : R) : fsub (Fin x) (Fin y) = Fin (x - y).
Proof. reflexivity. Qed.

(** A difference is the finite zero only between equal finite values. *)
Lemma fsub_zero_inv (a b : npfloat) :
  fsub a b = Fin 0 -> exists x, a = Fin x /\ b = Fin x.
Proof.
  destruct a as [x| | |], b as [y| | |]; simpl; try discriminate.
  intros H. injection H as H. exists x. split; [reflexivity|]. f_equal. lra.
Qed.

End NumFacts.

(** Deciding the comparisons of a concrete evaluation. *)
Ltac Rdecide1 :=
  match goal with
  | |- context [Rltb ?a ?b] =>
      first [ rewrite (Rltb_true a b) by lra | rewrite (Rltb_false a b) by lra ]
  | |- context [Reqb ?a ?b] =>
      first [ rewrite (Reqb_true a b) by lra | rewrite (Reqb_false a b) by lra ]
  end.

(** One step of evaluation: unfold the model, keep real arithmetic folded. *)
Ltac np_step :=
  cbv beta iota zeta delta
    [ fneg fabs fadd fsub fmul fdiv fsqrt fexp flog fltb feqb fleb fgtb fgeb fneb
      inf_signed is_nan is_inf is_finite signals raising fpow
      fadd_raise fsub_raise fmul_raise fdiv_raise fsqrt_raise flog_raise
      np_op op1 op2 bind getattr not_None mapM map2 mapi mapi_from
      np_sum np_norm np_where in_mask vget mget vset_where mset_where mblock
      np_zeros np_eye
      List.map List.fold_left List.combine List.app List.existsb List.forallb
      List.concat List.nth List.repeat List.seq List.firstn List.skipn
      fst snd negb andb orb Nat.eqb Nat.leb Nat.ltb Nat.add Nat.sub
      ChemEq.P_REF ChemEq.R_UNIVERSAL_ENG ChemEq.MIN_VALID_CONCENTRATION
      ChemEq.mode_is_T ChemEq.num_prod ChemEq.num_element ChemEq.aij
      ChemEq.thermo_b0 ChemEq.H0 ChemEq.S0 ChemEq.H0_applyJ ChemEq.S0_applyJ
      ChemEq.i_b0 ChemEq.i_P ChemEq.i_closure
      ChemEq.o_T ChemEq.o_n ChemEq.o_pi ChemEq.o_n_moles
      ChemEq.r_T ChemEq.r_n ChemEq.r_pi ChemEq.r_n_moles
      ChemEq.mode ChemEq.thermo ChemEq.pathname ChemEq.remove_trace_species
      ChemEq.use_trace_damping ChemEq.n_init ChemEq.size ChemEq._dRdy
      ChemEq.H0_T ChemEq.S0_T ChemEq.dH0_dT ChemEq.dS0_dT ChemEq.sum_n_H0_T
      ChemEq.mu ChemEq.weights ChemEq._trace ChemEq.stdout
      ChemEq.setup ChemEq.setup_outputs ChemEq.get_norm ChemEq.any_negative
      ChemEq.guess_nonlinear ChemEq.map2M ChemEq.mu_raise ChemEq.col
      ChemEq.sum_pi_aijT ChemEq.sum_aij_n ChemEq.entropy_sum
      ChemEq.apply_nonlinear
      PsResid.i_Ts PsResid.i_ht PsResid.i_hs PsResid.i_n_moles PsResid.i_gamma
      PsResid.i_W PsResid.i_rho PsResid.i_guess_gamt PsResid.i_guess_Pt
      PsResid.i_MN PsResid.i_guess_MN PsResid.i_area
      PsResid.o_Ps PsResid.o_V PsResid.o_Vsonic PsResid.o_area PsResid.o_MN
      PsResid.mode PsResid.pathname PsResid._ps_guess_cache PsResid.stdout
      PsResid.setup PsResid.set_Ps PsResid.set_cache PsResid.add_stdout
      PsResid.isentropic_Ps PsResid.equations PsResid.guess_nonlinear
      PsResid.Vsonic_expr
      PsResid._compute_outputs_MN PsResid.MN_guarded
      PsResid._compute_outputs_area PsResid.reraise PsResid.solve_nonlinear
      PsCalc.i_P PsCalc.i_gamma PsCalc.i_n_moles PsCalc.i_Ts PsCalc.i_ht
      PsCalc.i_hs PsCalc.i_W PsCalc.i_rho
      PsCalc.o_MN PsCalc.o_V PsCalc.o_Vsonic PsCalc.o_area PsCalc.compute ].

Ltac np_eval := np_step; repeat (Rdecide1; np_step).

(* ================================================================== *)
(** * The damping weight *)

Section Weighting.

Lemma exp_half_ge : 3 / 2 <= exp (1 / 2).
Proof. pose proof (exp_ineq1_le (1 / 2)); lra. Qed.

Lemma exp_10_ge : 2000 <= exp 10.
Proof.
  pose proof exp_half_ge as H.
  assert (H1 : 9 / 4 <= exp 1).
  { replace 1 with (1 / 2 + 1 / 2) by lra. rewrite exp_plus. nra. }
  assert (H2 : 81 / 16 <= exp 2).
  { replace 2 with (1 + 1) by lra. rewrite exp_plus. nra. }
  assert (H4 : 25 <= exp 4).
  { replace 4 with (2 + 2) by lra. rewrite exp_plus. nra. }
  assert (H8 : 625 <= exp 8).
  { replace 8 with (4 + 4) by lra. rewrite exp_plus. nra. }
  replace 10 with (8 + 2) by lra. rewrite exp_plus. nra.
Qed.

Lemma exp_mono (x y : R) : x <= y -> exp x <= exp y.
Proof.
  intros [H | ->]; [left; now apply exp_increasing | right; reflexivity].
Qed.

(** The weight of a finite argument, as a real number. *)
Definition weight (x : R) : R := (1 / (1 + exp (-1e5 * x)) - 0.5) * 2.

Lemma resid_weighting_Fin (x : R) :
  ChemEq._resid_weighting (Fin x) = Fin (weight x).
Proof.
  unfold ChemEq._resid_weighting, weight. simpl.
  pose proof (exp_pos (-1e5 * x)).
  rewrite Reqb_false by lra. reflexivity.
Qed.

Lemma weight_range (x : R) : -1 < weight x < 1.
Proof.
  unfold weight. pose proof (exp_pos (-1e5 * x)) as He.
  set (e := exp (-1e5 * x)) in *.
  assert (Hq : 0 < 1 / (1 + e) < 1).
  { split.
    - apply Rdiv_lt_0_compat; lra.
    - apply (Rmult_lt_reg_r (1 + e)); [lra|]. field_simplify; lra. }
  lra.
Qed.

Lemma weight_nonpos (x : R) : x <= 0 -> weight x <= 0.
Proof.
  intros Hx. unfold weight.
  assert (He : 1 <= exp (-1e5 * x)).
  { rewrite <- exp_0. apply exp_mono. lra. }
  set (e := exp (-1e5 * x)) in *.
  assert (Hq : 1 / (1 + e) <= 1 / 2).
  { apply (Rmult_le_reg_r (1 + e)); [lra|]. field_simplify; lra. }
  lra.
Qed.

Lemma weight_low (x : R) : x <= -1e-4 -> weight x <= - (1 - 1e-3).
Proof.
  intros Hx. unfold weight.
  assert (He : 2000 <= exp (-1e5 * x)).
  { eapply Rle_trans; [apply exp_10_ge | apply exp_mono; lra]. }
  set (e := exp (-1e5 * x)) in *.
  assert (Hq : 1 / (1 + e) <= 1 / 2001).
  { apply (Rmult_le_reg_r (1 + e)); [lra|]. field_simplify; lra. }
  lra.
Qed.

Lemma weight_high (x : R) : 1e-4 <= x -> 1 - 1e-3 <= weight x.
Proof.
  intros Hx. unfold weight.
  pose proof (exp_pos (-1e5 * x)) as Hp.
  assert (He : exp (-1e5 * x) <= / 2000).
  { replace (-1e5 * x) with (- (1e5 * x)) by lra. rewrite exp_Ropp.
    apply Rinv_le_contravar; [lra|].
    eapply Rle_trans; [apply exp_10_ge | apply exp_mono; lra]. }
  set (e := exp (-1e5 * x)) in *.
  assert (Hq : 2000 / 2001 <= 1 / (1 + e)).
  { apply (Rmult_le_reg_r (1 + e)); [lra|]. field_simplify; lra. }
  lra.
Qed.

End Weighting.

(* ================================================================== *)
(** * The equilibrium residuals *)

Section ResidualFacts.

Import ChemEq.

(** A successful residual evaluation, taken apart: the thermodynamic data were
    available, the chemical potential came from the guarded expression or
    from its fallback, and the residuals are those of the last lines. *)
Lemma apply_nonlinear_Ok (self : ChemEq) (inputs : Inputs) (outputs : Outputs)
    (self' : ChemEq) (r : Resids) :
  apply_nonlinear self inputs outputs = Ok (self', r) ->
  let T := if mode_is_T (mode self) then i_closure inputs else o_T outputs in
  exists h0 s0,
    H0 (thermo self) T = Ok h0 /\ S0 (thermo self) T = Ok s0 /\
    r_pi r = map2 fsub (sum_aij_n (thermo self) (o_n outputs)) (i_b0 inputs) /\
    r_n_moles r = fsub (np_sum (o_n outputs)) (o_n_moles outputs) /\
    r_T r =
      match mode self with
      | ModeT => None
      | ModeH =>
          Some (fdiv (fsub (i_closure inputs)
                           (fmul (fmul (np_sum (map2 fmul (o_n outputs) h0))
                                       R_UNIVERSAL_ENG) T))
                     (i_closure inputs))
      | ModeS =>
          Some (fdiv (fsub (i_closure inputs)
                           (fmul R_UNIVERSAL_ENG
                                 (entropy_sum (o_n outputs) s0 (np_sum (o_n outputs))
                                              (fdiv (i_P inputs) P_REF))))
                     (i_closure inputs))
      end /\
    remove_trace_species self' = fltb (np_norm (r_n r)) (Fin 1e-4) /\
    _trace self' =
      (if remove_trace_species self
       then Some (np_where
                    (fun x => fleb x (fadd MIN_VALID_CONCENTRATION (Fin 1e-20)))
                    (o_n outputs))
       else _trace self) /\
    thermo self' = thermo self /\ mode self' = mode self /\
    size self' = size self /\ _dRdy self' = _dRdy self /\
    use_trace_damping self' = use_trace_damping self.
Proof.
  intros H T. unfold apply_nonlinear in H. fold T in H.
  destruct (H0 (thermo self) T) as [h0|e0] eqn:EH; [|discriminate H].
  destruct (S0 (thermo self) T) as [s0|e1] eqn:ES; [|discriminate H].
  cbn [bind fst snd] in H.
  exists h0, s0. split; [reflexivity|]. split; [reflexivity|].
  destruct (mu_raise h0 s0 (o_n outputs) (fdiv (i_P inputs) P_REF)
              (np_sum (o_n outputs))) as [m|e2].
  - cbn [bind fst snd] in H. injection H as <- <-.
    cbn [r_pi r_n_moles r_T r_n remove_trace_species _trace thermo mode size
         _dRdy use_trace_damping].
    repeat split; reflexivity.
  - destruct (mu_raise h0 s0 (o_n outputs) (Fin 1e-5) (np_sum (o_n outputs)))
      as [m|e3]; [|discriminate H].
    cbn [bind fst snd] in H. injection H as <- <-.
    cbn [r_pi r_n_moles r_T r_n remove_trace_species _trace thermo mode size
         _dRdy use_trace_damping].
    repeat split; reflexivity.
Qed.

End ResidualFacts.

(* ================================================================== *)
(** * Example data: one species, one element *)

Section Examples.

Import ChemEq.

(** A mixture of one species made of one element, with constant
    thermodynamic functions. *)
Definition thermo1 : Thermo :=
  {| num_prod := 1;
     num_element := 1;
     aij := [[Fin 1]];
     thermo_b0 := [Fin 1];
     H0 := fun _ => Ok [Fin 1];
     S0 := fun _ => Ok [Fin 0];
     H0_applyJ := fun _ _ => [Fin 0];
     S0_applyJ := fun _ _ => [Fin 0] |}.

(** Enthalpy mode, [h = 1], at the state [n = [1]], [pi = [0]], [T = 2]. *)
Definition inputs1 : Inputs :=
  {| i_b0 := [Fin 1]; i_P := Fin 1.01325; i_closure := Fin 1 |}.
Definition outputs1 : Outputs :=
  {| o_T := Fin 2; o_n := [Fin 1]; o_pi := [Fin 0]; o_n_moles := Fin 1 |}.

End Examples.

(* ================================================================== *)
(** * The temperature residual of enthalpy mode *)

Section EnthalpyResidual.

Import ChemEq.

(** Sums and products of finite values are the real ones. *)
Definition Rsum (l : list R) : R := fold_left Rplus l 0.

Lemma fold_fadd_Fin (l : list R) (a : R) :
  fold_left fadd (map Fin l) (Fin a) = Fin (fold_left Rplus l a).
Proof.
  revert a; induction l as [|x l IH]; intros a; simpl; [reflexivity|].
  apply IH.
Qed.

Lemma np_sum_Fin (l : list R) : np_sum (map Fin l) = Fin (Rsum l).
Proof. apply fold_fadd_Fin. Qed.

Lemma map2_fmul_Fin (a b : list R) :
  map2 fmul (map Fin a) (map Fin b) = map Fin (map2 Rmult a b).
Proof.
  revert b; induction a as [|x a IH]; intros [|y b]; simpl; try reflexivity.
  now rewrite IH.
Qed.

(** Whenever the thermodynamic data and one of the two evaluations of the
    chemical potential succeed, the residual evaluation returns. *)
Lemma apply_nonlinear_returns (self : ChemEq) (inputs : Inputs)
    (outputs : Outputs) (h0 s0 m : vec) :
  let T := if mode_is_T (mode self) then i_closure inputs else o_T outputs in
  H0 (thermo self) T = Ok h0 ->
  S0 (thermo self) T = Ok s0 ->
  mu_raise h0 s0 (o_n outputs) (fdiv (i_P inputs) P_REF) (np_sum (o_n outputs))
    = Ok m ->
  exists self' r, apply_nonlinear self inputs outputs = Ok (self', r).
Proof.
  intros T EH ES Em. unfold apply_nonlinear. fold T. rewrite EH, ES.
  cbn [bind fst snd]. rewrite Em. cbn [bind fst snd].
  eexists; eexists; reflexivity.
Qed.

(** The temperature residual as the specification words it: no factor
    besides [R] on the enthalpy sum. *)
Definition resid_T_spec (h : npfloat) (n H0_T : vec) : npfloat :=
  fdiv (fsub h (fmul (np_sum (map2 fmul n H0_T)) R_UNIVERSAL_ENG)) h.

Lemma example1_returns :
  exists self' r,
    apply_nonlinear (setup ModeH thermo1 "chemeq") inputs1 outputs1 = Ok (self', r).
Proof.
  apply (apply_nonlinear_returns (setup ModeH thermo1 "chemeq") inputs1 outputs1
           [Fin 1] [Fin 0] [Fin (1 + - 0 + ln 1 + ln (1.01325 / 1.01325) + - ln (0 + 1))]);
    try reflexivity.
  unfold inputs1, outputs1. np_eval. reflexivity.
Qed.

(** C1, as stated, fails: at [h = 1], [n = [1]], [H0(T) = [1]], [T = 2] the
    residual the code produces is not [(h - sum(n*H0)*R)/h]. *)
Lemma resid_T_spec_fails :
  exists self' r,
    apply_nonlinear (setup ModeH thermo1 "chemeq") inputs1 outputs1 = Ok (self', r)
    /\ r_T r <> Some (resid_T_spec (i_closure inputs1) (o_n outputs1) [Fin 1]).
Proof.
  destruct example1_returns as (self' & r & E).
  exists self', r. split; [exact E|].
  destruct (apply_nonlinear_Ok _ _ _ _ _ E)
    as (h0 & s0 & EH & _ & _ & _ & ET & _).
  cbn in EH. injection EH as <-.
  rewrite ET. unfold resid_T_spec, inputs1, outputs1. np_eval.
  intros H. injection H as H. lra.
Qed.

(** C1 (amended): in enthalpy mode, for a nonzero target [h] and finite
    values, one residual evaluation produces
    [resid_T = (h - (sum_j n_j*H0_j(T)) * R * T) / h]: the enthalpy sum is
    multiplied by [R] and by the temperature [T]. *)
Theorem resid_T_enthalpy_mode (self : ChemEq) (inputs : Inputs)
    (outputs : Outputs) (self' : ChemEq) (r : Resids)
    (h T : R) (ns hs : list R) :
  mode self = ModeH ->
  i_closure inputs = Fin h -> h <> 0 ->
  o_T outputs = Fin T ->
  o_n outputs = map Fin ns ->
  H0 (thermo self) (Fin T) = Ok (map Fin hs) ->
  apply_nonlinear self inputs outputs = Ok (self', r) ->
  r_T r = Some (Fin ((h - Rsum (map2 Rmult ns hs) * 1.9872035 * T) / h)).
Proof.
  intros Hm Eh Hh ET En EH0 E.
  destruct (apply_nonlinear_Ok _ _ _ _ _ E)
    as (h0 & s0 & EH & _ & _ & _ & ErT & _).
  rewrite Hm in EH, ErT. cbn [mode_is_T] in EH, ErT.
  rewrite ET in EH, ErT. rewrite EH0 in EH. injection EH as <-.
  rewrite ErT, Eh, En, map2_fmul_Fin, np_sum_Fin.
  np_eval. reflexivity.
Qed.

Lemma resid_T_enthalpy_mode_witness :
  exists self' r,
    apply_nonlinear (setup ModeH thermo1 "chemeq") inputs1 outputs1 = Ok (self', r)
    /\ r_T r = Some (Fin ((1 - Rsum (map2 Rmult [1] [1]) * 1.9872035 * 2) / 1)).
Proof.
  destruct example1_returns as (self' & r & E).
  exists self', r. split; [exact E|].
  apply (resid_T_enthalpy_mode (setup ModeH thermo1 "chemeq") inputs1 outputs1
           self' r 1 2 [1] [1]);
    solve [reflexivity | exact E | lra].
Defined.

End EnthalpyResidual.

(* ================================================================== *)
(** * The damping weight on both sides of zero *)

Section DampingWeight.

Import ChemEq.

(** C3, as stated, fails for arguments below zero: the weight of [-1] is not
    within [1e-3] of zero. *)
Lemma resid_weighting_far_from_zero :
  -1 <= 0 /\
  exists w, _resid_weighting (Fin (-1)) = Fin w /\ 1e-3 < Rabs w.
Proof.
  split; [lra|]. exists (weight (-1)). split; [apply resid_weighting_Fin|].
  pose proof (weight_low (-1)) as H.
  rewrite Rabs_left; lra.
Qed.

(** C3 (amended): the weight of a finite argument lies strictly between -1
    and 1 and is 0 at 0; for every [x <= 0] it is at most 0, and it tends to
    -1 rather than to 0: it is at most [-(1 - 1e-3)] for all [x <= -1e-4];
    for all [x >= 1e-4] it is at least [1 - 1e-3]. *)
Theorem resid_weighting_bounds (x : R) :
  exists w,
    _resid_weighting (Fin x) = Fin w /\
    -1 < w < 1 /\
    (x = 0 -> w = 0) /\
    (x <= 0 -> w <= 0) /\
    (x <= -1e-4 -> w <= - (1 - 1e-3)) /\
    (1e-4 <= x -> 1 - 1e-3 <= w).
Proof.
  exists (weight x). split; [apply resid_weighting_Fin|].
  split; [apply weight_range|].
  split.
  - intros ->. unfold weight. replace (-1e5 * 0) with 0 by lra.
    rewrite exp_0. lra.
  - split; [apply weight_nonpos|].
    split; [apply weight_low | apply weight_high].
Qed.

Lemma resid_weighting_bounds_witness :
  exists w, _resid_weighting (Fin 1e-4) = Fin w /\ 1 - 1e-3 <= w.
Proof.
  destruct (resid_weighting_bounds 1e-4) as (w & E & _ & _ & _ & _ & H).
  exists w. split; [exact E | apply H; lra].
Defined.

End DampingWeight.

(* ================================================================== *)
(** * Mass conservation *)

Section MassConservation.

Import ChemEq.

Lemma vget_map2_Fin {A B} (f : A -> B -> npfloat) (a : list A) (b : list B)
    (e : nat) (x : R) :
  vget (map2 f a b) e = Fin x ->
  exists u v, nth_error a e = Some u /\ nth_error b e = Some v /\ f u v = Fin x.
Proof.
  unfold vget. revert b e.
  induction a as [|u a IH]; intros [|v b] [|e]; simpl; try discriminate.
  - intros H. exists u, v. auto.
  - intros H. apply IH in H. exact H.
Qed.

(** C8: the mass-conservation residual is [sum_j aij[e,j]*n_j - b0[e]]
    whatever the damping and trace-removal switches are, and wherever its
    entry [e] is zero, [sum_j aij[e,j]*n_j] equals [b0[e]]. *)
Theorem mass_conservation_at_zero_residual (self : ChemEq) (inputs : Inputs)
    (outputs : Outputs) (self' : ChemEq) (r : Resids) (e : nat) :
  apply_nonlinear self inputs outputs = Ok (self', r) ->
  vget (r_pi r) e = Fin 0 ->
  r_pi r = map2 fsub (sum_aij_n (thermo self) (o_n outputs)) (i_b0 inputs) /\
  exists x,
    np_sum (map2 fmul (nth e (aij (thermo self)) []) (o_n outputs)) = Fin x /\
    vget (i_b0 inputs) e = Fin x.
Proof.
  intros E Hz.
  destruct (apply_nonlinear_Ok _ _ _ _ _ E) as (h0 & s0 & _ & _ & Epi & _).
  split; [exact Epi|].
  rewrite Epi in Hz.
  destruct (vget_map2_Fin _ _ _ _ _ Hz) as (u & v & Hu & Hv & Huv).
  unfold sum_aij_n in Hu. rewrite nth_error_map in Hu.
  match type of Hu with
  | option_map _ ?t = _ => destruct t as [row|] eqn:Er
  end; cbn [option_map] in Hu; [|discriminate Hu].
  injection Hu as <-.
  destruct (fsub_zero_inv _ _ Huv) as (x & Ex & Ev).
  exists x. split.
  - rewrite (nth_error_nth _ _ _ Er). exact Ex.
  - unfold vget. rewrite (nth_error_nth _ _ _ Hv). exact Ev.
Qed.

Lemma mass_conservation_at_zero_residual_witness :
  exists self' r,
    apply_nonlinear (setup ModeH thermo1 "chemeq") inputs1 outputs1 = Ok (self', r)
    /\ exists x,
         np_sum (map2 fmul (nth 0 (aij thermo1) []) (o_n outputs1)) = Fin x /\
         vget (i_b0 inputs1) 0 = Fin x.
Proof.
  destruct example1_returns as (self' & r & E).
  exists self', r. split; [exact E|].
  apply (mass_conservation_at_zero_residual _ _ _ _ _ 0 E).
  destruct (apply_nonlinear_Ok _ _ _ _ _ E) as (h0 & s0 & _ & _ & Epi & _).
  rewrite Epi. unfold inputs1, outputs1, thermo1. np_eval. f_equal. lra.
Defined.

End MassConservation.

(* ================================================================== *)
(** * The guess step of the equilibrium solver *)

Section EquilibriumGuess.

Import ChemEq.

(** The condition under which [guess_nonlinear] restarts. *)
Definition needs_reset (outputs : Outputs) (resids : Resids) : Prop :=
  fgtb (get_norm resids) (Fin 1e-2) = true
  \/ feqb (get_norm resids) (Fin 0) = true
  \/ exists x, In x (o_n outputs) /\ fltb x (Fin 0) = true.

Lemma needs_reset_iff (outputs : Outputs) (resids : Resids) :
  needs_reset outputs resids <->
  fgtb (get_norm resids) (Fin 1e-2) || feqb (get_norm resids) (Fin 0)
    || any_negative (o_n outputs) = true.
Proof.
  unfold needs_reset, any_negative.
  rewrite !orb_true_iff, existsb_exists. tauto.
Qed.

(** The initial guess made by [setup] is uniform, [1/(10*num_prod)] each. *)
Lemma setup_n_init (m : Mode) (th : Thermo) (path : string) :
  n_init (setup m th path)
  = repeat (Fin (1 / (10 * INR (num_prod th)))) (num_prod th).
Proof.
  cbn [setup n_init]. destruct (num_prod th) as [|k] eqn:E; [reflexivity|].
  f_equal. np_step.
  assert (H : INR (S k) <> 0) by (apply not_0_INR; discriminate).
  rewrite Reqb_false by exact H. np_step.
  rewrite Reqb_false by lra. f_equal. field. exact H.
Qed.

(** C9: with the initial guess of [setup], the guess step resets [n] to
    [1/(10*num_prod)] everywhere, and [T] to 1000 in modes h and S, exactly
    when the residual norm exceeds 1e-2, is zero, or some [n_j] is negative;
    otherwise it returns the outputs unchanged.  [pi] and [n_moles] are kept
    in both cases, and the instance is not written to. *)
Theorem guess_nonlinear_reset_policy (self : ChemEq) (inputs : Inputs)
    (outputs : Outputs) (resids : Resids) :
  n_init self = n_init (setup (mode self) (thermo self) (pathname self)) ->
  (needs_reset outputs resids ->
   guess_nonlinear self inputs outputs resids =
     {| o_T := if mode_is_T (mode self) then o_T outputs else Fin 1000;
        o_n := repeat (Fin (1 / (10 * INR (num_prod (thermo self)))))
                      (num_prod (thermo self));
        o_pi := o_pi outputs;
        o_n_moles := o_n_moles outputs |})
  /\ (~ needs_reset outputs resids ->
      guess_nonlinear self inputs outputs resids = outputs).
Proof.
  intros Hinit. rewrite needs_reset_iff. unfold guess_nonlinear.
  destruct (fgtb (get_norm resids) (Fin 1e-2) || feqb (get_norm resids) (Fin 0)
            || any_negative (o_n outputs)).
  - split; [intros _ | intros H; contradiction H; reflexivity].
    rewrite Hinit, setup_n_init. reflexivity.
  - split; [discriminate | reflexivity].
Qed.

(** A converged state: every residual is zero. *)
Definition resids_zero : Resids :=
  {| r_T := Some (Fin 0); r_n := [Fin 0]; r_pi := [Fin 0]; r_n_moles := Fin 0 |}.

Lemma resids_zero_norm : get_norm resids_zero = Fin 0.
Proof.
  unfold resids_zero. np_eval.
  replace (0 + 0 * 0 + 0 * 0 + 0 * 0 + 0 * 0) with 0 by lra.
  now rewrite sqrt_0.
Qed.

Lemma guess_nonlinear_reset_policy_witness :
  needs_reset outputs1 resids_zero /\
  guess_nonlinear (setup ModeH thermo1 "chemeq") inputs1 outputs1 resids_zero =
    {| o_T := Fin 1000; o_n := [Fin (1 / (10 * INR 1))]; o_pi := [Fin 0];
       o_n_moles := Fin 1 |}.
Proof.
  assert (H : needs_reset outputs1 resids_zero).
  { right; left. rewrite resids_zero_norm. np_eval. reflexivity. }
  split; [exact H|].
  apply (proj1 (guess_nonlinear_reset_policy (setup ModeH thermo1 "chemeq")
                  inputs1 outputs1 resids_zero eq_refl) H).
Defined.

End EquilibriumGuess.

(* ================================================================== *)
(** * The guess step of the static-flow resolver *)

Section StaticGuess.

Import PsResid.

(** The isentropic estimate at rest is the total pressure. *)
Lemma isentropic_Ps_at_rest (Pt g : R) :
  g <> 1 -> isentropic_Ps (Fin Pt) (Fin g) (Fin 0) = Fin Pt.
Proof.
  intros Hg. np_step. rewrite (Reqb_false (g + - (1)) 0) by lra. np_step.
  rewrite (Reqb_false 2 0) by lra. np_step.
  destruct (Reqb (- g / (g + - (1))) 0); np_step.
  - f_equal; lra.
  - rewrite Reqb_true by lra. np_step. f_equal; lra.
Qed.

(** For a ratio of specific heats above 1 and a nonzero Mach number the
    estimate is the real power, and it is below the total pressure. *)
Lemma isentropic_Ps_moving (Pt g M : R) :
  0 < Pt -> 1 < g -> M <> 0 ->
  exists ps, isentropic_Ps (Fin Pt) (Fin g) (Fin M) = Fin ps /\ ps < Pt.
Proof.
  intros HPt Hg HM.
  assert (HM2 : 0 < M * M) by nra.
  assert (Hc : 0 < (g + - (1)) / 2 * (M * M)).
  { apply Rmult_lt_0_compat; [lra | exact HM2]. }
  assert (Hy : - g / (g + - (1)) < 0).
  { assert (Hi : 0 < / (g + - (1))) by (apply Rinv_0_lt_compat; lra).
    unfold Rdiv. nra. }
  exists (Pt * Rpower (1 + (g + - (1)) / 2 * (M * M)) (- g / (g + - (1)))).
  split.
  - np_step. rewrite (Reqb_false (g + - (1)) 0) by lra. np_step.
    rewrite (Reqb_false 2 0) by lra. np_step.
    rewrite (Reqb_false (- g / (g + - (1))) 0) by lra.
    rewrite (Reqb_false (1 + (g + - (1)) / 2 * (M * M)) 1) by lra.
    rewrite (Rltb_true 0 (1 + (g + - (1)) / 2 * (M * M))) by lra.
    reflexivity.
  - assert (Hp : Rpower (1 + (g + - (1)) / 2 * (M * M)) (- g / (g + - (1))) < 1).
    { assert (Hln : 0 < ln (1 + (g + - (1)) / 2 * (M * M))).
      { pose proof (ln_increasing 1 (1 + (g + - (1)) / 2 * (M * M))) as Hi.
        rewrite ln_1 in Hi. apply Hi; lra. }
      unfold Rpower. revert Hy Hln.
      generalize (- g / (g + - (1))) (ln (1 + (g + - (1)) / 2 * (M * M))).
      intros y l Hy Hl.
      pose proof (exp_increasing (y * l) 0) as He. rewrite exp_0 in He.
      apply He. nra. }
    revert Hp. generalize (Rpower (1 + (g + - (1)) / 2 * (M * M)) (- g / (g + - (1)))).
    intros p Hp. nra.
Qed.

End StaticGuess.

(* ================================================================== *)
(** * Example data: a flow station *)

Section FlowExamples.

Import PsResid.

(** The universal gas constant in J/(kmol K). *)
Definition R_SI : npfloat := Fin 8314.4598.

(** A root-finder that is exact on systems of the form
    [(x - a, y - b)]: it returns [(a, b)] from any start. *)
Definition fsolve_unit_slope (F : npfloat * npfloat -> npfloat * npfloat)
    (x0 : npfloat * npfloat) : npfloat * npfloat :=
  (fneg (fst (F (Fin 0, Fin 0))), fneg (snd (F (Fin 0, Fin 0)))).

(** A station at rest guess ([guess:MN = 0]) with total pressure 1 bar... *)
Definition station1 : Inputs :=
  {| i_Ts := Fin 300; i_ht := Fin 1; i_hs := Fin 1; i_n_moles := Fin 0.03;
     i_gamma := Fin 1.4; i_W := Fin 1; i_rho := Fin 1;
     i_guess_gamt := Fin 1.4; i_guess_Pt := Fin 1;
     i_MN := Fin 0; i_guess_MN := Fin 0; i_area := Fin 1 |}.

(** ... and the same station after the total pressure moved to 2 bar. *)
Definition station2 : Inputs :=
  {| i_Ts := Fin 300; i_ht := Fin 1; i_hs := Fin 1; i_n_moles := Fin 0.03;
     i_gamma := Fin 1.4; i_W := Fin 1; i_rho := Fin 1;
     i_guess_gamt := Fin 1.4; i_guess_Pt := Fin 2;
     i_MN := Fin 0; i_guess_MN := Fin 0; i_area := Fin 1 |}.

(** The outputs as [setup] declares them. *)
Definition outputs0 : Outputs :=
  {| o_Ps := Fin 0.001; o_V := Fin 100; o_Vsonic := Fin 330;
     o_area := Fin 1; o_MN := Fin 0.5 |}.

End FlowExamples.

(* ================================================================== *)
(** * Seeding the static pressure *)

Section StaticSeed.

Import PsResid.

Variable R_UNIVERSAL_SI : npfloat.
Variable fsolve :
  (npfloat * npfloat -> npfloat * npfloat) -> npfloat * npfloat -> npfloat * npfloat.

Lemma fgtb_fabs_fsub (a b e : R) :
  e < Rabs (a - b) -> fgtb (fabs (fsub (Fin a) (Fin b))) (Fin e) = true.
Proof. intros H. np_step. apply Rltb_true. exact H. Qed.

(** C4 (amended): in MN mode the guess step seeds [Ps] and the cache with the
    fresh isentropic estimate only when the estimate differs from the cache
    by more than 1e-10 and the cache still holds its initial value -1; in
    every other case, in particular on every invocation after the cache left
    -1, it changes neither [Ps] nor the cache. *)
Theorem guess_MN_seeds_once (self : PsResid) (inputs : Inputs)
    (outputs : Outputs) :
  mode self = ModeMN ->
  let fresh := isentropic_Ps (i_guess_Pt inputs) (i_guess_gamt inputs)
                 (i_MN inputs) in
  guess_nonlinear R_UNIVERSAL_SI fsolve self inputs outputs =
    (if fgtb (fabs (fsub fresh (_ps_guess_cache self))) (Fin 1e-10)
        && feqb (_ps_guess_cache self) (Fin (-1))
     then (set_cache self fresh, set_Ps outputs fresh)
     else (self, outputs))
  /\ (feqb (_ps_guess_cache self) (Fin (-1)) = false ->
      guess_nonlinear R_UNIVERSAL_SI fsolve self inputs outputs = (self, outputs)).
Proof.
  intros Hm fresh. unfold guess_nonlinear. rewrite Hm. fold fresh.
  destruct (fgtb (fabs (fsub fresh (_ps_guess_cache self))) (Fin 1e-10));
    destruct (feqb (_ps_guess_cache self) (Fin (-1)));
    split; try reflexivity; discriminate.
Qed.

(** C10: in area mode, when the root-found guess differs from the cache by
    more than 1e-10 and the pathname contains ['mixer.Fl_I1_calc'], [Ps] is
    seeded with 3.0 and the cache with the root-found guess; nothing else
    changes. *)
Theorem guess_area_mixer_seed (self : PsResid) (inputs : Inputs)
    (outputs : Outputs) :
  mode self = ModeArea ->
  let gamt := i_guess_gamt inputs in
  let M_guess := i_guess_MN inputs in
  let ps_guess := isentropic_Ps (i_guess_Pt inputs) gamt M_guess in
  let found :=
    fst (fsolve (equations R_UNIVERSAL_SI inputs gamt M_guess ps_guess)
           (ps_guess, M_guess)) in
  fgtb (fabs (fsub found (_ps_guess_cache self))) (Fin 1e-10) = true ->
  str_in "mixer.Fl_I1_calc" (pathname self) = true ->
  guess_nonlinear R_UNIVERSAL_SI fsolve self inputs outputs =
    ({| mode := mode self; pathname := pathname self;
        _ps_guess_cache := found; stdout := stdout self |},
     {| o_Ps := Fin 3; o_V := o_V outputs; o_Vsonic := o_Vsonic outputs;
        o_area := o_area outputs; o_MN := o_MN outputs |}).
Proof.
  intros Hm gamt M_guess ps_guess found Hd Hp.
  change (guess_nonlinear R_UNIVERSAL_SI fsolve self inputs outputs =
          (set_cache self found, set_Ps outputs (Fin 3))).
  unfold guess_nonlinear. rewrite Hm. fold gamt M_guess ps_guess found.
  rewrite Hd, Hp. reflexivity.
Qed.

(** A root of the system handed to [fsolve]: its pressure is the isentropic
    estimate at the start Mach number, whatever Mach number comes with it. *)
Lemma equations_root (inputs : Inputs) (gamt M_guess ps_guess ps MN : npfloat) :
  equations R_UNIVERSAL_SI inputs gamt M_guess ps_guess (ps, MN) = (Fin 0, Fin 0) ->
  ps = isentropic_Ps (i_guess_Pt inputs) gamt M_guess.
Proof.
  unfold equations. cbn [fst snd]. intros H. injection H as H1 _.
  destruct (fsub_zero_inv _ _ H1) as (x & -> & E). now rewrite E.
Qed.

End StaticSeed.

(* ================================================================== *)
(** * Facts about arrays *)

Section ArrayFacts.

Lemma length_mapi_from {A B} (f : nat -> A -> B) (l : list A) (k : nat) :
  List.length (mapi_from k f l) = List.length l.
Proof.
  revert k; induction l as [|x l IH]; intros k; simpl; [reflexivity|].
  now rewrite IH.
Qed.

Lemma nth_mapi_from {A B} (f : nat -> A -> B) (l : list A) (k i : nat)
    (d : A) (d' : B) :
  (i < List.length l)%nat ->
  nth i (mapi_from k f l) d' = f (k + i)%nat (nth i l d).
Proof.
  revert k i; induction l as [|x l IH]; intros k [|i] H; simpl in *; try lia.
  - now rewrite Nat.add_0_r.
  - rewrite IH by lia. f_equal. lia.
Qed.

Lemma length_vset_where (v : vec) sel f :
  List.length (vset_where v sel f) = List.length v.
Proof. apply length_mapi_from. Qed.

Lemma vget_vset_where (v : vec) sel f (j : nat) :
  (j < List.length v)%nat ->
  vget (vset_where v sel f) j = if sel j then f j (vget v j) else vget v j.
Proof.
  intros H. unfold vget, vset_where, mapi.
  rewrite (nth_mapi_from _ _ _ _ NaN) by exact H. reflexivity.
Qed.

Lemma length_mset_where (M : matrix) sel f :
  List.length (mset_where M sel f) = List.length M.
Proof. apply length_mapi_from. Qed.

Lemma nth_mset_where (M : matrix) sel f (i : nat) :
  (i < List.length M)%nat ->
  nth i (mset_where M sel f) [] = vset_where (nth i M []) (sel i) (f i).
Proof.
  intros H.
  exact (nth_mapi_from (fun i row => vset_where row (sel i) (f i)) M 0 i [] [] H).
Qed.

(** Reading an entry after an in-place assignment. *)
Lemma mget_mset_where (M : matrix) sel f (i j : nat) :
  (i < List.length M)%nat -> (j < List.length (nth i M []))%nat ->
  mget (mset_where M sel f) i j
  = if sel i j then f i j (mget M i j) else mget M i j.
Proof.
  intros Hi Hj. unfold mget. rewrite nth_mset_where by exact Hi.
  apply vget_vset_where. exact Hj.
Qed.

(** [has_shape r c M]: [M] has [r] rows of [c] entries each. *)
Definition has_shape (r c : nat) (M : matrix) : Prop :=
  List.length M = r /\ forall i, (i < r)%nat -> List.length (nth i M []) = c.

Lemma has_shape_zeros (r c : nat) : has_shape r c (np_zeros r c).
Proof.
  unfold has_shape, np_zeros. split; [apply repeat_length|].
  intros i Hi. rewrite nth_repeat_lt by exact Hi. apply repeat_length.
Qed.

Lemma has_shape_mset_where (r c : nat) (M : matrix) sel f :
  has_shape r c M -> has_shape r c (mset_where M sel f).
Proof.
  intros [Hr Hc]. split.
  - now rewrite length_mset_where.
  - intros i Hi. rewrite nth_mset_where by lia.
    rewrite length_vset_where. now apply Hc.
Qed.

Lemma mget_mset_where_shape (r c : nat) (M : matrix) sel f (i j : nat) :
  has_shape r c M -> (i < r)%nat -> (j < c)%nat ->
  mget (mset_where M sel f) i j
  = if sel i j then f i j (mget M i j) else mget M i j.
Proof.
  intros [Hr Hc] Hi Hj. apply mget_mset_where; [lia|]. rewrite Hc; lia.
Qed.

Lemma nth_map_lt {A B} (f : A -> B) (l : list A) (i : nat) (d : A) (d' : B) :
  (i < List.length l)%nat -> nth i (map f l) d' = f (nth i l d).
Proof.
  intros H. rewrite (nth_indep _ d' (f d)) by (rewrite length_map; exact H).
  apply map_nth.
Qed.

(** Reading an entry of a block. *)
Lemma mget_mblock (r c : nat) (M : matrix) (r0 r1 c0 c1 i j : nat) :
  has_shape r c M -> (r1 <= r)%nat -> (c1 <= c)%nat ->
  (r0 + i < r1)%nat -> (c0 + j < c1)%nat ->
  mget (mblock M r0 r1 c0 c1) i j = mget M (r0 + i) (c0 + j).
Proof.
  intros [Hr Hc] Hr1 Hc1 Hi Hj. unfold mget, mblock, vget.
  transitivity
    (nth j (firstn (c1 - c0)
              (skipn c0 (nth i (firstn (r1 - r0) (skipn r0 M)) []))) NaN).
  { f_equal.
    apply (nth_map_lt (fun row : vec => firstn (c1 - c0) (skipn c0 row))).
    rewrite length_firstn, length_skipn. lia. }
  rewrite nth_firstn.
  destruct (Nat.ltb_spec j (c1 - c0)) as [_|H]; [|lia].
  rewrite nth_skipn. f_equal.
  rewrite nth_firstn.
  destruct (Nat.ltb_spec i (r1 - r0)) as [_|H]; [|lia].
  now rewrite nth_skipn.
Qed.

(** Membership in the index array of [np.where]. *)
Lemma in_np_where_from (cond : npfloat -> bool) (v : vec) (k j : nat) :
  In j (List.concat (mapi_from k (fun i x => if cond x then [i] else []) v))
  <-> (k <= j < k + List.length v)%nat /\ cond (nth (j - k) v NaN) = true.
Proof.
  revert k; induction v as [|x v IH]; intros k; simpl.
  - split; [tauto | lia].
  - rewrite in_app_iff, IH. split.
    + intros [H | [H1 H2]].
      * destruct (cond x) eqn:E; simpl in H; [|tauto].
        destruct H as [<- | []]. rewrite Nat.sub_diag. split; [lia | exact E].
      * split; [lia|]. destruct (j - k)%nat as [|m] eqn:Em; [lia|].
        replace (j - S k)%nat with m in H2 by lia. exact H2.
    + intros [H1 H2]. destruct (Nat.eq_dec j k) as [-> | Hne].
      * left. rewrite Nat.sub_diag in H2. rewrite H2. now left.
      * right. split; [lia|]. destruct (j - k)%nat as [|m] eqn:Em; [lia|].
        replace (j - S k)%nat with m by lia. exact H2.
Qed.

Lemma in_mask_np_where (cond : npfloat -> bool) (v : vec) (j : nat) :
  in_mask (np_where cond v) j = true
  <-> (j < List.length v)%nat /\ cond (vget v j) = true.
Proof.
  unfold in_mask, np_where, mapi, vget. rewrite existsb_exists. split.
  - intros (k & Hin & Hk). apply Nat.eqb_eq in Hk. subst k.
    apply in_np_where_from in Hin. rewrite Nat.sub_0_r in Hin.
    split; [lia | tauto].
  - intros [H1 H2]. exists j. split; [|apply Nat.eqb_refl].
    apply in_np_where_from. rewrite Nat.sub_0_r. split; [lia | exact H2].
Qed.

End ArrayFacts.

(* ================================================================== *)
(** * The guarded chemical potential *)

Section ChemicalPotential.

Import ChemEq.

Lemma raising_error (args : list npfloat) (r : npfloat) (e : exn) :
  raising args r = Raise e -> e = FloatingPointError.
Proof.
  unfold raising. destruct (signals args r); [|discriminate].
  intros H; injection H as <-; reflexivity.
Qed.

Lemma mapM_error {A B} (f : A -> result B) (l : list A) (e : exn) :
  (forall x e', f x = Raise e' -> e' = FloatingPointError) ->
  mapM f l = Raise e -> e = FloatingPointError.
Proof.
  intros Hf. induction l as [|x l IH]; simpl; [discriminate|].
  destruct (f x) as [y|e'] eqn:E; cbn [bind].
  - destruct (mapM f l) as [ys|e'']; cbn [bind]; [discriminate|].
    intros H; injection H as <-. now apply IH.
  - intros H; injection H as <-. now apply (Hf x).
Qed.

(** Whatever fails in the guarded expression fails with
    [FloatingPointError]. *)
Lemma mu_raise_error (h0 s0 n : vec) (lnP_arg n_moles : npfloat) (e : exn) :
  mu_raise h0 s0 n lnP_arg n_moles = Raise e -> e = FloatingPointError.
Proof.
  unfold mu_raise, map2M.
  destruct (mapM _ (combine h0 s0)) as [d|e1] eqn:E1; cbn [bind].
  2:{ intros H; injection H as <-. revert E1. apply mapM_error.
      intros x e'. apply raising_error. }
  destruct (mapM flog_raise n) as [ln_n|e2] eqn:E2; cbn [bind].
  2:{ intros H; injection H as <-. revert E2. apply mapM_error.
      intros x e'. apply raising_error. }
  destruct (mapM _ (combine d ln_n)) as [s1|e3] eqn:E3; cbn [bind].
  2:{ intros H; injection H as <-. revert E3. apply mapM_error.
      intros x e'. apply raising_error. }
  destruct (flog_raise lnP_arg) as [ln_P|e4] eqn:E4; cbn [bind].
  2:{ intros H; injection H as <-. revert E4. apply raising_error. }
  destruct (mapM _ s1) as [s2|e5] eqn:E5; cbn [bind].
  2:{ intros H; injection H as <-. revert E5. apply mapM_error.
      intros x e'. apply raising_error. }
  destruct (flog_raise n_moles) as [ln_nm|e6] eqn:E6; cbn [bind].
  2:{ intros H; injection H as <-. revert E6. apply raising_error. }
  apply mapM_error. intros x e'. apply raising_error.
Qed.

Lemma flog_raise_nonpos (x : R) :
  x <= 0 -> flog_raise (Fin x) = Raise FloatingPointError.
Proof.
  intros H. unfold flog_raise, raising, flog. rewrite Rltb_false by lra.
  destruct (Reqb x 0); reflexivity.
Qed.

Lemma flog_raise_pos (x : R) : 0 < x -> flog_raise (Fin x) = Ok (Fin (ln x)).
Proof.
  intros H. unfold flog_raise, raising, flog. now rewrite Rltb_true by lra.
Qed.

Lemma mapM_flog_nonpos (n : vec) (x : R) :
  In (Fin x) n -> x <= 0 -> exists e, mapM flog_raise n = Raise e.
Proof.
  intros Hin Hx. induction n as [|y n IH]; [destruct Hin|].
  simpl. destruct Hin as [-> | Hin].
  - rewrite flog_raise_nonpos by exact Hx. cbn [bind]. eauto.
  - destruct (flog_raise y); cbn [bind]; [|eauto].
    destruct (IH Hin) as (e & ->). cbn [bind]. eauto.
Qed.

(** With a concentration at or below zero the guarded expression fails
    whatever stands for the pressure. *)
Lemma mu_raise_nonpos (h0 s0 n : vec) (lnP_arg n_moles : npfloat) (x : R) :
  In (Fin x) n -> x <= 0 ->
  mu_raise h0 s0 n lnP_arg n_moles = Raise FloatingPointError.
Proof.
  intros Hin Hx.
  destruct (mu_raise h0 s0 n lnP_arg n_moles) as [m|e] eqn:E.
  - exfalso. unfold mu_raise in E.
    destruct (map2M fsub_raise h0 s0) as [d|]; cbn [bind] in E; [|discriminate].
    destruct (mapM_flog_nonpos n x Hin Hx) as (e & He). rewrite He in E.
    discriminate.
  - f_equal. now apply (mu_raise_error _ _ _ _ _ _ E).
Qed.

End ChemicalPotential.

(* ================================================================== *)
(** * Errors of the residual evaluation *)

Section ResidualErrors.

Import ChemEq.

(** Thermodynamic data valid from 200 degrees up: below, [H0] and [S0]
    raise. *)
Definition thermo_from_200 : Thermo :=
  {| num_prod := 1;
     num_element := 1;
     aij := [[Fin 1]];
     thermo_b0 := [Fin 1];
     H0 := fun T => if fltb T (Fin 200) then Raise TypeError else Ok [Fin 1];
     S0 := fun T => if fltb T (Fin 200) then Raise TypeError else Ok [Fin 0];
     H0_applyJ := fun _ _ => [Fin 0];
     S0_applyJ := fun _ _ => [Fin 0] |}.

(** When [thermo.H0(T)] or [thermo.S0(T)] raises, whatever it raises, the
    residual evaluation raises [NameError]: its handler raises
    [AnalysisError], a name [chem_eq.py] never imports. *)
Theorem apply_nonlinear_thermo_failure (self : ChemEq) (inputs : Inputs)
    (outputs : Outputs) :
  let T := if mode_is_T (mode self) then i_closure inputs else o_T outputs in
  (exists e, H0 (thermo self) T = Raise e)
  \/ (exists e, S0 (thermo self) T = Raise e) ->
  apply_nonlinear self inputs outputs = Raise (NameError "AnalysisError").
Proof.
  intros T H. unfold apply_nonlinear. fold T.
  destruct H as [(e & ->) | (e & ->)]; [reflexivity|].
  destruct (H0 (thermo self) T); reflexivity.
Qed.

Lemma apply_nonlinear_thermo_failure_witness :
  apply_nonlinear (setup ModeH thermo_from_200 "chemeq") inputs1 outputs1
  = Raise (NameError "AnalysisError").
Proof.
  apply (apply_nonlinear_thermo_failure (setup ModeH thermo_from_200 "chemeq")
           inputs1 outputs1).
  left. exists TypeError. unfold outputs1, thermo_from_200. np_step.
  rewrite Rltb_true by lra. reflexivity.
Defined.

(** A concentration at or below zero makes the residual evaluation raise
    [FloatingPointError]: the handler of the guarded expression floors the
    pressure term only and evaluates [np.log(n)] again, still under
    [np.seterr(all='raise')]. *)
Theorem apply_nonlinear_nonpositive_concentration (self : ChemEq)
    (inputs : Inputs) (outputs : Outputs) (h0 s0 : vec) (x : R) :
  let T := if mode_is_T (mode self) then i_closure inputs else o_T outputs in
  H0 (thermo self) T = Ok h0 ->
  S0 (thermo self) T = Ok s0 ->
  In (Fin x) (o_n outputs) -> x <= 0 ->
  apply_nonlinear self inputs outputs = Raise FloatingPointError.
Proof.
  intros T EH ES Hin Hx. unfold apply_nonlinear. fold T. rewrite EH, ES.
  cbn [bind fst snd].
  rewrite !(mu_raise_nonpos _ _ _ _ _ x Hin Hx). reflexivity.
Qed.

(** The state of [outputs1] with its one concentration at zero. *)
Definition outputs_extinct : Outputs :=
  {| o_T := Fin 2; o_n := [Fin 0]; o_pi := [Fin 0]; o_n_moles := Fin 1 |}.

Lemma apply_nonlinear_nonpositive_concentration_witness :
  apply_nonlinear (setup ModeH thermo1 "chemeq") inputs1 outputs_extinct
  = Raise FloatingPointError.
Proof.
  apply (apply_nonlinear_nonpositive_concentration
           (setup ModeH thermo1 "chemeq") inputs1 outputs_extinct
           [Fin 1] [Fin 0] 0);
    [reflexivity | reflexivity | left; reflexivity | lra].
Defined.

End ResidualErrors.

(* ================================================================== *)
(** * The chemical potential of a finite, positive composition *)

Section FinitePotential.

Import ChemEq.

Lemma map2M_fsub_Fin (a b : list R) :
  map2M fsub_raise (map Fin a) (map Fin b) = Ok (map Fin (map2 Rminus a b)).
Proof.
  unfold map2M. revert b; induction a as [|x a IH]; intros [|y b]; simpl;
    try reflexivity.
  cbn [bind]. rewrite IH. reflexivity.
Qed.

Lemma map2M_fadd_Fin (a b : list R) :
  map2M fadd_raise (map Fin a) (map Fin b) = Ok (map Fin (map2 Rplus a b)).
Proof.
  unfold map2M. revert b; induction a as [|x a IH]; intros [|y b]; simpl;
    try reflexivity.
  cbn [bind]. rewrite IH. reflexivity.
Qed.

Lemma mapM_flog_Fin (ns : list R) :
  Forall (fun x => 0 < x) ns ->
  mapM flog_raise (map Fin ns) = Ok (map Fin (map ln ns)).
Proof.
  induction 1 as [|x ns Hx _ IH]; simpl; [reflexivity|].
  rewrite flog_raise_pos by exact Hx. cbn [bind]. rewrite IH. reflexivity.
Qed.

Lemma mapM_fadd_const (l : list R) (c : R) :
  mapM (fun x => fadd_raise x (Fin c)) (map Fin l)
  = Ok (map Fin (map (fun x => x + c) l)).
Proof.
  induction l as [|x l IH]; simpl; [reflexivity|].
  cbn [bind]. rewrite IH. reflexivity.
Qed.

Lemma mapM_fsub_const (l : list R) (c : R) :
  mapM (fun x => fsub_raise x (Fin c)) (map Fin l)
  = Ok (map Fin (map (fun x => x - c) l)).
Proof.
  induction l as [|x l IH]; simpl; [reflexivity|].
  cbn [bind]. rewrite IH. reflexivity.
Qed.

Lemma fold_Rplus_ge (l : list R) (a : R) :
  Forall (fun x => 0 < x) l -> a <= fold_left Rplus l a.
Proof.
  intros H; revert a; induction H as [|x l Hx _ IH]; intros a; simpl; [lra|].
  specialize (IH (a + x)). lra.
Qed.

Lemma Rsum_pos (l : list R) :
  l <> [] -> Forall (fun x => 0 < x) l -> 0 < Rsum l.
Proof.
  intros Hne H. destruct H as [|x l Hx Hl]; [contradiction|].
  unfold Rsum. simpl. pose proof (fold_Rplus_ge l (0 + x) Hl). lra.
Qed.

(** The chemical potential over the reals, with [q] under the pressure
    logarithm: [H0_j - S0_j + ln n_j + ln q - ln (sum n)]. *)
Definition mu_real (hs ss ns : list R) (q : R) : list R :=
  map (fun t => t - ln (Rsum ns))
      (map (fun t => t + ln q) (map2 Rplus (map2 Rminus hs ss) (map ln ns))).

Lemma mu_raise_Fin (hs ss ns : list R) (q : R) :
  ns <> [] -> Forall (fun x => 0 < x) ns ->
  mu_raise (map Fin hs) (map Fin ss) (map Fin ns) (Fin q) (np_sum (map Fin ns))
  = if Rltb 0 q then Ok (map Fin (mu_real hs ss ns q))
    else Raise FloatingPointError.
Proof.
  intros Hne Hpos. unfold mu_raise.
  rewrite map2M_fsub_Fin. cbn [bind].
  rewrite mapM_flog_Fin by exact Hpos. cbn [bind].
  rewrite map2M_fadd_Fin. cbn [bind].
  destruct (Rltb 0 q) eqn:Eq.
  - apply Rltb_iff in Eq. rewrite flog_raise_pos by exact Eq. cbn [bind].
    rewrite mapM_fadd_const. cbn [bind].
    rewrite np_sum_Fin, flog_raise_pos by (apply Rsum_pos; assumption).
    cbn [bind]. rewrite mapM_fsub_const. reflexivity.
  - rewrite flog_raise_nonpos; [reflexivity|].
    destruct (Rle_dec q 0) as [H|H]; [exact H|].
    rewrite Rltb_true in Eq by lra. discriminate.
Qed.

(** On a finite, positive composition the residual evaluation returns, and
    the chemical potential it stores is
    [H0 - S0 + ln n + ln q - ln (sum n)] with [q = P/P_REF] for a positive
    pressure; for a pressure at or below zero [q] is the floor [1e-5] and four
    lines are printed. *)
Theorem apply_nonlinear_pressure_guard (self : ChemEq) (inputs : Inputs)
    (outputs : Outputs) (hs ss ns : list R) (p : R) :
  let T := if mode_is_T (mode self) then i_closure inputs else o_T outputs in
  H0 (thermo self) T = Ok (map Fin hs) ->
  S0 (thermo self) T = Ok (map Fin ss) ->
  o_n outputs = map Fin ns -> ns <> [] -> Forall (fun x => 0 < x) ns ->
  i_P inputs = Fin p ->
  exists self' r,
    apply_nonlinear self inputs outputs = Ok (self', r) /\
    (0 < p ->
     mu self' = Some (map Fin (mu_real hs ss ns (p / 1.01325))) /\
     stdout self' = stdout self) /\
    (p <= 0 ->
     mu self' = Some (map Fin (mu_real hs ss ns 1e-5)) /\
     stdout self' =
       stdout self ++
       [Print ["ChemEQ error in: "; pathname self] [];
        Print ["n"] (map Fin ns);
        Print ["P"] [Fin (p / 1.01325)];
        Print ["n_moles"] [Fin (Rsum ns)]]).
Proof.
  intros T EH ES En Hne Hpos EP. unfold apply_nonlinear. fold T.
  rewrite EH, ES. cbn [bind fst snd]. rewrite En, EP.
  replace (fdiv (Fin p) P_REF) with (Fin (p / 1.01325))
    by (unfold P_REF; np_step; rewrite Reqb_false by lra; reflexivity).
  rewrite !mu_raise_Fin by assumption.
  rewrite (Rltb_true 0 1e-5) by lra.
  destruct (Rltb 0 (p / 1.01325)) eqn:Eq; cbn [bind fst snd].
  - apply Rltb_iff in Eq. eexists; eexists. split; [reflexivity|].
    cbn [mu stdout]. split; [intros _; split; reflexivity|].
    intros Hp. exfalso.
    assert (p / 1.01325 <= 0) by (unfold Rdiv; nra). lra.
  - eexists; eexists. split; [reflexivity|].
    cbn [mu stdout]. split; [|intros _; rewrite np_sum_Fin; split; reflexivity].
    intros Hp. exfalso.
    assert (0 < p / 1.01325) by (apply Rdiv_lt_0_compat; lra).
    rewrite Rltb_true in Eq by assumption. discriminate.
Qed.

(** The inputs of [inputs1] with the pressure below zero. *)
Definition inputs_vacuum : Inputs :=
  {| i_b0 := [Fin 1]; i_P := Fin (-1); i_closure := Fin 1 |}.

Lemma apply_nonlinear_pressure_guard_witness :
  exists self' r,
    apply_nonlinear (setup ModeH thermo1 "chemeq") inputs_vacuum outputs1
      = Ok (self', r) /\
    mu self' = Some (map Fin (mu_real [1] [0] [1] 1e-5)).
Proof.
  destruct (apply_nonlinear_pressure_guard (setup ModeH thermo1 "chemeq")
              inputs_vacuum outputs1 [1] [0] [1] (-1))
    as (self' & r & E & _ & H);
    try reflexivity.
  - discriminate.
  - repeat constructor. lra.
  - exists self', r. split; [exact E|]. apply H. lra.
Defined.

End FinitePotential.

(* ================================================================== *)
(** * Trace species in the residual *)

Section TraceResidual.

Import ChemEq.

(** The concentrations [apply_nonlinear] records in [_trace]. *)
Definition is_trace (x : npfloat) : bool :=
  fleb x (fadd MIN_VALID_CONCENTRATION (Fin 1e-20)).

(** The Gibbs residual before trace masking: the chemical potential minus
    the multiplier sums, damped when damping is on. *)
Definition resid_n_unmasked (self : ChemEq) (outputs : Outputs) (m : vec) : vec :=
  let r0 := map2 fsub m (sum_pi_aijT (thermo self) (o_pi outputs)) in
  if use_trace_damping self
  then map2 fmul r0
         (map _resid_weighting
            (map (fun x => fmul x (np_sum (o_n outputs))) (o_n outputs)))
  else r0.

(** What a successful residual evaluation leaves in [resid_n] and in the
    instance. *)
Lemma apply_nonlinear_Ok_n (self : ChemEq) (inputs : Inputs) (outputs : Outputs)
    (self' : ChemEq) (r : Resids) :
  apply_nonlinear self inputs outputs = Ok (self', r) ->
  let T := if mode_is_T (mode self) then i_closure inputs else o_T outputs in
  exists h0 s0 m,
    H0 (thermo self) T = Ok h0 /\ S0 (thermo self) T = Ok s0 /\
    (mu_raise h0 s0 (o_n outputs) (fdiv (i_P inputs) P_REF) (np_sum (o_n outputs))
       = Ok m
     \/ ((exists e, mu_raise h0 s0 (o_n outputs) (fdiv (i_P inputs) P_REF)
                       (np_sum (o_n outputs)) = Raise e) /\
         mu_raise h0 s0 (o_n outputs) (Fin 1e-5) (np_sum (o_n outputs)) = Ok m)) /\
    r_n r = (if remove_trace_species self
             then vset_where (resid_n_unmasked self outputs m)
                    (in_mask (np_where is_trace (o_n outputs)))
                    (fun _ _ => Fin 0)
             else resid_n_unmasked self outputs m) /\
    H0_T self' = Some h0 /\ S0_T self' = Some s0 /\ mu self' = Some m /\
    weights self' =
      (if use_trace_damping self
       then Some (map _resid_weighting
                    (map (fun x => fmul x (np_sum (o_n outputs))) (o_n outputs)))
       else weights self) /\
    sum_n_H0_T self' =
      match mode self with
      | ModeH => Some (np_sum (map2 fmul (o_n outputs) h0))
      | _ => sum_n_H0_T self
      end.
Proof.
  intros H T. unfold apply_nonlinear in H. fold T in H.
  destruct (H0 (thermo self) T) as [h0|e0]; [|discriminate H].
  destruct (S0 (thermo self) T) as [s0|e1]; [|discriminate H].
  cbn [bind fst snd] in H.
  destruct (mu_raise h0 s0 (o_n outputs) (fdiv (i_P inputs) P_REF)
              (np_sum (o_n outputs))) as [m|e2] eqn:Em.
  - cbn [bind fst snd] in H. injection H as <- <-.
    exists h0, s0, m.
    cbn [r_n H0_T S0_T mu weights sum_n_H0_T]. unfold resid_n_unmasked.
    destruct (use_trace_damping self);
      (split; [reflexivity|]; split; [reflexivity|]; split; [left; exact Em|];
       repeat split; reflexivity).
  - destruct (mu_raise h0 s0 (o_n outputs) (Fin 1e-5) (np_sum (o_n outputs)))
      as [m|e3] eqn:Em'; [|discriminate H].
    cbn [bind fst snd] in H. injection H as <- <-.
    exists h0, s0, m.
    cbn [r_n H0_T S0_T mu weights sum_n_H0_T]. unfold resid_n_unmasked.
    destruct (use_trace_damping self);
      (split; [reflexivity|]; split; [reflexivity|];
       split; [right; split; [exists e2; exact Em | exact Em']|];
       repeat split; reflexivity).
Qed.

(** When trace removal is on at entry, the residual of every species whose
    concentration is at most [MIN_VALID_CONCENTRATION + 1e-20] is set to
    zero, whatever its chemical potential is. *)
Theorem resid_n_trace_masked (self : ChemEq) (inputs : Inputs)
    (outputs : Outputs) (self' : ChemEq) (r : Resids) (j : nat) (x : R) :
  apply_nonlinear self inputs outputs = Ok (self', r) ->
  remove_trace_species self = true ->
  (j < List.length (r_n r))%nat ->
  vget (o_n outputs) j = Fin x -> x <= 1e-10 + 1e-20 ->
  vget (r_n r) j = Fin 0.
Proof.
  intros E Hflag Hj Hn Hx.
  destruct (apply_nonlinear_Ok_n _ _ _ _ _ E)
    as (h0 & s0 & m & _ & _ & _ & Er & _).
  rewrite Hflag in Er. rewrite Er in Hj |- *.
  rewrite length_vset_where in Hj. rewrite vget_vset_where by exact Hj.
  assert (Hm : in_mask (np_where is_trace (o_n outputs)) j = true).
  { apply in_mask_np_where. split.
    - destruct (Nat.lt_ge_cases j (List.length (o_n outputs))) as [H|H];
        [exact H|].
      unfold vget in Hn. rewrite nth_overflow in Hn by exact H. discriminate.
    - rewrite Hn. unfold is_trace, MIN_VALID_CONCENTRATION.
      cbn [fadd]. apply fleb_Fin. exact Hx. }
  now rewrite Hm.
Qed.

(** An instance on which an earlier residual evaluation switched trace
    removal on. *)
Definition chemeq_tracing : ChemEq :=
  {| mode := ModeH; thermo := thermo1; pathname := "chemeq";
     remove_trace_species := true; use_trace_damping := true;
     n_init := [Fin 0.1]; size := 3; _dRdy := np_zeros 3 3;
     H0_T := Some [Fin 1]; S0_T := Some [Fin 0]; dH0_dT := None;
     dS0_dT := None; sum_n_H0_T := Some (Fin 1); mu := Some [Fin 1];
     weights := Some [Fin 1]; _trace := Some []; stdout := [] |}.

(** The state of [outputs1] with its one species at the floor. *)
Definition outputs_floor : Outputs :=
  {| o_T := Fin 2; o_n := [Fin 1e-10]; o_pi := [Fin 0]; o_n_moles := Fin 1 |}.

Lemma floor_returns :
  exists self' r,
    apply_nonlinear chemeq_tracing inputs1 outputs_floor = Ok (self', r).
Proof.
  apply (apply_nonlinear_returns chemeq_tracing inputs1 outputs_floor
           [Fin 1] [Fin 0]
           (map Fin (mu_real [1] [0] [1e-10] (1.01325 / 1.01325))));
    try reflexivity.
  change (o_n outputs_floor) with (map Fin [1e-10]).
  replace (fdiv (i_P inputs1) P_REF) with (Fin (1.01325 / 1.01325))
    by (unfold inputs1, P_REF; np_step; rewrite Reqb_false by lra; reflexivity).
  rewrite (mu_raise_Fin [1] [0] [1e-10]).
  - rewrite Rltb_true by lra. reflexivity.
  - discriminate.
  - repeat constructor. lra.
Qed.

Lemma floor_potential (self : ChemEq) (m : vec) :
  mu_raise [Fin 1] [Fin 0] (o_n outputs_floor) (fdiv (i_P inputs1) P_REF)
     (np_sum (o_n outputs_floor)) = Ok m
  \/ mu_raise [Fin 1] [Fin 0] (o_n outputs_floor) (Fin 1e-5)
       (np_sum (o_n outputs_floor)) = Ok m ->
  List.length m = 1%nat.
Proof.
  change (o_n outputs_floor) with (map Fin [1e-10]).
  replace (fdiv (i_P inputs1) P_REF) with (Fin (1.01325 / 1.01325))
    by (unfold inputs1, P_REF; np_step; rewrite Reqb_false by lra; reflexivity).
  change [Fin 1] with (map Fin [1]). change [Fin 0] with (map Fin [0]).
  rewrite !(mu_raise_Fin [1] [0] [1e-10])
    by (try discriminate; repeat constructor; lra).
  rewrite !Rltb_true by lra.
  intros [H | H]; injection H as <-; reflexivity.
Qed.

Lemma resid_n_trace_masked_witness :
  exists self' r,
    apply_nonlinear chemeq_tracing inputs1 outputs_floor = Ok (self', r) /\
    vget (r_n r) 0 = Fin 0.
Proof.
  destruct floor_returns as (self' & r & E).
  exists self', r. split; [exact E|].
  apply (resid_n_trace_masked chemeq_tracing inputs1 outputs_floor self' r 0
           1e-10 E); try reflexivity; try lra.
  destruct (apply_nonlinear_Ok_n _ _ _ _ _ E)
    as (h0 & s0 & m & EH & ES & Em & Er & _).
  cbn in EH, ES. injection EH as <-. injection ES as <-.
  assert (Em' : List.length m = 1%nat).
  { apply (floor_potential chemeq_tracing). destruct Em as [Em | [_ Em]]; auto. }
  clear Em. rename Em' into Em.
  rewrite Er. cbn [remove_trace_species chemeq_tracing].
  rewrite length_vset_where. unfold resid_n_unmasked.
  destruct m as [|m0 [|m1 m]]; try discriminate Em.
  unfold chemeq_tracing, outputs_floor, thermo1. np_step.
  cbn [List.length]. lia.
Defined.

End TraceResidual.

(* ================================================================== *)
(** * The Newton Jacobian *)

Section NewtonJacobian.

Import ChemEq.

Lemma has_shape_scale (r c : nat) (damp : bool) (M : matrix) sel f :
  has_shape r c M ->
  has_shape r c (if damp then mset_where M sel f else M).
Proof. intros H. destruct damp; [now apply has_shape_mset_where | exact H]. Qed.

Lemma mget_scale_outside (r c : nat) (damp : bool) (M : matrix) sel f (i j : nat) :
  has_shape r c M -> (i < r)%nat -> (j < c)%nat -> sel i j = false ->
  mget (if damp then mset_where M sel f else M) i j = mget M i j.
Proof.
  intros H Hi Hj Hs. destruct damp; [|reflexivity].
  rewrite (mget_mset_where_shape r c) by assumption. now rewrite Hs.
Qed.

Lemma has_shape_trace_row (r c : nat) (n : vec) (M : matrix) (j : nat) :
  has_shape r c M -> has_shape r c (trace_row n M j).
Proof.
  intros H. unfold trace_row. destruct (fleb _ _); [|exact H].
  now repeat apply has_shape_mset_where.
Qed.

Lemma has_shape_trace_rows (r c : nat) (n : vec) (l : list nat) (M : matrix) :
  has_shape r c M -> has_shape r c (fold_left (trace_row n) l M).
Proof.
  revert M; induction l as [|j l IH]; intros M H; simpl; [exact H|].
  apply IH. now apply has_shape_trace_row.
Qed.

Lemma mget_trace_row (r c : nat) (n : vec) (M : matrix) (a i k : nat) :
  has_shape r c M -> (i < r)%nat -> (k < c)%nat ->
  mget (trace_row n M a) i k
  = if Nat.eqb i a && fleb (vget n a) (Fin 1.0e-10)
    then (if Nat.eqb k a then Fin (-1) else Fin 0)
    else mget M i k.
Proof.
  intros H Hi Hk. unfold trace_row.
  destruct (fleb (vget n a) (Fin 1.0e-10)); [|now rewrite andb_false_r].
  rewrite andb_true_r.
  rewrite (mget_mset_where_shape r c)
    by (try apply has_shape_mset_where; assumption).
  rewrite (mget_mset_where_shape r c) by assumption.
  destruct (Nat.eqb i a); destruct (Nat.eqb k a); reflexivity.
Qed.

(** The trace loop: every row it visits whose concentration is at most
    [1.0e-10] becomes zero with [-1] on the diagonal; nothing else changes. *)
Lemma mget_trace_rows (r c : nat) (n : vec) (len a : nat) (M : matrix)
    (i k : nat) :
  has_shape r c M -> (i < r)%nat -> (k < c)%nat ->
  mget (fold_left (trace_row n) (seq a len) M) i k
  = if (a <=? i)%nat && (i <? a + len)%nat && fleb (vget n i) (Fin 1.0e-10)
    then (if Nat.eqb k i then Fin (-1) else Fin 0)
    else mget M i k.
Proof.
  revert a M; induction len as [|len IH]; intros a M H Hi Hk.
  - cbn [seq fold_left].
    destruct (Nat.leb_spec a i), (Nat.ltb_spec i (a + 0)); try lia; reflexivity.
  - cbn [seq fold_left]. rewrite IH by (try apply has_shape_trace_row; assumption).
    rewrite (mget_trace_row r c) by assumption.
    destruct (Nat.eqb_spec i a) as [-> | Hne].
    + replace (S a <=? a)%nat with false by (symmetry; apply Nat.leb_gt; lia).
      rewrite Nat.leb_refl.
      replace (a <? a + S len)%nat with true by (symmetry; apply Nat.ltb_lt; lia).
      reflexivity.
    + cbn [andb].
      replace (a <=? i)%nat with ((S a <=? i)%nat).
      2:{ destruct (Nat.leb_spec (S a) i), (Nat.leb_spec a i); try reflexivity; lia. }
      replace (i <? a + S len)%nat with (i <? S a + len)%nat
        by (f_equal; lia).
      reflexivity.
Qed.

End NewtonJacobian.

Section JacobianAssembly.

Import ChemEq.

(** A successful [_calc_dRdy], taken apart: the matrix before the trace
    loop has the shape of the old one and carries [aij] in its mass block;
    the attributes other than [_dRdy], [dH0_dT] and [dS0_dT] are kept. *)
Lemma calc_dRdy_Ok (self : ChemEq) (inputs : Inputs) (outputs : Outputs)
    (self1 : ChemEq) :
  _calc_dRdy self inputs outputs = Ok self1 ->
  let P := num_prod (thermo self) in
  let E := num_element (thermo self) in
  exists d8,
    _dRdy self1 =
      (if remove_trace_species self
       then fold_left (trace_row (o_n outputs)) (seq 0 P) d8
       else d8) /\
    (forall r c, has_shape r c (_dRdy self) -> has_shape r c d8) /\
    (forall r c i j, has_shape r c (_dRdy self) -> (i < r)%nat -> (j < c)%nat ->
       in_block P (P + E) 0 P i j = true ->
       mget d8 i j = mget (aij (thermo self)) (i - P) j) /\
    remove_trace_species self1 = remove_trace_species self /\
    _trace self1 = _trace self /\
    weights self1 = weights self /\
    use_trace_damping self1 = use_trace_damping self /\
    mode self1 = mode self /\
    thermo self1 = thermo self /\
    size self1 = size self /\
    S0_T self1 = S0_T self /\
    sum_n_H0_T self1 = sum_n_H0_T self.
Proof.
  intros H P E. unfold _calc_dRdy in H. fold P E in H.
  assert (Hw : exists w, (if use_trace_damping self
                          then getattr "weights" (weights self) else Ok []) = Ok w).
  { destruct (if use_trace_damping self then _ else _) as [w|e];
      [eauto | discriminate H]. }
  destruct Hw as (w & Hw). rewrite Hw in H. cbn [bind] in H.
  destruct (mode self) eqn:Em; cbn [mode_is_T] in H.
  - (* mode T *)
    cbn [bind] in H. injection H as <-.
    cbn [_dRdy remove_trace_species _trace weights use_trace_damping mode thermo
         size S0_T sum_n_H0_T].
    eexists. split; [reflexivity|]. split; [|split].
    + intros r c Hs.
      repeat first [ apply has_shape_mset_where | apply has_shape_scale ].
      exact Hs.
    + intros r c i j Hs Hi Hj Hb.
      rewrite (mget_mset_where_shape r c); [now rewrite Hb| |exact Hi|exact Hj].
      repeat first [ apply has_shape_mset_where | apply has_shape_scale ].
      exact Hs.
    + repeat split; reflexivity.
  - (* mode S *)
    destruct (S0_T self) as [s0|] eqn:ES; [|discriminate H].
    cbn [not_None bind] in H. injection H as <-.
    cbn [_dRdy remove_trace_species _trace weights use_trace_damping mode thermo
         size S0_T sum_n_H0_T].
    eexists. split; [reflexivity|]. split; [|split].
    + intros r c Hs.
      repeat first [ apply has_shape_mset_where | apply has_shape_scale ].
      exact Hs.
    + intros r c i j Hs Hi Hj Hb.
      rewrite (mget_mset_where_shape r c); [now rewrite Hb| |exact Hi|exact Hj].
      repeat first [ apply has_shape_mset_where | apply has_shape_scale ].
      exact Hs.
    + repeat split; reflexivity.
  - (* mode h *)
    destruct (H0_T self) as [h0|] eqn:EH; [|discriminate H].
    destruct (sum_n_H0_T self) as [s|] eqn:Es; [|discriminate H].
    cbn [not_None bind] in H. injection H as <-.
    cbn [_dRdy remove_trace_species _trace weights use_trace_damping mode thermo
         size S0_T sum_n_H0_T].
    eexists. split; [reflexivity|]. split; [|split].
    + intros r c Hs.
      repeat first [ apply has_shape_mset_where | apply has_shape_scale ].
      exact Hs.
    + intros r c i j Hs Hi Hj Hb.
      rewrite (mget_mset_where_shape r c); [now rewrite Hb| |exact Hi|exact Hj].
      repeat first [ apply has_shape_mset_where | apply has_shape_scale ].
      exact Hs.
    + repeat split; reflexivity.
Qed.

End JacobianAssembly.

Ltac bind_inv H :=
  match type of H with
  | bind ?x _ = Ok _ =>
      let E := fresh "E" in
      destruct x eqn:E; cbn [bind] in H; [|discriminate H]
  end.

Section JacobianBlocks.

Import ChemEq.

(** A successful [linearize], taken apart. *)
Lemma linearize_Ok (self0 : ChemEq) (inputs : Inputs) (outputs : Outputs)
    (self' : ChemEq) (J : Jac) :
  linearize self0 inputs outputs = Ok (self', J) ->
  let P := num_prod (thermo self0) in
  let E := num_element (thermo self0) in
  exists self1,
    _calc_dRdy self0 inputs outputs = Ok self1 /\
    J_pi_n J = mblock (_dRdy self1) P (P + E) 0 P /\
    J_n_n J = mblock (_dRdy self') 0 P 0 P /\
    J_n_pi J = mblock (_dRdy self') 0 P P (P + E) /\
    (remove_trace_species self0 = false -> _dRdy self' = _dRdy self1) /\
    (remove_trace_species self0 = true ->
     exists mask,
       _trace self0 = Some mask /\
       _dRdy self' =
         mask_dRdy P (P + E) (size self0 - 1) (negb (mode_is_T (mode self0)))
           mask (_dRdy self1)).
Proof.
  intros H P E. unfold linearize in H.
  destruct (_calc_dRdy self0 inputs outputs) as [self1|e] eqn:E1;
    cbn [bind] in H; [|discriminate H].
  destruct (calc_dRdy_Ok _ _ _ _ E1)
    as (d8 & _ & _ & _ & Ef & Et & _ & _ & Em & Eth & Esz & _).
  rewrite Eth, Esz, Em, Ef, Et in H. fold P E in H.
  exists self1. split; [reflexivity|].
  do 3 bind_inv H.
  destruct (remove_trace_species self0) eqn:Er.
  - destruct (_trace self0) as [mask|] eqn:Etr; [|discriminate H].
    cbn [getattr bind fst snd] in H. injection H as <- <-.
    cbn [J_pi_n J_n_n J_n_pi _dRdy].
    repeat split; try reflexivity; [discriminate|].
    intros _. exists mask. split; reflexivity.
  - cbn [bind fst snd] in H. injection H as <- <-.
    cbn [J_pi_n J_n_n J_n_pi _dRdy].
    repeat split; try reflexivity. discriminate.
Qed.

(** X: [linearize] on an instance fresh from [setup] raises
    [AttributeError]: damping is on from [setup], and [weights] is assigned
    only by [apply_nonlinear]. *)
Theorem linearize_before_apply_nonlinear (m : Mode) (th : Thermo)
    (path : string) (inputs : Inputs) (outputs : Outputs) :
  linearize (setup m th path) inputs outputs = Raise (AttributeError "weights").
Proof. reflexivity. Qed.

End JacobianBlocks.

Section JacobianMasking.

Import ChemEq.

(** The Jacobian storage is as [setup] allocates it: square, of the number
    of state variables. *)
Definition allocated (self : ChemEq) : Prop :=
  has_shape (size self) (size self) (_dRdy self) /\
  size self = (num_prod (thermo self) + num_element (thermo self)
               + (if mode_is_T (mode self) then 0 else 1))%nat.

Lemma setup_allocated (m : Mode) (th : Thermo) (path : string) :
  allocated (setup m th path).
Proof. split; [apply has_shape_zeros | reflexivity]. Qed.

Lemma has_shape_mask_dRdy (r c P e last : nat) (T_state : bool)
    (mask : list nat) (M : matrix) :
  has_shape r c M -> has_shape r c (mask_dRdy P e last T_state mask M).
Proof.
  intros H. unfold mask_dRdy.
  apply has_shape_mset_where. destruct T_state;
    repeat apply has_shape_mset_where; exact H.
Qed.

Lemma in_block_inside (P i k : nat) :
  (i < P)%nat -> (k < P)%nat -> in_block 0 P 0 P i k = true.
Proof.
  intros Hi Hk. unfold in_block, in_range. cbn [Nat.leb andb].
  now rewrite (proj2 (Nat.ltb_lt i P) Hi), (proj2 (Nat.ltb_lt k P) Hk).
Qed.

(** The masking of [linearize], read on the n-n block. *)
Lemma mget_mask_dRdy (sz P e last : nat) (T_state : bool) (mask : list nat)
    (M : matrix) (i k : nat) :
  has_shape sz sz M -> (P <= sz)%nat -> (T_state = true -> (P <= last)%nat) ->
  (i < P)%nat -> (k < P)%nat ->
  mget (mask_dRdy P e last T_state mask M) i k
  = if in_mask mask i && Nat.eqb i k then Fin 1
    else if in_mask mask i || in_mask mask k then Fin 0
    else mget M i k.
Proof.
  intros Hs HP HT Hi Hk. unfold mask_dRdy.
  assert (Hb : in_block 0 P 0 P i k = true) by now apply in_block_inside.
  assert (Hpi : in_block 0 P P e i k = false).
  { unfold in_block, in_range.
    replace (P <=? k)%nat with false by (symmetry; apply Nat.leb_gt; lia).
    now rewrite andb_false_r. }
  rewrite (mget_mset_where_shape sz sz);
    [ | destruct T_state; repeat apply has_shape_mset_where; exact Hs | lia | lia ].
  rewrite Hpi. cbn [andb].
  assert (Hlast : forall N : matrix,
             has_shape sz sz N ->
             mget (if T_state
                   then mset_where N
                          (fun i j => in_range 0 P i && Nat.eqb j last
                                      && in_mask mask i)
                          (fun _ _ _ => Fin 0)
                   else N) i k = mget N i k).
  { intros N HN. destruct T_state; [|reflexivity].
    rewrite (mget_mset_where_shape sz sz) by (try exact HN; lia).
    replace (Nat.eqb k last) with false
      by (symmetry; apply Nat.eqb_neq; specialize (HT eq_refl); lia).
    now rewrite andb_false_r. }
  rewrite Hlast by (repeat apply has_shape_mset_where; exact Hs).
  rewrite (mget_mset_where_shape sz sz)
    by (try (repeat apply has_shape_mset_where; exact Hs); lia).
  rewrite (mget_mset_where_shape sz sz)
    by (try (repeat apply has_shape_mset_where; exact Hs); lia).
  rewrite (mget_mset_where_shape sz sz) by (try exact Hs; lia).
  rewrite Hb. cbn [andb].
  destruct (in_mask mask i), (in_mask mask k), (Nat.eqb i k); reflexivity.
Qed.

End JacobianMasking.

Section JacobianTheorems.

Import ChemEq.

Lemma apply_nonlinear_allocated (self : ChemEq) (inputs : Inputs)
    (outputs : Outputs) (self' : ChemEq) (r : Resids) :
  apply_nonlinear self inputs outputs = Ok (self', r) ->
  allocated self -> allocated self'.
Proof.
  intros E [Hs Hz].
  destruct (apply_nonlinear_Ok _ _ _ _ _ E)
    as (h0 & s0 & _ & _ & _ & _ & _ & _ & _ & Eth & Em & Esz & Ed & _).
  unfold allocated. rewrite Eth, Em, Esz, Ed. split; assumption.
Qed.

Lemma calc_dRdy_allocated (self : ChemEq) (inputs : Inputs)
    (outputs : Outputs) (self1 : ChemEq) :
  _calc_dRdy self inputs outputs = Ok self1 ->
  allocated self -> allocated self1.
Proof.
  intros E [Hs Hz].
  destruct (calc_dRdy_Ok _ _ _ _ E)
    as (d8 & Ed & Hshape & _ & _ & _ & _ & _ & Em & Eth & Esz & _).
  unfold allocated. rewrite Eth, Em, Esz, Ed. split; [|exact Hz].
  destruct (remove_trace_species self);
    [apply has_shape_trace_rows|]; now apply Hshape.
Qed.

(** The storage stays as allocated through every [linearize]. *)
Lemma linearize_allocated (self : ChemEq) (inputs : Inputs)
    (outputs : Outputs) (self' : ChemEq) (J : Jac) :
  linearize self inputs outputs = Ok (self', J) ->
  allocated self -> allocated self'.
Proof.
  intros E Ha.
  destruct (linearize_Ok _ _ _ _ _ E) as (self1 & E1 & _ & _ & _ & Hf & Ht).
  destruct (calc_dRdy_allocated _ _ _ _ E1 Ha) as [Hs Hz].
  destruct (calc_dRdy_Ok _ _ _ _ E1)
    as (d8 & _ & _ & _ & _ & _ & _ & _ & Em & Eth & Esz & _).
  assert (Eq : mode self' = mode self /\ thermo self' = thermo self
               /\ size self' = size self).
  { unfold linearize in E. rewrite E1 in E. cbn [bind] in E.
    do 3 bind_inv E. bind_inv E. injection E as <- _.
    cbn [mode thermo size]. auto. }
  destruct Eq as (Em' & Eth' & Esz').
  unfold allocated. rewrite Em', Eth', Esz'. rewrite Esz in Hs.
  split; [|rewrite <- Esz, Hz, Em, Eth; reflexivity].
  destruct (remove_trace_species self) eqn:Er.
  - destruct (Ht eq_refl) as (mask & _ & ->). now apply has_shape_mask_dRdy.
  - now rewrite (Hf eq_refl).
Qed.

(** X: with trace removal on, [_calc_dRdy] leaves, in the row of every
    species whose concentration is at most [1.0e-10], zero in every column
    (those of [n], of [pi] and of [T]) and [-1] on the diagonal. *)
Theorem calc_dRdy_trace_rows (self : ChemEq) (inputs : Inputs)
    (outputs : Outputs) (self1 : ChemEq) (j k : nat) (x : R) :
  allocated self ->
  _calc_dRdy self inputs outputs = Ok self1 ->
  remove_trace_species self = true ->
  (j < num_prod (thermo self))%nat -> (k < size self)%nat ->
  vget (o_n outputs) j = Fin x -> x <= 1.0e-10 ->
  mget (_dRdy self1) j k = if Nat.eqb k j then Fin (-1) else Fin 0.
Proof.
  intros [Hs Hz] E Hr Hj Hk Hn Hx.
  destruct (calc_dRdy_Ok _ _ _ _ E) as (d8 & Ed & Hshape & _).
  rewrite Ed, Hr.
  rewrite (mget_trace_rows (size self) (size self))
    by (try (apply Hshape; exact Hs); lia).
  cbn [Nat.leb andb Nat.add].
  rewrite (proj2 (Nat.ltb_lt _ _) Hj), Hn.
  now rewrite (proj2 (fleb_Fin x 1.0e-10) Hx).
Qed.

(** X: the block [J['pi', 'n']] that [linearize] stores is the
    stoichiometry matrix [aij], whatever damping and trace removal do. *)
Theorem linearize_mass_block (self : ChemEq) (inputs : Inputs)
    (outputs : Outputs) (self' : ChemEq) (J : Jac) (e j : nat) :
  allocated self ->
  linearize self inputs outputs = Ok (self', J) ->
  (e < num_element (thermo self))%nat -> (j < num_prod (thermo self))%nat ->
  mget (J_pi_n J) e j = mget (aij (thermo self)) e j.
Proof.
  intros [Hs Hz] E He Hj.
  destruct (linearize_Ok _ _ _ _ _ E) as (self1 & E1 & Epn & _).
  destruct (calc_dRdy_Ok _ _ _ _ E1) as (d8 & Ed & Hshape & Hmass & _).
  set (P := num_prod (thermo self)) in *.
  set (El := num_element (thermo self)) in *.
  assert (Hsz : (P + El <= size self)%nat) by (rewrite Hz; lia).
  assert (Hs1 : has_shape (size self) (size self) (_dRdy self1)).
  { rewrite Ed. destruct (remove_trace_species self);
      [apply has_shape_trace_rows|]; now apply Hshape. }
  rewrite Epn.
  rewrite (mget_mblock (size self) (size self)) by (try exact Hs1; lia).
  rewrite Ed. cbn [Nat.add].
  assert (Hd8 : mget d8 (P + e) j = mget (aij (thermo self)) e j).
  { rewrite (Hmass (size self) (size self)) by
      (try exact Hs; try lia; unfold in_block, in_range;
       rewrite (proj2 (Nat.leb_le P (P + e))) by lia;
       rewrite (proj2 (Nat.ltb_lt (P + e) (P + El))) by lia;
       rewrite (proj2 (Nat.ltb_lt j P)) by lia; reflexivity).
    f_equal. lia. }
  destruct (remove_trace_species self); [|exact Hd8].
  rewrite (mget_trace_rows (size self) (size self))
    by (try (apply Hshape; exact Hs); lia).
  replace (P + e <? 0 + P)%nat with false
    by (symmetry; apply Nat.ltb_ge; lia).
  rewrite andb_false_r. exact Hd8.
Qed.

End JacobianTheorems.

Section JacobianReturns.

Import ChemEq.

(** The attributes [_calc_dRdy] and [linearize] read have been assigned:
    an [apply_nonlinear] has run. *)
Definition evaluated (self : ChemEq) : Prop :=
  (use_trace_damping self = true -> weights self <> None) /\
  (mode self = ModeH -> H0_T self <> None /\ sum_n_H0_T self <> None) /\
  (mode self = ModeS -> S0_T self <> None).

Lemma calc_dRdy_returns (self : ChemEq) (inputs : Inputs) (outputs : Outputs) :
  evaluated self -> exists self1, _calc_dRdy self inputs outputs = Ok self1.
Proof.
  intros (Hw & Hh & Hs). unfold _calc_dRdy.
  destruct (use_trace_damping self).
  - destruct (weights self) as [w|]; [|now destruct (Hw eq_refl)].
    cbn [getattr bind].
    destruct (mode self); cbn [mode_is_T].
    + cbn [bind]. eauto.
    + destruct (S0_T self); [|now destruct (Hs eq_refl)].
      cbn [not_None bind]. eauto.
    + destruct (Hh eq_refl) as [H1 H2].
      destruct (H0_T self); [|contradiction].
      destruct (sum_n_H0_T self); [|contradiction].
      cbn [not_None bind]. eauto.
  - cbn [bind].
    destruct (mode self); cbn [mode_is_T].
    + cbn [bind]. eauto.
    + destruct (S0_T self); [|now destruct (Hs eq_refl)].
      cbn [not_None bind]. eauto.
    + destruct (Hh eq_refl) as [H1 H2].
      destruct (H0_T self); [|contradiction].
      destruct (sum_n_H0_T self); [|contradiction].
      cbn [not_None bind]. eauto.
Qed.

(** Up to the masking block, [linearize] succeeds on an evaluated instance;
    the masking block needs [_trace]. *)
Lemma linearize_outcome (self : ChemEq) (inputs : Inputs) (outputs : Outputs) :
  evaluated self ->
  if remove_trace_species self
  then match _trace self with
       | Some _ => exists self' J, linearize self inputs outputs = Ok (self', J)
       | None => linearize self inputs outputs = Raise (AttributeError "_trace")
       end
  else exists self' J, linearize self inputs outputs = Ok (self', J).
Proof.
  intros Hev. destruct (calc_dRdy_returns self inputs outputs Hev) as (self1 & E1).
  destruct (calc_dRdy_Ok _ _ _ _ E1)
    as (d8 & _ & _ & _ & Ef & Et & Ew & Ed & Em & Eth & Esz & ES & Esum).
  destruct Hev as (Hw & Hh & Hs).
  unfold linearize. rewrite E1. cbn [bind].
  rewrite Ef, Et, Ew, Ed, Em, Eth, Esz, ES, Esum.
  destruct (use_trace_damping self).
  - destruct (weights self) as [w|]; [|now destruct (Hw eq_refl)].
    cbn [getattr bind].
    destruct (mode self); cbn [mode_is_T negb getattr bind].
    + destruct (remove_trace_species self); [destruct (_trace self)|];
        cbn [getattr bind]; eauto.
    + destruct (S0_T self); [|now destruct (Hs eq_refl)].
      cbn [not_None bind].
      destruct (remove_trace_species self); [destruct (_trace self)|];
        cbn [getattr bind]; eauto.
    + destruct (Hh eq_refl) as [H1 H2].
      destruct (sum_n_H0_T self); [|contradiction].
      cbn [not_None bind].
      destruct (remove_trace_species self); [destruct (_trace self)|];
        cbn [getattr bind]; eauto.
  - cbn [bind].
    destruct (mode self); cbn [mode_is_T negb getattr bind].
    + destruct (remove_trace_species self); [destruct (_trace self)|];
        cbn [getattr bind]; eauto.
    + destruct (S0_T self); [|now destruct (Hs eq_refl)].
      cbn [not_None bind].
      destruct (remove_trace_species self); [destruct (_trace self)|];
        cbn [getattr bind]; eauto.
    + destruct (Hh eq_refl) as [H1 H2].
      destruct (sum_n_H0_T self); [|contradiction].
      cbn [not_None bind].
      destruct (remove_trace_species self); [destruct (_trace self)|];
        cbn [getattr bind]; eauto.
Qed.

(** A successful residual evaluation assigns what the Jacobian reads. *)
Lemma apply_nonlinear_evaluated (self : ChemEq) (inputs : Inputs)
    (outputs : Outputs) (self' : ChemEq) (r : Resids) :
  apply_nonlinear self inputs outputs = Ok (self', r) ->
  evaluated self'.
Proof.
  intros E.
  destruct (apply_nonlinear_Ok _ _ _ _ _ E)
    as (h0' & s0' & _ & _ & _ & _ & _ & _ & _ & _ & Em & _ & _ & Ed).
  destruct (apply_nonlinear_Ok_n _ _ _ _ _ E)
    as (h0 & s0 & m & _ & _ & _ & _ & EH & ES & _ & Ew & Esum).
  unfold evaluated. rewrite Em, Ed, EH, ES, Ew, Esum.
  split; [|split].
  - intros ->. discriminate.
  - intros ->. split; discriminate.
  - intros _. discriminate.
Qed.

End JacobianReturns.

Section TraceJacobian.

Import ChemEq.

(** X: after a residual evaluation that ran with trace removal on and left
    it on, [linearize] at the same state stores an n-n block in which, for
    every species at or below [1.0e-10], the row and the column are zero and
    the diagonal entry is 1. *)
Theorem linearize_trace_identity (self : ChemEq) (inputs : Inputs)
    (outputs : Outputs) (self1 : ChemEq) (r : Resids) (self' : ChemEq)
    (J : Jac) (j k : nat) (x : R) :
  allocated self ->
  remove_trace_species self = true ->
  apply_nonlinear self inputs outputs = Ok (self1, r) ->
  remove_trace_species self1 = true ->
  linearize self1 inputs outputs = Ok (self', J) ->
  (j < num_prod (thermo self))%nat -> (k < num_prod (thermo self))%nat ->
  vget (o_n outputs) j = Fin x -> x <= 1.0e-10 ->
  mget (J_n_n J) j k = (if Nat.eqb j k then Fin 1 else Fin 0) /\
  mget (J_n_n J) k j = (if Nat.eqb j k then Fin 1 else Fin 0).
Proof.
  intros Ha Hr E Hr1 EL Hj Hk Hn Hx.
  pose proof (apply_nonlinear_allocated _ _ _ _ _ E Ha) as Ha1.
  destruct (apply_nonlinear_Ok _ _ _ _ _ E)
    as (h0 & s0 & _ & _ & _ & _ & _ & _ & Etr & Eth & Em & Esz & _).
  rewrite Hr in Etr.
  destruct (linearize_Ok _ _ _ _ _ EL) as (self2 & E2 & _ & Enn & _ & _ & Hm).
  destruct (Hm Hr1) as (mask & Emask & Ed). rewrite Etr in Emask.
  injection Emask as Emask.
  destruct (calc_dRdy_allocated _ _ _ _ E2 Ha1) as [Hs2 Hz2].
  destruct (calc_dRdy_Ok _ _ _ _ E2)
    as (d8 & _ & _ & _ & _ & _ & _ & _ & Em2 & Eth2 & Esz2 & _).
  rewrite Eth in *. rewrite Esz2 in Hs2. rewrite Esz2, Em2, Eth2 in Hz2.
  set (P := num_prod (thermo self)) in *.
  set (sz := size self1) in *.
  assert (HP : (P <= sz)%nat) by lia.
  assert (Hs' : has_shape sz sz (_dRdy self')).
  { rewrite Ed. now apply has_shape_mask_dRdy. }
  assert (Hin : in_mask mask j = true).
  { rewrite <- Emask. apply in_mask_np_where. split.
    - destruct (Nat.lt_ge_cases j (List.length (o_n outputs))) as [H|H];
        [exact H|].
      unfold vget in Hn. rewrite nth_overflow in Hn by exact H. discriminate.
    - rewrite Hn. unfold MIN_VALID_CONCENTRATION. cbn [fadd].
      apply fleb_Fin. lra. }
  assert (HT : negb (mode_is_T (mode self1)) = true -> (P <= sz - 1)%nat).
  { destruct (mode_is_T (mode self1)); [discriminate | lia]. }
  rewrite Enn.
  rewrite !(mget_mblock sz sz) by (try exact Hs'; lia).
  cbn [Nat.add]. rewrite Ed.
  rewrite !(mget_mask_dRdy sz) by assumption.
  rewrite Hin. cbn [andb orb].
  rewrite (Nat.eqb_sym k j).
  destruct (Nat.eqb j k) eqn:Ejk.
  - split; [reflexivity|]. apply Nat.eqb_eq in Ejk. subst k.
    rewrite Hin. reflexivity.
  - split; [reflexivity|]. rewrite andb_false_r, orb_true_r. reflexivity.
Qed.

(** X: a species at or below [1.0e-10] that the recorded mask does not
    hold, because the mask is that of an earlier state, keeps the [-1] of
    [_calc_dRdy] on the diagonal of the stored n-n block. *)
Theorem linearize_stale_mask (self : ChemEq) (inputs : Inputs)
    (outputs : Outputs) (self' : ChemEq) (J : Jac) (mask : list nat)
    (j : nat) (x : R) :
  allocated self ->
  linearize self inputs outputs = Ok (self', J) ->
  remove_trace_species self = true ->
  _trace self = Some mask -> in_mask mask j = false ->
  (j < num_prod (thermo self))%nat ->
  vget (o_n outputs) j = Fin x -> x <= 1.0e-10 ->
  mget (J_n_n J) j j = Fin (-1).
Proof.
  intros Ha EL Hr Etr Hin Hj Hn Hx.
  destruct (linearize_Ok _ _ _ _ _ EL) as (self1 & E1 & _ & Enn & _ & _ & Hm).
  destruct (Hm Hr) as (mask' & Emask & Ed). rewrite Etr in Emask.
  injection Emask as <-.
  destruct (calc_dRdy_allocated _ _ _ _ E1 Ha) as [Hs1 Hz1].
  destruct (calc_dRdy_Ok _ _ _ _ E1)
    as (d8 & Ed8 & Hshape & _ & _ & _ & _ & _ & Em & Eth & Esz & _).
  destruct Ha as [Hs Hz].
  rewrite Esz in Hs1.
  set (P := num_prod (thermo self)) in *.
  set (sz := size self) in *.
  assert (HP : (P <= sz)%nat) by lia.
  assert (HT : negb (mode_is_T (mode self)) = true -> (P <= sz - 1)%nat).
  { destruct (mode_is_T (mode self)); [discriminate | lia]. }
  rewrite Enn.
  rewrite (mget_mblock sz sz)
    by (try (rewrite Ed; apply has_shape_mask_dRdy; exact Hs1); lia).
  cbn [Nat.add]. rewrite Ed.
  rewrite (mget_mask_dRdy sz) by assumption.
  rewrite Hin. cbn [andb orb].
  rewrite Ed8, Hr.
  rewrite (mget_trace_rows sz sz) by (try (apply Hshape; exact Hs); lia).
  cbn [Nat.leb andb Nat.add].
  rewrite (proj2 (Nat.ltb_lt _ _) Hj), Hn.
  rewrite (proj2 (fleb_Fin x 1.0e-10) Hx). now rewrite Nat.eqb_refl.
Qed.

(** X: when the first residual evaluation of a fresh instance ends with
    [norm(resid_n) < 1e-4], it switches trace removal on without ever having
    assigned [_trace], and the [linearize] that follows raises
    [AttributeError]. *)
Theorem linearize_trace_never_recorded (m : Mode) (th : Thermo) (path : string)
    (inputs : Inputs) (outputs : Outputs) (self1 : ChemEq) (r : Resids) :
  apply_nonlinear (setup m th path) inputs outputs = Ok (self1, r) ->
  fltb (np_norm (r_n r)) (Fin 1e-4) = true ->
  linearize self1 inputs outputs = Raise (AttributeError "_trace").
Proof.
  intros E Hnorm.
  pose proof (apply_nonlinear_evaluated _ _ _ _ _ E) as Hev.
  destruct (apply_nonlinear_Ok _ _ _ _ _ E)
    as (h0 & s0 & _ & _ & _ & _ & _ & Er & Etr & _).
  cbn [setup remove_trace_species _trace] in Etr.
  pose proof (linearize_outcome self1 inputs outputs Hev) as H.
  rewrite Er, Hnorm, Etr in H. exact H.
Qed.

End TraceJacobian.

(* ================================================================== *)
(** * The Jacobian on the example mixture *)

Section JacobianExamples.

Import ChemEq.

Lemma tracing_allocated : allocated chemeq_tracing.
Proof. split; [apply (has_shape_zeros 3 3) | reflexivity]. Qed.

Lemma tracing_evaluated : evaluated chemeq_tracing.
Proof.
  unfold evaluated, chemeq_tracing; cbn.
  repeat split; intros; discriminate.
Qed.

Lemma tracing_calc :
  exists self1, _calc_dRdy chemeq_tracing inputs1 outputs_floor = Ok self1.
Proof. apply calc_dRdy_returns, tracing_evaluated. Qed.

Lemma tracing_linearize :
  exists self' J, linearize chemeq_tracing inputs1 outputs_floor = Ok (self', J).
Proof.
  exact (linearize_outcome chemeq_tracing inputs1 outputs_floor tracing_evaluated).
Qed.

Lemma calc_dRdy_trace_rows_witness :
  exists self1,
    _calc_dRdy chemeq_tracing inputs1 outputs_floor = Ok self1 /\
    mget (_dRdy self1) 0 0 = Fin (-1) /\ mget (_dRdy self1) 0 2 = Fin 0.
Proof.
  destruct tracing_calc as (self1 & E). exists self1.
  split; [exact E|]. split.
  - apply (calc_dRdy_trace_rows chemeq_tracing inputs1 outputs_floor self1 0 0
             1e-10 tracing_allocated E);
      [reflexivity | cbn; lia | cbn; lia | reflexivity | lra].
  - apply (calc_dRdy_trace_rows chemeq_tracing inputs1 outputs_floor self1 0 2
             1e-10 tracing_allocated E);
      [reflexivity | cbn; lia | cbn; lia | reflexivity | lra].
Defined.

Lemma linearize_mass_block_witness :
  exists self' J,
    linearize chemeq_tracing inputs1 outputs_floor = Ok (self', J) /\
    mget (J_pi_n J) 0 0 = Fin 1.
Proof.
  destruct tracing_linearize as (self' & J & E). exists self', J.
  split; [exact E|].
  apply (linearize_mass_block chemeq_tracing inputs1 outputs_floor self' J 0 0
           tracing_allocated E); cbn; lia.
Defined.

Lemma linearize_stale_mask_witness :
  exists self' J,
    linearize chemeq_tracing inputs1 outputs_floor = Ok (self', J) /\
    mget (J_n_n J) 0 0 = Fin (-1).
Proof.
  destruct tracing_linearize as (self' & J & E). exists self', J.
  split; [exact E|].
  apply (linearize_stale_mask chemeq_tracing inputs1 outputs_floor self' J []
           0 1e-10 tracing_allocated E);
    [reflexivity | reflexivity | reflexivity | cbn; lia | reflexivity | lra].
Defined.

Lemma np_norm_zero : fltb (np_norm [Fin 0]) (Fin 1e-4) = true.
Proof.
  unfold np_norm, np_sum. cbn [map fold_left fmul fadd fsqrt].
  rewrite Rltb_false by lra. cbn [fltb].
  replace (0 + 0 * 0) with 0 by lra. rewrite sqrt_0. apply Rltb_true. lra.
Qed.

(** At the floor, with trace removal on, the Gibbs residual is masked to
    zero, so trace removal stays on. *)
Lemma floor_state :
  exists self1 r,
    apply_nonlinear chemeq_tracing inputs1 outputs_floor = Ok (self1, r) /\
    remove_trace_species self1 = true.
Proof.
  destruct floor_returns as (self1 & r & E). exists self1, r.
  split; [exact E|].
  destruct (apply_nonlinear_Ok _ _ _ _ _ E)
    as (h0' & s0' & _ & _ & _ & _ & _ & Er & _).
  rewrite Er.
  destruct (apply_nonlinear_Ok_n _ _ _ _ _ E)
    as (h0 & s0 & m & EH & ES & Em & Ern & _).
  cbn in EH, ES. injection EH as <-. injection ES as <-.
  assert (Hlen : List.length m = 1%nat).
  { apply (floor_potential chemeq_tracing). destruct Em as [Em | [_ Em]]; auto. }
  destruct m as [|m0 [|m1 m]]; try discriminate Hlen.
  assert (Hr : r_n r = [Fin 0]).
  { rewrite Ern. unfold chemeq_tracing, outputs_floor, thermo1, resid_n_unmasked,
      is_trace.
    np_step. rewrite (Rltb_true 1e-10 (1e-10 + 1e-20)) by lra. np_step.
    reflexivity. }
  rewrite Hr. apply np_norm_zero.
Qed.

Lemma linearize_trace_identity_witness :
  exists self1 r self' J,
    apply_nonlinear chemeq_tracing inputs1 outputs_floor = Ok (self1, r) /\
    linearize self1 inputs1 outputs_floor = Ok (self', J) /\
    mget (J_n_n J) 0 0 = Fin 1.
Proof.
  destruct floor_state as (self1 & r & E & Hr1).
  pose proof (linearize_outcome self1 inputs1 outputs_floor
                (apply_nonlinear_evaluated _ _ _ _ _ E)) as H.
  destruct (apply_nonlinear_Ok _ _ _ _ _ E)
    as (h0 & s0 & _ & _ & _ & _ & _ & _ & Etr & _).
  rewrite Hr1, Etr in H. cbn [remove_trace_species chemeq_tracing] in H.
  destruct H as (self' & J & EL).
  exists self1, r, self', J. split; [exact E|]. split; [exact EL|].
  apply (linearize_trace_identity chemeq_tracing inputs1 outputs_floor self1 r
           self' J 0 0 1e-10 tracing_allocated eq_refl E Hr1 EL);
    [cbn; lia | cbn; lia | reflexivity | lra].
Defined.

End JacobianExamples.

Section FirstEvaluation.

Import ChemEq.

(** Temperature mode at a state that satisfies the Gibbs condition:
    [mu = 1 = pi * aij]. *)
Definition inputs_T : Inputs :=
  {| i_b0 := [Fin 1]; i_P := Fin 1.01325; i_closure := Fin 300 |}.
Definition outputs_balanced : Outputs :=
  {| o_T := Fin 400; o_n := [Fin 1]; o_pi := [Fin 1]; o_n_moles := Fin 1 |}.

Lemma balanced_potential :
  mu_raise [Fin 1] [Fin 0] (o_n outputs_balanced) (fdiv (i_P inputs_T) P_REF)
    (np_sum (o_n outputs_balanced))
  = Ok (map Fin (mu_real [1] [0] [1] (1.01325 / 1.01325))).
Proof.
  change (o_n outputs_balanced) with (map Fin [1]).
  replace (fdiv (i_P inputs_T) P_REF) with (Fin (1.01325 / 1.01325))
    by (unfold inputs_T, P_REF; np_step; rewrite Reqb_false by lra; reflexivity).
  rewrite (mu_raise_Fin [1] [0] [1])
    by (try discriminate; repeat constructor; lra).
  now rewrite Rltb_true by lra.
Qed.

Lemma balanced_state :
  exists self1 r,
    apply_nonlinear (setup ModeT thermo1 "chemeq") inputs_T outputs_balanced
      = Ok (self1, r) /\
    fltb (np_norm (r_n r)) (Fin 1e-4) = true.
Proof.
  destruct (apply_nonlinear_returns (setup ModeT thermo1 "chemeq") inputs_T
              outputs_balanced [Fin 1] [Fin 0] _ eq_refl eq_refl
              balanced_potential) as (self1 & r & E).
  exists self1, r. split; [exact E|].
  destruct (apply_nonlinear_Ok_n _ _ _ _ _ E)
    as (h0 & s0 & m & EH & ES & Em & Ern & _).
  cbn in EH, ES. injection EH as <-. injection ES as <-.
  rewrite balanced_potential in Em.
  destruct Em as [Em | [[e Em] _]]; [|discriminate Em].
  injection Em as <-.
  assert (Hr : r_n r = [Fin 0]).
  { rewrite Ern. unfold outputs_balanced, thermo1, resid_n_unmasked, mu_real, Rsum.
    np_step. rewrite resid_weighting_Fin. np_step. f_equal. f_equal.
    replace (1.01325 / 1.01325) with 1 by lra.
    replace (0 + 1) with 1 by lra. rewrite ln_1. lra. }
  rewrite Hr. apply np_norm_zero.
Qed.

Lemma linearize_trace_never_recorded_witness :
  exists self1 r,
    apply_nonlinear (setup ModeT thermo1 "chemeq") inputs_T outputs_balanced
      = Ok (self1, r) /\
    linearize self1 inputs_T outputs_balanced = Raise (AttributeError "_trace").
Proof.
  destruct balanced_state as (self1 & r & E & Hn).
  exists self1, r. split; [exact E|].
  exact (linearize_trace_never_recorded ModeT thermo1 "chemeq" inputs_T
           outputs_balanced self1 r E Hn).
Defined.

End FirstEvaluation.

(* ================================================================== *)
(** * Warm start of the static-flow guess *)

Section StaticWarmStart.

Import PsResid.

Variable R_UNIVERSAL_SI : npfloat.
Variable fsolve :
  (npfloat * npfloat -> npfloat * npfloat) -> npfloat * npfloat -> npfloat * npfloat.

(** No value differs from itself by more than [1e-10]. *)
Lemma not_moved (a : npfloat) :
  fgtb (fabs (fsub a a)) (Fin 1e-10) = false.
Proof.
  destruct a as [x| | |]; try reflexivity.
  cbn [fsub fneg fadd fabs fgtb fltb].
  apply Rltb_false. replace (x + - x) with 0 by lra. rewrite Rabs_R0. lra.
Qed.

(** X: once [guess_nonlinear] has run, running it again on the same inputs
    changes nothing, whatever the solver has made of the outputs in between:
    the converged [Ps] is kept. *)
Theorem guess_nonlinear_warm_start (self : PsResid) (inputs : Inputs)
    (outputs outputs' : Outputs) :
  let self1 := fst (guess_nonlinear R_UNIVERSAL_SI fsolve self inputs outputs) in
  guess_nonlinear R_UNIVERSAL_SI fsolve self1 inputs outputs' = (self1, outputs').
Proof.
  unfold guess_nonlinear.
  destruct (mode self) eqn:Em.
  - set (fresh := isentropic_Ps _ _ _).
    destruct (fgtb (fabs (fsub fresh (_ps_guess_cache self))) (Fin 1e-10)) eqn:E1;
      [destruct (feqb (_ps_guess_cache self) (Fin (-1))) eqn:E2|];
      cbn [fst mode set_cache _ps_guess_cache]; rewrite Em.
    + now rewrite not_moved.
    + now rewrite E1, E2.
    + now rewrite E1.
  - set (found := fst (fsolve _ _)).
    destruct (fgtb (fabs (fsub found (_ps_guess_cache self))) (Fin 1e-10)) eqn:E1;
      cbn [fst mode set_cache _ps_guess_cache]; rewrite Em.
    + now rewrite not_moved.
    + now rewrite E1.
Qed.

(** X: in area mode, when [fsolve] returns a root of the system it is
    given, the pressure that seeds [Ps] is the closed-form isentropic estimate
    at the guess Mach number [guess:MN]: it depends on [guess:Pt],
    [guess:gamt] and [guess:MN] only. *)
Theorem guess_area_seed_is_estimate (self : PsResid) (inputs : Inputs)
    (outputs : Outputs) :
  mode self = ModeArea ->
  let gamt := i_guess_gamt inputs in
  let M_guess := i_guess_MN inputs in
  let ps_guess := isentropic_Ps (i_guess_Pt inputs) gamt M_guess in
  let eqs := equations R_UNIVERSAL_SI inputs gamt M_guess ps_guess in
  eqs (fsolve eqs (ps_guess, M_guess)) = (Fin 0, Fin 0) ->
  fgtb (fabs (fsub ps_guess (_ps_guess_cache self))) (Fin 1e-10) = true ->
  str_in "mixer.Fl_I1_calc" (pathname self) = false ->
  guess_nonlinear R_UNIVERSAL_SI fsolve self inputs outputs
  = (set_cache self ps_guess, set_Ps outputs ps_guess).
Proof.
  intros Hm gamt M_guess ps_guess eqs Hroot Hd Hp.
  unfold guess_nonlinear. rewrite Hm. fold gamt M_guess ps_guess eqs.
  destruct (fsolve eqs (ps_guess, M_guess)) as [ps MN] eqn:Es.
  apply equations_root in Hroot. fold ps_guess in Hroot. subst ps.
  cbn [fst]. now rewrite Hd, Hp.
Qed.

End StaticWarmStart.

Section StaticSeedExamples.

Import PsResid.

Lemma station1_estimate :
  isentropic_Ps (i_guess_Pt station1) (i_guess_gamt station1) (Fin 0) = Fin 1.
Proof. apply isentropic_Ps_at_rest. lra. Qed.

Lemma station1_moved :
  fgtb (fabs (fsub (Fin 1) (Fin (-1)))) (Fin 1e-10) = true.
Proof. apply fgtb_fabs_fsub. rewrite Rabs_pos_eq; lra. Qed.

Lemma guess_MN_seeds_once_witness :
  guess_nonlinear R_SI fsolve_unit_slope (setup ModeMN "duct.ps_resid")
    station1 outputs0
  = (set_cache (setup ModeMN "duct.ps_resid") (Fin 1), set_Ps outputs0 (Fin 1)).
Proof.
  destruct (guess_MN_seeds_once R_SI fsolve_unit_slope
              (setup ModeMN "duct.ps_resid") station1 outputs0 eq_refl)
    as [H _].
  rewrite H. change (i_MN station1) with (Fin 0). rewrite station1_estimate.
  cbn [setup _ps_guess_cache]. rewrite station1_moved.
  cbn [feqb]. rewrite Reqb_true by lra. reflexivity.
Defined.

(** The mass-flow Mach number of [station1] is a finite value. *)
Lemma station1_mach :
  exists b,
    fdiv (fmul (i_W station1) (fsqrt (fmul R_SI (i_Ts station1))))
         (fmul (fmul (fmul (Fin 1) (Fin 1.0e6)) (i_area station1))
               (fsqrt (i_guess_gamt station1)))
    = Fin b.
Proof.
  assert (H : 0 < sqrt 1.4) by (apply sqrt_lt_R0; lra).
  unfold station1, R_SI. np_eval. eexists. reflexivity.
Qed.

Lemma station1_root :
  let eqs := equations R_SI station1 (Fin 1.4) (Fin 0) (Fin 1) in
  eqs (fsolve_unit_slope eqs (Fin 1, Fin 0)) = (Fin 0, Fin 0).
Proof.
  destruct station1_mach as (b & Hb).
  unfold fsolve_unit_slope, equations. cbn [fst snd].
  change (i_guess_Pt station1) with (Fin 1).
  pose proof station1_estimate as He.
  change (i_guess_Pt station1) with (Fin 1) in He.
  change (i_guess_gamt station1) with (Fin 1.4) in He, Hb.
  rewrite He, Hb. cbn [fsub fneg fadd].
  f_equal; f_equal; lra.
Qed.

Lemma guess_area_seed_is_estimate_witness :
  guess_nonlinear R_SI fsolve_unit_slope (setup ModeArea "duct.ps_resid")
    station1 outputs0
  = (set_cache (setup ModeArea "duct.ps_resid") (Fin 1), set_Ps outputs0 (Fin 1)).
Proof.
  pose proof (guess_area_seed_is_estimate R_SI fsolve_unit_slope
                (setup ModeArea "duct.ps_resid") station1 outputs0 eq_refl) as H.
  cbv zeta in H. change (i_guess_MN station1) with (Fin 0) in H.
  rewrite station1_estimate in H. apply H.
  - exact station1_root.
  - exact station1_moved.
  - reflexivity.
Defined.

Lemma guess_area_mixer_seed_witness :
  o_Ps (snd (guess_nonlinear R_SI fsolve_unit_slope
               (setup ModeArea "hbtf.mixer.Fl_I1_calc.ps_resid")
               station1 outputs0))
  = Fin 3.
Proof.
  rewrite (guess_area_mixer_seed R_SI fsolve_unit_slope
             (setup ModeArea "hbtf.mixer.Fl_I1_calc.ps_resid") station1 outputs0
             eq_refl).
  - reflexivity.
  - change (i_guess_MN station1) with (Fin 0). rewrite station1_estimate.
    unfold fsolve_unit_slope, equations. cbn [fst snd].
    change (i_guess_MN station1) with (Fin 0). rewrite station1_estimate.
    cbn [fsub fneg fadd setup _ps_guess_cache].
    apply fgtb_fabs_fsub. rewrite Rabs_pos_eq; lra.
  - reflexivity.
Defined.

End StaticSeedExamples.

(* ================================================================== *)
(** * The explicit outputs of the static-flow resolver *)

Section FlowOutputs.

Import PsResid.

(** The value of the gas constant. *)
Variable Rc : R.

Lemma Vsonic_expr_warn (R_SI' Ts n_moles gamma : npfloat) :
  Vsonic_expr R_SI' ErrWarn Ts n_moles gamma
  = Ok (fsqrt (fmul (fmul (fmul gamma R_SI') n_moles) Ts)).
Proof. reflexivity. Qed.

(** With [gamma*R*n_moles*Ts] finite and not negative, the speed of sound
    is its square root in either error state. *)
Lemma Vsonic_expr_Fin (em : errstate) (t nm g : R) :
  0 <= g * Rc * nm * t ->
  Vsonic_expr (Fin Rc) em (Fin t) (Fin nm) (Fin g)
  = Ok (Fin (sqrt (g * Rc * nm * t))).
Proof.
  intros H. destruct em; unfold Vsonic_expr; np_eval; reflexivity.
Qed.

(** X: MN mode with a Mach number of at least [1e-16] on finite inputs:
    the guarded evaluation succeeds, nothing is printed, and the outputs
    satisfy [V = MN*Vsonic] and [area*rho*Vsonic*MN = W]. *)
Theorem compute_outputs_MN_consistent (self : PsResid)
    (t nm g W rho MN : R) :
  0 < g * Rc * nm * t -> rho <> 0 -> 1e-16 <= MN ->
  exists area,
    _compute_outputs_MN (Fin Rc) ErrWarn self (Fin t) (Fin nm) (Fin g) (Fin W)
      (Fin rho) (Fin MN)
    = Ok ([], (Fin (sqrt (g * Rc * nm * t)),
               Fin (MN * sqrt (g * Rc * nm * t)),
               Fin area))
    /\ area * rho * sqrt (g * Rc * nm * t) * MN = W.
Proof.
  intros Hx Hrho HMN.
  pose proof (sqrt_lt_R0 _ Hx) as Hs.
  set (vs := sqrt (g * Rc * nm * t)) in *.
  assert (Hd : rho * vs * MN <> 0).
  { apply Rmult_integral_contrapositive_currified; [|lra].
    apply Rmult_integral_contrapositive_currified; lra. }
  exists (W / (rho * vs * MN)). split.
  - unfold _compute_outputs_MN.
    rewrite !Vsonic_expr_Fin by lra. fold vs. cbn [bind fst snd].
    np_eval. reflexivity.
  - field. repeat split; lra.
Qed.

(** X: MN mode below [1e-16]: the area is infinite and neither the mass
    flow nor the density is used, whatever they are. *)
Theorem compute_outputs_MN_stagnant (self : PsResid) (W rho : npfloat)
    (t nm g MN : R) :
  0 <= g * Rc * nm * t -> MN < 1e-16 ->
  _compute_outputs_MN (Fin Rc) ErrWarn self (Fin t) (Fin nm) (Fin g) W rho
    (Fin MN)
  = Ok ([], (Fin (sqrt (g * Rc * nm * t)),
             Fin (MN * sqrt (g * Rc * nm * t)),
             PInf)).
Proof.
  intros Hx HMN. unfold _compute_outputs_MN.
  rewrite !Vsonic_expr_Fin by lra. cbn [bind fst snd].
  np_eval. reflexivity.
Qed.

(** X: area mode on a finite, nonzero area and density: the guarded
    division succeeds, nothing is printed, and
    [MN*rho*Vsonic*area = W], [V = MN*Vsonic]. *)
Theorem compute_outputs_area_consistent (self : PsResid)
    (t nm g W rho area : R) :
  0 < g * Rc * nm * t -> rho <> 0 -> area <> 0 ->
  exists MN,
    _compute_outputs_area (Fin Rc) ErrWarn self (Fin t) (Fin nm) (Fin g) (Fin W)
      (Fin rho) (Fin area)
    = Ok ([], (Fin MN,
               Fin (sqrt (g * Rc * nm * t)),
               Fin (MN * sqrt (g * Rc * nm * t))))
    /\ MN * rho * sqrt (g * Rc * nm * t) * area = W.
Proof.
  intros Hx Hrho Harea.
  pose proof (sqrt_lt_R0 _ Hx) as Hs.
  set (vs := sqrt (g * Rc * nm * t)) in *.
  assert (Hd : rho * vs * area <> 0).
  { apply Rmult_integral_contrapositive_currified; [|lra].
    apply Rmult_integral_contrapositive_currified; lra. }
  exists (W / (rho * vs * area)). split.
  - unfold _compute_outputs_area.
    rewrite !Vsonic_expr_Fin by lra. fold vs. cbn [bind fst snd feqb].
    unfold MN_guarded. np_eval. reflexivity.
  - field. repeat split; lra.
Qed.

(** X: area mode with [area = np.inf]: the Mach number and the velocity
    are zero; the mass flow and the density are not used. *)
Theorem compute_outputs_area_infinite (em : errstate) (self : PsResid)
    (W rho : npfloat) (t nm g : R) :
  0 <= g * Rc * nm * t ->
  exists v,
    _compute_outputs_area (Fin Rc) em self (Fin t) (Fin nm) (Fin g) W rho PInf
    = Ok ([], (Fin 0, Fin (sqrt (g * Rc * nm * t)), Fin v))
    /\ v = 0.
Proof.
  intros Hx. exists (0 * sqrt (g * Rc * nm * t)). split; [|lra].
  unfold _compute_outputs_area. rewrite Vsonic_expr_Fin by lra.
  cbn [bind feqb]. destruct em; np_eval; reflexivity.
Qed.

End FlowOutputs.

Section FlowSolve.

Import PsResid.

Variable Rc : R.

(** X: area mode, finite inputs, with [rho*Vsonic*area = 0] (no density,
    no temperature or no area): the guarded division raises, the handler
    prints the operands and sets [MN = 5.]; [solve_nonlinear] returns
    normally with [MN = 5] and [V = 5*Vsonic]. *)
Theorem solve_nonlinear_area_fallback (self : PsResid) (inputs : Inputs)
    (outputs : Outputs) (t nm g W rho area : R) :
  mode self = ModeArea ->
  i_Ts inputs = Fin t -> i_n_moles inputs = Fin nm -> i_gamma inputs = Fin g ->
  i_W inputs = Fin W -> i_rho inputs = Fin rho -> i_area inputs = Fin area ->
  0 <= g * Rc * nm * t ->
  rho * sqrt (g * Rc * nm * t) * area = 0 ->
  solve_nonlinear (Fin Rc) ErrWarn self inputs outputs
  = Ok (add_stdout self
          [Print ["MN_calc"; pathname self]
             [Fin W; Fin rho; Fin (sqrt (g * Rc * nm * t)); Fin area]],
        {| o_Ps := o_Ps outputs;
           o_V := Fin (5 * sqrt (g * Rc * nm * t));
           o_Vsonic := Fin (sqrt (g * Rc * nm * t));
           o_area := o_area outputs;
           o_MN := Fin 5 |}).
Proof.
  intros Hm Et En Eg EW Er Ea Hx Hz.
  unfold solve_nonlinear, _compute_outputs_area.
  rewrite Hm, Et, En, Eg, EW, Er, Ea.
  rewrite Vsonic_expr_Fin by assumption. cbn [bind feqb].
  set (vs := sqrt (g * Rc * nm * t)) in *.
  assert (HMN : exists e, MN_guarded (Fin W) (Fin rho) (Fin vs) (Fin area)
                          = Raise e).
  { unfold MN_guarded. np_step. rewrite (Reqb_true _ 0 Hz). np_step.
    destruct (Rltb 0 W); [eauto|]. destruct (Rltb W 0); eauto. }
  destruct HMN as (e & ->). reflexivity.
Qed.

(** X: in the default error state [solve_nonlinear] never raises, in
    either mode and for every input, and it passes [Ps] and the guess cache
    through unchanged. *)
Theorem solve_nonlinear_default_state (R_SI' : npfloat) (self : PsResid)
    (inputs : Inputs) (outputs : Outputs) :
  exists self' outputs',
    solve_nonlinear R_SI' ErrWarn self inputs outputs = Ok (self', outputs') /\
    o_Ps outputs' = o_Ps outputs /\
    _ps_guess_cache self' = _ps_guess_cache self /\
    mode self' = mode self.
Proof.
  unfold solve_nonlinear. destruct (mode self) eqn:Em.
  - unfold _compute_outputs_MN. rewrite Vsonic_expr_warn. cbn [bind].
    destruct (Vsonic_expr R_SI' ErrRaise _ _ _); cbn [reraise fst snd];
      eexists; eexists; (split; [reflexivity|]);
      cbn [o_Ps _ps_guess_cache mode add_stdout]; auto.
  - unfold _compute_outputs_area. rewrite Vsonic_expr_warn. cbn [bind].
    destruct (feqb (i_area inputs) PInf).
    + cbn [op2 np_op bind reraise].
      eexists; eexists; (split; [reflexivity|]);
        cbn [o_Ps _ps_guess_cache mode add_stdout]; auto.
    + destruct (MN_guarded _ _ _ _); cbn [bind reraise fst snd];
        eexists; eexists; (split; [reflexivity|]);
        cbn [o_Ps _ps_guess_cache mode add_stdout]; auto.
Qed.

(** X: when numpy is already set to raise on entry, a negative
    [gamma*R*n_moles*Ts] makes [solve_nonlinear] raise [AnalysisError]
    carrying the pathname and [Ts], in either mode: the error comes from the
    unguarded first evaluation of [Vsonic]. *)
Theorem solve_nonlinear_raise_state (self : PsResid) (inputs : Inputs)
    (outputs : Outputs) (t nm g : R) :
  i_Ts inputs = Fin t -> i_n_moles inputs = Fin nm -> i_gamma inputs = Fin g ->
  g * Rc * nm * t < 0 ->
  solve_nonlinear (Fin Rc) ErrRaise self inputs outputs
  = Raise (AnalysisError (pathname self) [Fin t]).
Proof.
  intros Et En Eg Hx. unfold solve_nonlinear.
  assert (HV : Vsonic_expr (Fin Rc) ErrRaise (Fin t) (Fin nm) (Fin g)
               = Raise FloatingPointError).
  { unfold Vsonic_expr. np_eval. reflexivity. }
  destruct (mode self); unfold _compute_outputs_MN, _compute_outputs_area;
    rewrite Et, En, Eg, HV; cbn [bind reraise]; rewrite Et; reflexivity.
Qed.

End FlowSolve.

Section FlowOutputExamples.

Import PsResid.

Lemma station1_sound : 0 < 1.4 * 8314.4598 * 0.03 * 300.
Proof. lra. Qed.

Lemma compute_outputs_MN_consistent_witness :
  exists area,
    _compute_outputs_MN R_SI ErrWarn (setup ModeMN "duct.ps_resid")
      (Fin 300) (Fin 0.03) (Fin 1.4) (Fin 1) (Fin 1) (Fin 0.5)
    = Ok ([], (Fin (sqrt (1.4 * 8314.4598 * 0.03 * 300)),
               Fin (0.5 * sqrt (1.4 * 8314.4598 * 0.03 * 300)),
               Fin area))
    /\ area * 1 * sqrt (1.4 * 8314.4598 * 0.03 * 300) * 0.5 = 1.
Proof.
  apply (compute_outputs_MN_consistent 8314.4598 (setup ModeMN "duct.ps_resid")
           300 0.03 1.4 1 1 0.5); lra.
Defined.

Lemma compute_outputs_MN_stagnant_witness :
  _compute_outputs_MN R_SI ErrWarn (setup ModeMN "duct.ps_resid")
    (Fin 300) (Fin 0.03) (Fin 1.4) NaN (Fin 0) (Fin 0)
  = Ok ([], (Fin (sqrt (1.4 * 8314.4598 * 0.03 * 300)),
             Fin (0 * sqrt (1.4 * 8314.4598 * 0.03 * 300)),
             PInf)).
Proof.
  apply (compute_outputs_MN_stagnant 8314.4598 (setup ModeMN "duct.ps_resid")
           NaN (Fin 0) 300 0.03 1.4 0); lra.
Defined.

Lemma compute_outputs_area_consistent_witness :
  exists MN,
    _compute_outputs_area R_SI ErrWarn (setup ModeArea "duct.ps_resid")
      (Fin 300) (Fin 0.03) (Fin 1.4) (Fin 1) (Fin 1) (Fin 1)
    = Ok ([], (Fin MN,
               Fin (sqrt (1.4 * 8314.4598 * 0.03 * 300)),
               Fin (MN * sqrt (1.4 * 8314.4598 * 0.03 * 300))))
    /\ MN * 1 * sqrt (1.4 * 8314.4598 * 0.03 * 300) * 1 = 1.
Proof.
  apply (compute_outputs_area_consistent 8314.4598
           (setup ModeArea "duct.ps_resid") 300 0.03 1.4 1 1 1); lra.
Defined.

Lemma compute_outputs_area_infinite_witness :
  exists v,
    _compute_outputs_area R_SI ErrWarn (setup ModeArea "duct.ps_resid")
      (Fin 300) (Fin 0.03) (Fin 1.4) (Fin 1) (Fin 1) PInf
    = Ok ([], (Fin 0, Fin (sqrt (1.4 * 8314.4598 * 0.03 * 300)), Fin v))
    /\ v = 0.
Proof.
  apply (compute_outputs_area_infinite 8314.4598 ErrWarn
           (setup ModeArea "duct.ps_resid") (Fin 1) (Fin 1) 300 0.03 1.4); lra.
Defined.

(** [station1] without density, and at a negative temperature. *)
Definition station_no_density : Inputs :=
  {| i_Ts := Fin 300; i_ht := Fin 1; i_hs := Fin 1; i_n_moles := Fin 0.03;
     i_gamma := Fin 1.4; i_W := Fin 1; i_rho := Fin 0;
     i_guess_gamt := Fin 1.4; i_guess_Pt := Fin 1;
     i_MN := Fin 0; i_guess_MN := Fin 0; i_area := Fin 1 |}.

Definition station_negative_Ts : Inputs :=
  {| i_Ts := Fin (-300); i_ht := Fin 1; i_hs := Fin 1; i_n_moles := Fin 0.03;
     i_gamma := Fin 1.4; i_W := Fin 1; i_rho := Fin 1;
     i_guess_gamt := Fin 1.4; i_guess_Pt := Fin 1;
     i_MN := Fin 0; i_guess_MN := Fin 0; i_area := Fin 1 |}.

Lemma solve_nonlinear_area_fallback_witness :
  exists self' outputs',
    solve_nonlinear R_SI ErrWarn (setup ModeArea "duct.ps_resid")
      station_no_density outputs0 = Ok (self', outputs')
    /\ o_MN outputs' = Fin 5.
Proof.
  eexists; eexists. split.
  - apply (solve_nonlinear_area_fallback 8314.4598
             (setup ModeArea "duct.ps_resid") station_no_density outputs0
             300 0.03 1.4 1 0 1); try reflexivity; lra.
  - reflexivity.
Defined.

Lemma solve_nonlinear_raise_state_witness :
  solve_nonlinear R_SI ErrRaise (setup ModeArea "duct.ps_resid")
    station_negative_Ts outputs0
  = Raise (AnalysisError "duct.ps_resid" [Fin (-300)]).
Proof.
  apply (solve_nonlinear_raise_state 8314.4598 (setup ModeArea "duct.ps_resid")
           station_negative_Ts outputs0 (-300) 0.03 1.4);
    try reflexivity; lra.
Defined.

End FlowOutputExamples.

(* ================================================================== *)
(** * The residuals of the static-flow resolver *)

Section FlowResiduals.

Import PsResid.

Variable Rc : R.

Lemma state_after_compute_warn (self : PsResid) (inputs : Inputs) :
  state_after_compute ErrWarn self inputs = ErrWarn.
Proof.
  unfold state_after_compute. destruct (mode self); [reflexivity|].
  destruct (feqb _ _); reflexivity.
Qed.

(** X: MN mode on finite inputs with a nonzero total enthalpy: the pressure
    residual is the energy balance [(hs + V^2/2 - ht)/ht] with
    [V = MN*Vsonic], whatever the mass flow and the density are; it is zero
    exactly when [ht = hs + V^2/2]. *)
Theorem apply_nonlinear_MN_energy (self : PsResid) (inputs : Inputs)
    (outputs : Outputs) (resids : Resids) (t nm g ht hs MN : R) :
  mode self = ModeMN ->
  i_Ts inputs = Fin t -> i_n_moles inputs = Fin nm -> i_gamma inputs = Fin g ->
  i_ht inputs = Fin ht -> i_hs inputs = Fin hs -> i_MN inputs = Fin MN ->
  0 <= g * Rc * nm * t -> ht <> 0 ->
  let V := MN * sqrt (g * Rc * nm * t) in
  exists self' r p,
    apply_nonlinear (Fin Rc) ErrWarn self inputs outputs resids = Ok (self', r)
    /\ r_Ps r = Fin p /\ p = (hs + V * V / 2 - ht) / ht
    /\ (p = 0 <-> ht = hs + V * V / 2).
Proof.
  intros Hm Et En Eg Eht Ehs EMN Hx Hht V.
  unfold apply_nonlinear. rewrite state_after_compute_warn.
  rewrite Hm, Et, En, Eg, Eht, Ehs, EMN.
  unfold _compute_outputs_MN. rewrite !Vsonic_expr_Fin by exact Hx.
  cbn [bind fst snd op2 np_op].
  destruct (fneb _ PInf); cbn [bind op2 np_op];
    (eexists; eexists; eexists; split; [reflexivity|];
     cbn [r_Ps]; np_eval; split; [reflexivity|]);
    (assert (Hp : (hs + MN * MN / 2 * g * (Rc * t * nm) + - ht) / ht
                  = (hs + V * V / 2 - ht) / ht);
     [ unfold V;
       replace (MN * sqrt (g * Rc * nm * t) * (MN * sqrt (g * Rc * nm * t)))
         with (MN * MN * (sqrt (g * Rc * nm * t) * sqrt (g * Rc * nm * t)))
         by ring;
       rewrite sqrt_sqrt by exact Hx; field; exact Hht
     | split; [exact Hp|]; rewrite Hp; split; intros H;
       [ unfold Rdiv in H; apply Rmult_integral in H; destruct H as [H|H];
         [ lra | exfalso; exact (Rinv_neq_0_compat ht Hht H) ]
       | assert (E0 : hs + V * V / 2 - ht = 0) by lra;
         rewrite E0; unfold Rdiv; ring ] ]).
Qed.

(** X: area mode on finite inputs with a nonzero density, area and total
    enthalpy: the pressure residual is the energy balance
    [(hs + V^2/2 - ht)/ht] with [V = W/(rho*area)]; the speed of sound
    cancels. *)
Theorem apply_nonlinear_area_energy (self : PsResid) (inputs : Inputs)
    (outputs : Outputs) (resids : Resids) (t nm g ht hs W rho area : R) :
  mode self = ModeArea ->
  i_Ts inputs = Fin t -> i_n_moles inputs = Fin nm -> i_gamma inputs = Fin g ->
  i_ht inputs = Fin ht -> i_hs inputs = Fin hs -> i_W inputs = Fin W ->
  i_rho inputs = Fin rho -> i_area inputs = Fin area ->
  0 < g * Rc * nm * t -> rho <> 0 -> area <> 0 -> ht <> 0 ->
  let V := W / (rho * area) in
  exists self' r p,
    apply_nonlinear (Fin Rc) ErrWarn self inputs outputs resids = Ok (self', r)
    /\ r_Ps r = Fin p /\ p = (hs + V * V / 2 - ht) / ht.
Proof.
  intros Hm Et En Eg Eht Ehs EW Erho Ea Hx Hrho Harea Hht V.
  pose proof (sqrt_lt_R0 _ Hx) as Hs.
  pose proof (sqrt_sqrt _ (Rlt_le _ _ Hx)) as Hss.
  unfold apply_nonlinear. rewrite state_after_compute_warn.
  rewrite Hm, Et, En, Eg, Eht, Ehs, EW, Erho, Ea.
  unfold _compute_outputs_area. rewrite !Vsonic_expr_Fin by lra.
  set (vs := sqrt (g * Rc * nm * t)) in *.
  assert (Hd : rho * vs * area <> 0).
  { apply Rmult_integral_contrapositive_currified; [|lra].
    apply Rmult_integral_contrapositive_currified; lra. }
  cbn [bind feqb]. unfold MN_guarded. np_eval.
  eexists; eexists; eexists; split; [reflexivity|].
  cbn [r_Ps]. split; [reflexivity|].
  unfold V. clearbody vs.
  replace (W / (rho * vs * area) * (W / (rho * vs * area)) / 2 * g
           * (Rc * t * nm))
    with (W / (rho * vs * area) * (W / (rho * vs * area)) / 2 * (vs * vs))
    by (rewrite Hss; ring).
  field. repeat split; lra.
Qed.

Lemma compute_outputs_MN_stdout (R_SI' : npfloat) (em : errstate)
    (self : PsResid) (l : list printed) (Ts n_moles gamma W rho MN : npfloat) :
  _compute_outputs_MN R_SI' em (add_stdout self l) Ts n_moles gamma W rho MN
  = _compute_outputs_MN R_SI' em self Ts n_moles gamma W rho MN.
Proof. reflexivity. Qed.

Lemma compute_outputs_area_stdout (R_SI' : npfloat) (em : errstate)
    (self : PsResid) (l : list printed) (Ts n_moles gamma W rho area : npfloat) :
  _compute_outputs_area R_SI' em (add_stdout self l) Ts n_moles gamma W rho area
  = _compute_outputs_area R_SI' em self Ts n_moles gamma W rho area.
Proof. reflexivity. Qed.

Lemma fsub_self (a : npfloat) : is_finite a = true -> fsub a a = Fin 0.
Proof.
  destruct a; try discriminate. intros _. unfold fsub, fneg, fadd.
  f_equal. lra.
Qed.

Lemma reraise_Ok {A} (self : PsResid) (inputs : Inputs) (r : result A) (a : A) :
  reraise self inputs r = Ok a -> r = Ok a.
Proof.
  destruct r as [x|e]; [intros H; exact H|].
  destruct e; discriminate.
Qed.

(** X: evaluating the residuals at the outputs [solve_nonlinear] has just
    written, in the default error state: the residuals of [V] and [Vsonic]
    are zero when those outputs are finite; in MN mode the area residual is
    zero when the area is finite and also when it is infinite; in area mode
    the Mach residual is zero when the Mach number is finite. *)
Theorem apply_nonlinear_after_solve (R_SI' : npfloat) (self self1 : PsResid)
    (inputs : Inputs) (outputs outputs1 : Outputs) (resids : Resids) :
  solve_nonlinear R_SI' ErrWarn self inputs outputs = Ok (self1, outputs1) ->
  is_finite (o_V outputs1) = true -> is_finite (o_Vsonic outputs1) = true ->
  exists self2 r,
    apply_nonlinear R_SI' ErrWarn self1 inputs outputs1 resids = Ok (self2, r)
    /\ r_V r = Fin 0 /\ r_Vsonic r = Fin 0
    /\ (mode self = ModeMN ->
        is_finite (o_area outputs1) = true \/ o_area outputs1 = PInf ->
        r_area r = Fin 0)
    /\ (mode self = ModeArea -> is_finite (o_MN outputs1) = true ->
        r_MN r = Fin 0).
Proof.
  intros Hs HV HVs. unfold solve_nonlinear in Hs.
  apply reraise_Ok in Hs.
  unfold apply_nonlinear. rewrite state_after_compute_warn.
  destruct (mode self) eqn:Hm.
  - destruct (_compute_outputs_MN _ _ _ _ _ _ _ _ _)
      as [[out [[Vs V] a]]|e] eqn:Ec; cbn [bind] in Hs; [|discriminate].
    injection Hs as <- <-.
    cbn [mode add_stdout o_V o_Vsonic o_area o_MN o_Ps] in *.
    rewrite Hm, compute_outputs_MN_stdout, Ec.
    cbn [bind].
    destruct (fneb a PInf) eqn:Ea; cbn [bind op2 np_op];
      rewrite (fsub_self _ HV), (fsub_self _ HVs);
      (eexists; eexists; split; [reflexivity|]);
      cbn [r_V r_Vsonic r_area r_MN];
      (split; [reflexivity|]); (split; [reflexivity|]);
      (split; [|discriminate]).
    + intros _ [Ha|Ha]; [exact (fsub_self _ Ha)|].
      rewrite Ha in Ea. discriminate Ea.
    + intros _ _. reflexivity.
  - destruct (_compute_outputs_area _ _ _ _ _ _ _ _ _)
      as [[out [[MN Vs] V]]|e] eqn:Ec; cbn [bind] in Hs; [|discriminate].
    injection Hs as <- <-.
    cbn [mode add_stdout o_V o_Vsonic o_area o_MN o_Ps] in *.
    rewrite Hm, compute_outputs_area_stdout, Ec.
    cbn [bind op2 np_op].
    rewrite (fsub_self _ HV), (fsub_self _ HVs).
    eexists; eexists; split; [reflexivity|].
    cbn [r_V r_Vsonic r_area r_MN].
    split; [reflexivity|]. split; [reflexivity|]. split; [discriminate|].
    intros _ HM. exact (fsub_self _ HM).
Qed.

End FlowResiduals.

(* ================================================================== *)
(** * Partial derivatives

    Real expressions in one variable, their symbolic derivative, and its
    soundness for [derivable_pt_lim]; used to compare the hand-written
    partials of [linearize] and [compute_partials] with the functions that
    [apply_nonlinear] and [compute] evaluate. *)

Inductive expr : Type :=
| EVar
| EConst (c : R)
| EAdd (a b : expr)
| ESub (a b : expr)
| EOpp (a : expr)
| EMul (a b : expr)
| EDiv (a b : expr)
| ESqrt (a : expr).

Fixpoint eval (e : expr) (z : R) : R :=
  match e with
  | EVar => z
  | EConst c => c
  | EAdd a b => eval a z + eval b z
  | ESub a b => eval a z - eval b z
  | EOpp a => - eval a z
  | EMul a b => eval a z * eval b z
  | EDiv a b => eval a z / eval b z
  | ESqrt a => sqrt (eval a z)
  end.

Fixpoint derivative (e : expr) : expr :=
  match e with
  | EVar => EConst 1
  | EConst _ => EConst 0
  | EAdd a b => EAdd (derivative a) (derivative b)
  | ESub a b => ESub (derivative a) (derivative b)
  | EOpp a => EOpp (derivative a)
  | EMul a b => EAdd (EMul (derivative a) b) (EMul a (derivative b))
  | EDiv a b => EDiv (ESub (EMul (derivative a) b) (EMul (derivative b) a)) (EMul b b)
  | ESqrt a => EDiv (derivative a) (EMul (EConst 2) (ESqrt a))
  end.

Fixpoint defined (e : expr) (z : R) : Prop :=
  match e with
  | EVar | EConst _ => True
  | EAdd a b | ESub a b | EMul a b => defined a z /\ defined b z
  | EOpp a => defined a z
  | EDiv a b => defined a z /\ defined b z /\ eval b z <> 0
  | ESqrt a => defined a z /\ 0 < eval a z
  end.

Lemma deriv_eq (f g : R -> R) (x l l' : R) :
  (forall z, f z = g z) -> l = l' ->
  derivable_pt_lim f x l -> derivable_pt_lim g x l'.
Proof.
  intros Hfg <- Hf. exact (derivable_pt_lim_ext f g x l Hfg Hf).
Qed.

(** The symbolic derivative is the derivative wherever the expression is
    defined. *)
Lemma deriv_sound (e : expr) (z : R) :
  defined e z -> derivable_pt_lim (eval e) z (eval (derivative e) z).
Proof.
  induction e as [|c|a IHa b IHb|a IHa b IHb|a IHa|a IHa b IHb|a IHa b IHb|a IHa];
    cbn [defined eval derivative].
  - intros _. exact (derivable_pt_lim_id z).
  - intros _. exact (derivable_pt_lim_const c z).
  - intros [Ha Hb]. exact (derivable_pt_lim_plus _ _ _ _ _ (IHa Ha) (IHb Hb)).
  - intros [Ha Hb]. exact (derivable_pt_lim_minus _ _ _ _ _ (IHa Ha) (IHb Hb)).
  - intros Ha. exact (derivable_pt_lim_opp _ _ _ (IHa Ha)).
  - intros [Ha Hb]. exact (derivable_pt_lim_mult _ _ _ _ _ (IHa Ha) (IHb Hb)).
  - intros (Ha & Hb & Hn).
    exact (derivable_pt_lim_div _ _ _ _ _ (IHa Ha) (IHb Hb) Hn).
  - intros [Ha Hp].
    apply (deriv_eq (comp sqrt (eval a)) _ z
             (/ (2 * sqrt (eval a z)) * eval (derivative a) z)).
    + intros y. reflexivity.
    + unfold Rdiv. ring.
    + apply derivable_pt_lim_comp; [exact (IHa Ha)|].
      exact (derivable_pt_lim_sqrt _ Hp).
Qed.

(** Reading a real function as an expression. *)
Ltac reify z t :=
  lazymatch t with
  | z => constr:(EVar)
  | ?a + ?b => let ea := reify z a in let eb := reify z b in constr:(EAdd ea eb)
  | ?a - ?b => let ea := reify z a in let eb := reify z b in constr:(ESub ea eb)
  | - ?a => let ea := reify z a in constr:(EOpp ea)
  | ?a * ?b => let ea := reify z a in let eb := reify z b in constr:(EMul ea eb)
  | ?a / ?b => let ea := reify z a in let eb := reify z b in constr:(EDiv ea eb)
  | sqrt ?a => let ea := reify z a in constr:(ESqrt ea)
  | _ => constr:(EConst t)
  end.

Ltac reify_fun f :=
  let e := constr:(fun z : R =>
             ltac:(let b := eval cbv beta in (f z) in
                   let r := reify z b in exact r)) in
  lazymatch e with
  | fun _ => ?e' => e'
  end.

Ltac derive :=
  lazymatch goal with
  | |- derivable_pt_lim ?f ?x ?l =>
      let e := reify_fun f in
      apply (deriv_eq (eval e) f x (eval (derivative e) x) l);
      [ intros ?; reflexivity
      | cbn [eval derivative]
      | apply deriv_sound; cbn [defined eval] ]
  end.


(** Derivatives are local: it is enough to know the function near the
    point. *)
Lemma deriv_ext_same_sign (f g : R -> R) (x l : R) :
  x <> 0 -> (forall z, 0 < z * x -> f z = g z) ->
  derivable_pt_lim f x l -> derivable_pt_lim g x l.
Proof.
  intros Hx Hfg Hf.
  destruct (Rlt_dec 0 x) as [Hp|Hn].
  - apply (derivable_pt_lim_locally_ext f g x 0 (x + 1) l); [lra| |exact Hf].
    intros z Hz. apply Hfg. apply Rmult_lt_0_compat; lra.
  - apply (derivable_pt_lim_locally_ext f g x (x - 1) 0 l); [lra| |exact Hf].
    intros z Hz. apply Hfg.
    replace (z * x) with ((- z) * (- x)) by ring.
    apply Rmult_lt_0_compat; lra.
Qed.

Lemma deriv_ext_gt (f g : R -> R) (x l c : R) :
  c < x -> (forall z, c < z -> f z = g z) ->
  derivable_pt_lim f x l -> derivable_pt_lim g x l.
Proof.
  intros Hx Hfg Hf.
  apply (derivable_pt_lim_locally_ext f g x c (x + 1) l); [lra| |exact Hf].
  intros z Hz. apply Hfg. lra.
Qed.

Lemma deriv_ext_lt (f g : R -> R) (x l c : R) :
  x < c -> (forall z, z < c -> f z = g z) ->
  derivable_pt_lim f x l -> derivable_pt_lim g x l.
Proof.
  intros Hx Hfg Hf.
  apply (derivable_pt_lim_locally_ext f g x (x - 1) c l); [lra| |exact Hf].
  intros z Hz. apply Hfg. lra.
Qed.

Lemma pos_quotient (a b c : R) : 0 < a -> 0 < b -> a = c * b -> 0 < c.
Proof.
  intros Ha Hb E.
  destruct (Rlt_dec 0 c) as [H|H]; [exact H|exfalso].
  assert (c * b <= 0) by nra. lra.
Qed.

Lemma same_sign_nonzero (z x : R) : 0 < z * x -> z <> 0.
Proof. intros H E. rewrite E in H. lra. Qed.

Lemma same_sign_sq (z x : R) : 0 < z * x -> 0 < x * x.
Proof. intros H. assert (x <> 0) by (intros E; rewrite E in H; lra). nra. Qed.

(** Replacing a factor of a positive product by a value of the same sign. *)
Lemma pos_replace_4 (a b c d z : R) :
  0 < a * b * c * d -> 0 < z * d -> 0 < a * b * c * z.
Proof.
  intros H Hz.
  apply (pos_quotient ((a * b * c * d) * (z * d)) (d * d));
    [apply Rmult_lt_0_compat; assumption|exact (same_sign_sq _ _ Hz)|ring].
Qed.

Lemma pos_replace_3 (a b c d z : R) :
  0 < a * b * c * d -> 0 < z * c -> 0 < a * b * z * d.
Proof.
  intros H Hz.
  apply (pos_quotient ((a * b * c * d) * (z * c)) (c * c));
    [apply Rmult_lt_0_compat; assumption|exact (same_sign_sq _ _ Hz)|ring].
Qed.

Lemma pos_replace_1 (a b c d z : R) :
  0 < a * b * c * d -> 0 < z * a -> 0 < z * b * c * d.
Proof.
  intros H Hz.
  apply (pos_quotient ((a * b * c * d) * (z * a)) (a * a));
    [apply Rmult_lt_0_compat; assumption|exact (same_sign_sq _ _ Hz)|ring].
Qed.

Lemma pos_factors (a b c d : R) :
  0 < a * b * c * d -> a <> 0 /\ b <> 0 /\ c <> 0 /\ d <> 0.
Proof.
  intros H. repeat split; intros E; rewrite E in H;
    ring_simplify in H; lra.
Qed.

(** Arithmetic on finite values. *)
Lemma fdiv_Fin (x y : R) : y <> 0 -> fdiv (Fin x) (Fin y) = Fin (x / y).
Proof. intros H. unfold fdiv. rewrite (Reqb_false y 0 H). reflexivity. Qed.

Lemma fgeb_Fin (x y : R) : y <= x -> fgeb (Fin x) (Fin y) = true.
Proof. intros H. unfold fgeb. apply fleb_Fin. exact H. Qed.

Lemma fsqrt_Fin (x : R) : 0 <= x -> fsqrt (Fin x) = Fin (sqrt x).
Proof. intros H. unfold fsqrt. rewrite (Rltb_false x 0 H). reflexivity. Qed.

Lemma fgeb_Fin_false (x y : R) : x < y -> fgeb (Fin x) (Fin y) = false.
Proof.
  intros H. unfold fgeb, fleb, fltb, feqb.
  rewrite (Rltb_false y x) by lra. rewrite (Reqb_false y x) by lra.
  reflexivity.
Qed.

(** The real value of a finite float; 0 for the special values. *)
Definition real_of (a : npfloat) : R :=
  match a with
  | Fin x => x
  | _ => 0
  end.

(** [x**-.5] for a positive [x]. *)
Lemma fpow_neg_half (x : R) :
  0 < x -> fpow (Fin x) (Fin (-0.5)) = Fin (/ sqrt x).
Proof.
  intros Hx. unfold fpow.
  rewrite (Reqb_false (-0.5) 0) by lra.
  destruct (Req_dec_T x 1) as [E|E].
  - rewrite (Reqb_true x 1 E). subst x. rewrite sqrt_1, Rinv_1. reflexivity.
  - rewrite (Reqb_false x 1 E), (Rltb_true 0 x Hx).
    f_equal. replace (-0.5) with (- / 2) by lra.
    rewrite Rpower_Ropp, Rpower_sqrt by exact Hx. reflexivity.
Qed.

(* ================================================================== *)
(** * The variables of the static-flow resolver by name *)

Section FlowVariables.

Import PsResid.

(** The variables of the component by their OpenMDAO names. *)
Definition set_input (name : string) (v : npfloat) (i : Inputs) : Inputs :=
  {| i_Ts := if name =? "Ts" then v else i_Ts i;
     i_ht := if name =? "ht" then v else i_ht i;
     i_hs := if name =? "hs" then v else i_hs i;
     i_n_moles := if name =? "n_moles" then v else i_n_moles i;
     i_gamma := if name =? "gamma" then v else i_gamma i;
     i_W := if name =? "W" then v else i_W i;
     i_rho := if name =? "rho" then v else i_rho i;
     i_guess_gamt := if name =? "guess:gamt" then v else i_guess_gamt i;
     i_guess_Pt := if name =? "guess:Pt" then v else i_guess_Pt i;
     i_MN := if name =? "MN" then v else i_MN i;
     i_guess_MN := if name =? "guess:MN" then v else i_guess_MN i;
     i_area := if name =? "area" then v else i_area i |}.

Definition get_input (name : string) (i : Inputs) : npfloat :=
  if name =? "Ts" then i_Ts i
  else if name =? "ht" then i_ht i
  else if name =? "hs" then i_hs i
  else if name =? "n_moles" then i_n_moles i
  else if name =? "gamma" then i_gamma i
  else if name =? "W" then i_W i
  else if name =? "rho" then i_rho i
  else if name =? "guess:gamt" then i_guess_gamt i
  else if name =? "guess:Pt" then i_guess_Pt i
  else if name =? "MN" then i_MN i
  else if name =? "guess:MN" then i_guess_MN i
  else if name =? "area" then i_area i
  else NaN.

Definition set_output (name : string) (v : npfloat) (o : Outputs) : Outputs :=
  {| o_Ps := if name =? "Ps" then v else o_Ps o;
     o_V := if name =? "V" then v else o_V o;
     o_Vsonic := if name =? "Vsonic" then v else o_Vsonic o;
     o_area := if name =? "area" then v else o_area o;
     o_MN := if name =? "MN" then v else o_MN o |}.

Definition get_output (name : string) (o : Outputs) : npfloat :=
  if name =? "Ps" then o_Ps o
  else if name =? "V" then o_V o
  else if name =? "Vsonic" then o_Vsonic o
  else if name =? "area" then o_area o
  else if name =? "MN" then o_MN o
  else NaN.

(** [setup]: the area is an output in MN mode and the Mach number an input;
    in area mode it is the other way round. *)
Definition is_output (m : Mode) (name : string) : bool :=
  (name =? "Ps") || (name =? "V") || (name =? "Vsonic")
  || match m with
     | ModeMN => name =? "area"
     | ModeArea => name =? "MN"
     end.

Definition set_var (m : Mode) (name : string) (v : npfloat)
    (io : Inputs * Outputs) : Inputs * Outputs :=
  if is_output m name then (fst io, set_output name v (snd io))
  else (set_input name v (fst io), snd io).

Definition get_var (m : Mode) (name : string) (io : Inputs * Outputs)
    : npfloat :=
  if is_output m name then get_output name (snd io)
  else get_input name (fst io).

Definition resid_named (name : string) (r : Resids) : npfloat :=
  if name =? "Ps" then r_Ps r
  else if name =? "V" then r_V r
  else if name =? "Vsonic" then r_Vsonic r
  else if name =? "area" then r_area r
  else if name =? "MN" then r_MN r
  else NaN.

(** The residual [out] that [apply_nonlinear] computes, as a real number. *)
Definition residual_at (R_SI' : npfloat) (self : PsResid) (resids : Resids)
    (out : string) (io : Inputs * Outputs) : R :=
  match apply_nonlinear R_SI' ErrWarn self (fst io) (snd io) resids with
  | Ok (_, r) => real_of (resid_named out r)
  | Raise _ => 0
  end.

(** The entry [J[out, wrt] = v] is the partial derivative of the residual
    [out] with respect to the variable [wrt] at the state [(inputs,
    outputs)]. *)
Definition is_partial (R_SI' : npfloat) (self : PsResid) (inputs : Inputs)
    (outputs : Outputs) (resids : Resids) (entry : string * string * npfloat)
    : Prop :=
  let '(out, wrt, v) := entry in
  exists d x,
    v = Fin d /\ get_var (mode self) wrt (inputs, outputs) = Fin x
    /\ derivable_pt_lim
         (fun z => residual_at R_SI' self resids out
                     (set_var (mode self) wrt (Fin z) (inputs, outputs)))
         x d.

Definition key (entry : string * string * npfloat) : string * string :=
  fst entry.

End FlowVariables.

(** Products of nonzero factors. *)
Ltac nonzero :=
  repeat apply Rmult_integral_contrapositive_currified;
  first [ assumption | lra ].

(** Evaluation of arithmetic on finite values. *)
Ltac fin_eval :=
  repeat (cbn [fmul fneg fadd fsub];
          rewrite ?fdiv_Fin by nonzero;
          rewrite ?fsqrt_Fin by (first [ assumption | lra ])).

(* ================================================================== *)
(** * The residuals on a finite state *)

Section FlowResidualValues.

Import PsResid.

Variable Rc : R.

(** The residuals of MN mode on a finite state. *)
Lemma apply_nonlinear_MN_values (self : PsResid) (inputs : Inputs)
    (outputs : Outputs) (resids : Resids)
    (t nm g ht hs W rho MN oV oVs oA : R) :
  mode self = ModeMN ->
  i_Ts inputs = Fin t -> i_n_moles inputs = Fin nm -> i_gamma inputs = Fin g ->
  i_ht inputs = Fin ht -> i_hs inputs = Fin hs -> i_W inputs = Fin W ->
  i_rho inputs = Fin rho -> i_MN inputs = Fin MN ->
  o_V outputs = Fin oV -> o_Vsonic outputs = Fin oVs ->
  o_area outputs = Fin oA ->
  0 < g * Rc * nm * t -> rho <> 0 -> 1e-16 <= MN -> ht <> 0 ->
  apply_nonlinear (Fin Rc) ErrWarn self inputs outputs resids
  = Ok (add_stdout self [],
        {| r_Ps := Fin ((hs + MN * MN / 2 * g * (Rc * t * nm) + - ht) / ht);
           r_V := Fin (MN * sqrt (g * Rc * nm * t) + - oV);
           r_Vsonic := Fin (sqrt (g * Rc * nm * t) + - oVs);
           r_area := Fin (W / (rho * sqrt (g * Rc * nm * t) * MN) + - oA);
           r_MN := r_MN resids |}).
Proof.
  intros Hm Et En Eg Eht Ehs EW Erho EMN EV EVs EA Hx Hrho HMN Hht.
  pose proof (sqrt_lt_R0 _ Hx) as Hs.
  unfold apply_nonlinear. rewrite state_after_compute_warn.
  rewrite Hm, Et, En, Eg, Eht, Ehs, EW, Erho, EMN, EV, EVs, EA.
  unfold _compute_outputs_MN. rewrite !Vsonic_expr_Fin by lra.
  set (vs := sqrt (g * Rc * nm * t)) in *.
  assert (Hd : rho * vs * MN <> 0).
  { apply Rmult_integral_contrapositive_currified; [|lra].
    apply Rmult_integral_contrapositive_currified; lra. }
  cbn [bind fst snd]. np_eval. reflexivity.
Qed.

Lemma compute_outputs_area_Fin (self : PsResid) (t nm g W rho area : R) :
  0 < g * Rc * nm * t -> rho <> 0 -> area <> 0 ->
  _compute_outputs_area (Fin Rc) ErrWarn self (Fin t) (Fin nm) (Fin g) (Fin W)
    (Fin rho) (Fin area)
  = Ok ([], (Fin (W / (rho * sqrt (g * Rc * nm * t) * area)),
             Fin (sqrt (g * Rc * nm * t)),
             Fin (W / (rho * sqrt (g * Rc * nm * t) * area)
                  * sqrt (g * Rc * nm * t)))).
Proof.
  intros Hx Hrho Harea.
  pose proof (sqrt_lt_R0 _ Hx) as Hs.
  unfold _compute_outputs_area.
  rewrite !Vsonic_expr_Fin by lra.
  set (vs := sqrt (g * Rc * nm * t)) in *.
  assert (Hd : rho * vs * area <> 0).
  { apply Rmult_integral_contrapositive_currified; [|lra].
    apply Rmult_integral_contrapositive_currified; lra. }
  cbn [bind fst snd feqb]. unfold MN_guarded. np_eval. reflexivity.
Qed.

(** The residuals of area mode on a finite state. *)
Lemma apply_nonlinear_area_values (self : PsResid) (inputs : Inputs)
    (outputs : Outputs) (resids : Resids)
    (t nm g ht hs W rho area oV oVs oM : R) :
  mode self = ModeArea ->
  i_Ts inputs = Fin t -> i_n_moles inputs = Fin nm -> i_gamma inputs = Fin g ->
  i_ht inputs = Fin ht -> i_hs inputs = Fin hs -> i_W inputs = Fin W ->
  i_rho inputs = Fin rho -> i_area inputs = Fin area ->
  o_V outputs = Fin oV -> o_Vsonic outputs = Fin oVs ->
  o_MN outputs = Fin oM ->
  0 < g * Rc * nm * t -> rho <> 0 -> area <> 0 -> ht <> 0 ->
  apply_nonlinear (Fin Rc) ErrWarn self inputs outputs resids
  = Ok (add_stdout self [],
        {| r_Ps := Fin ((hs + W / (rho * sqrt (g * Rc * nm * t) * area)
                              * (W / (rho * sqrt (g * Rc * nm * t) * area))
                              / 2 * g * (Rc * t * nm) + - ht) / ht);
           r_V := Fin (W / (rho * sqrt (g * Rc * nm * t) * area)
                       * sqrt (g * Rc * nm * t) + - oV);
           r_Vsonic := Fin (sqrt (g * Rc * nm * t) + - oVs);
           r_area := r_area resids;
           r_MN := Fin (W / (rho * sqrt (g * Rc * nm * t) * area) + - oM) |}).
Proof.
  intros Hm Et En Eg Eht Ehs EW Erho Ea EV EVs EM Hx Hrho Harea Hht.
  unfold apply_nonlinear. rewrite state_after_compute_warn.
  rewrite Hm, Et, En, Eg, Eht, Ehs, EW, Erho, Ea, EV, EVs, EM.
  rewrite compute_outputs_area_Fin by assumption.
  cbn [bind op2 np_op]. fin_eval. reflexivity.
Qed.

End FlowResidualValues.

(** The entries put in front of [J0]. *)
Ltac prefix_of l J0 :=
  lazymatch l with
  | J0 => constr:(@nil (string * string * npfloat))
  | ?e :: ?t => let p := prefix_of t J0 in constr:(e :: p)
  end.

(** Side conditions of the evaluations near a point. *)
Ltac side :=
  first
    [ assumption | lra
    | eapply pos_replace_4; eassumption
    | eapply pos_replace_3; eassumption
    | eapply pos_replace_1; eassumption
    | eapply same_sign_nonzero; eassumption
    | nonzero ].

Ltac names_eval :=
  cbv beta iota zeta delta
    [ set_var get_var is_output set_input set_output get_input get_output
      resid_named real_of key
      String.eqb Ascii.eqb Bool.eqb orb fst snd
      PsResid.i_Ts PsResid.i_ht PsResid.i_hs PsResid.i_n_moles PsResid.i_gamma
      PsResid.i_W PsResid.i_rho PsResid.i_guess_gamt PsResid.i_guess_Pt
      PsResid.i_MN PsResid.i_guess_MN PsResid.i_area
      PsResid.o_Ps PsResid.o_V PsResid.o_Vsonic PsResid.o_area PsResid.o_MN
      PsResid.r_Ps PsResid.r_V PsResid.r_Vsonic PsResid.r_area PsResid.r_MN ].

(** The residual near a point, from the lemma [L] of its values. *)
Ltac pointwise L Hm :=
  let z := fresh "z" in
  let Hz := fresh "Hz" in
  intros z Hz; unfold residual_at; names_eval;
  lazymatch goal with
  | |- _ = match PsResid.apply_nonlinear _ _ ?s ?i ?o ?r with _ => _ end =>
      rewrite (L s i o r _ _ _ _ _ _ _ _ _ _ _
                 Hm eq_refl eq_refl eq_refl eq_refl eq_refl eq_refl eq_refl
                 eq_refl eq_refl eq_refl eq_refl);
      [ names_eval; reflexivity | side .. ]
  end.

Ltac decimals :=
  try replace 0.5 with (/ 2) by lra;
  try replace 1.0 with 1 by lra;
  try replace 2.0 with 2 by lra;
  try replace (-1.0) with (-1) by lra.

(** Trading the temperature for the speed of sound [vs], with
    [vs*vs = gamma*R*n_moles*Ts]. *)
Ltac by_speed_of_sound :=
  lazymatch goal with
  | Hx : 0 < ?g * ?Rc * ?nm * ?t |- _ =>
      let vs := fresh "vs" in
      let Hss := fresh "Hss" in
      let Et := fresh "Et" in
      pose proof (sqrt_sqrt _ (Rlt_le _ _ Hx)) as Hss;
      set (vs := sqrt (g * Rc * nm * t)) in *;
      assert (Et : t = vs * vs / (g * Rc * nm))
        by (rewrite Hss; field; repeat split; assumption);
      clearbody vs; clear Hss; subst t
  end.

(** A derivative by the symbolic one, compared by [field]. *)
Ltac differentiate :=
  derive;
  [ decimals;
    first [ solve [ field; repeat split; side ]
          | solve [ by_speed_of_sound; field; repeat split; side ] ]
  | repeat split; side ].

Ltac ext_global pw :=
  eapply derivable_pt_lim_ext;
  [ intros z; pose proof I as Hz; revert z Hz; pw | differentiate ].

Ltac ext_same_sign pw :=
  eapply deriv_ext_same_sign; [ side | pw | differentiate ].

Ltac ext_above c pw :=
  eapply (deriv_ext_gt _ _ _ _ c); [ side | pw | differentiate ].

Ltac ext_below c pw :=
  eapply (deriv_ext_lt _ _ _ _ c); [ side | pw | differentiate ].

Ltac partial_goal Hm :=
  unfold is_partial; rewrite Hm;
  eexists; eexists; split; [reflexivity|]; split; [reflexivity|].

(* ================================================================== *)
(** * [linearize] against [apply_nonlinear] *)

Section FlowPartialsMN.

Import PsResid.

Variable Rc : R.

Ltac partial_MN Hm :=
  partial_goal Hm;
  lazymatch goal with
  | |- derivable_pt_lim
         (fun z => residual_at _ _ _ _ (set_var _ ?wrt _ _)) _ _ =>
      lazymatch wrt with
      | "MN" => ext_above 1e-16 ltac:(pointwise (apply_nonlinear_MN_values Rc) Hm)
      | "hs" => ext_global ltac:(pointwise (apply_nonlinear_MN_values Rc) Hm)
      | "W" => ext_global ltac:(pointwise (apply_nonlinear_MN_values Rc) Hm)
      | "V" => ext_global ltac:(pointwise (apply_nonlinear_MN_values Rc) Hm)
      | "Vsonic" => ext_global ltac:(pointwise (apply_nonlinear_MN_values Rc) Hm)
      | "area" => ext_global ltac:(pointwise (apply_nonlinear_MN_values Rc) Hm)
      | _ => ext_same_sign ltac:(pointwise (apply_nonlinear_MN_values Rc) Hm)
      end
  end.

(** X: MN mode with a Mach number above [1e-16] on a finite state: every
    entry that [linearize] writes is the partial derivative of the
    residual of [apply_nonlinear] it is filed under. *)
Theorem linearize_MN_partials (self : PsResid) (inputs : Inputs)
    (outputs : Outputs) (resids : Resids) (J0 : Jacobian)
    (t nm g ht hs W rho MN oV oVs oA : R) :
  mode self = ModeMN ->
  i_Ts inputs = Fin t -> i_n_moles inputs = Fin nm -> i_gamma inputs = Fin g ->
  i_ht inputs = Fin ht -> i_hs inputs = Fin hs -> i_W inputs = Fin W ->
  i_rho inputs = Fin rho -> i_MN inputs = Fin MN ->
  o_V outputs = Fin oV -> o_Vsonic outputs = Fin oVs ->
  o_area outputs = Fin oA ->
  0 < g * Rc * nm * t -> rho <> 0 -> 1e-16 < MN -> ht <> 0 ->
  exists self' entries,
    linearize (Fin Rc) self inputs outputs J0 = Ok (self', entries ++ J0)
    /\ map key entries
       = [("V", "gamma"); ("V", "n_moles"); ("V", "Ts"); ("V", "MN");
          ("area", "MN"); ("area", "Ts"); ("area", "n_moles");
          ("area", "gamma"); ("area", "rho"); ("area", "W");
          ("Ps", "Ts"); ("Ps", "gamma"); ("Ps", "n_moles"); ("Ps", "MN");
          ("area", "area");
          ("Vsonic", "Vsonic"); ("Vsonic", "Ts"); ("Vsonic", "n_moles");
          ("Vsonic", "gamma"); ("Ps", "hs"); ("Ps", "ht")]
    /\ Forall (is_partial (Fin Rc) self inputs outputs resids) entries.
Proof.
  intros Hm Et En Eg Eht Ehs EW Erho EMN EV EVs EA Hx Hrho HMN Hht.
  pose proof (sqrt_lt_R0 _ Hx) as Hs.
  destruct (pos_factors _ _ _ _ Hx) as (Hg & HRc & Hnm & Ht).
  destruct inputs, outputs.
  cbn [i_Ts i_ht i_hs i_n_moles i_gamma i_W i_rho i_MN o_V o_Vsonic o_area]
    in *.
  subst.
  unfold linearize. rewrite Hm.
  cbn [i_Ts i_ht i_hs i_n_moles i_gamma i_W i_rho i_MN o_V o_Vsonic o_area
       o_MN].
  unfold _compute_outputs_MN. rewrite !Vsonic_expr_Fin by lra.
  cbn [bind fst snd].
  change (fmul (fmul (fmul (Fin g) (Fin Rc)) (Fin nm)) (Fin t))
    with (Fin (g * Rc * nm * t)).
  change (fmul (fmul (fmul (Fin Rc) (Fin g)) (Fin nm)) (Fin t))
    with (Fin (Rc * g * nm * t)).
  replace (Rc * g * nm * t) with (g * Rc * nm * t) by ring.
  rewrite !fpow_neg_half by exact Hx.
  assert (HMN0 : MN <> 0) by lra.
  assert (Hs0 : sqrt (g * Rc * nm * t) <> 0) by lra.
  rewrite (fgeb_Fin MN 1e-16) by lra.
  fin_eval.
  unfold J_set.
  lazymatch goal with
  | |- exists s e, Ok (?s0, ?l) = _ /\ _ =>
      let p := prefix_of l J0 in exists s0, p
  end.
  split; [reflexivity|]. split; [reflexivity|].
  repeat apply Forall_cons; try apply Forall_nil.
  all: partial_MN Hm.
Qed.

End FlowPartialsMN.

Section FlowPartialsArea.

Import PsResid.

Variable Rc : R.

Ltac partial_area Hm :=
  partial_goal Hm;
  lazymatch goal with
  | |- derivable_pt_lim
         (fun z => residual_at _ _ _ _ (set_var _ ?wrt _ _)) _ _ =>
      lazymatch wrt with
      | "MN" => ext_global ltac:(pointwise (apply_nonlinear_area_values Rc) Hm)
      | "hs" => ext_global ltac:(pointwise (apply_nonlinear_area_values Rc) Hm)
      | "W" => ext_global ltac:(pointwise (apply_nonlinear_area_values Rc) Hm)
      | "V" => ext_global ltac:(pointwise (apply_nonlinear_area_values Rc) Hm)
      | "Vsonic" => ext_global ltac:(pointwise (apply_nonlinear_area_values Rc) Hm)
      | _ => ext_same_sign ltac:(pointwise (apply_nonlinear_area_values Rc) Hm)
      end
  end.

(** X: area mode on a finite state whose Mach-number output is the one
    the inputs determine (as after [solve_nonlinear]): every entry that
    [linearize] writes is the partial derivative of the residual of
    [apply_nonlinear] it is filed under. *)
Theorem linearize_area_partials (self : PsResid) (inputs : Inputs)
    (outputs : Outputs) (resids : Resids) (J0 : Jacobian)
    (t nm g ht hs W rho area oV oVs : R) :
  mode self = ModeArea ->
  i_Ts inputs = Fin t -> i_n_moles inputs = Fin nm -> i_gamma inputs = Fin g ->
  i_ht inputs = Fin ht -> i_hs inputs = Fin hs -> i_W inputs = Fin W ->
  i_rho inputs = Fin rho -> i_area inputs = Fin area ->
  o_V outputs = Fin oV -> o_Vsonic outputs = Fin oVs ->
  o_MN outputs = Fin (W / (rho * sqrt (g * Rc * nm * t) * area)) ->
  0 < g * Rc * nm * t -> rho <> 0 -> area <> 0 -> ht <> 0 ->
  exists self' entries,
    linearize (Fin Rc) self inputs outputs J0 = Ok (self', entries ++ J0)
    /\ map key entries
       = [("MN", "rho"); ("V", "rho"); ("Ps", "rho");
          ("V", "gamma"); ("Ps", "gamma"); ("MN", "gamma");
          ("MN", "W"); ("V", "W"); ("Ps", "W");
          ("MN", "n_moles"); ("V", "n_moles"); ("Ps", "n_moles");
          ("MN", "Ts"); ("V", "Ts"); ("Ps", "Ts");
          ("MN", "area"); ("V", "area"); ("Ps", "area");
          ("MN", "MN");
          ("Vsonic", "Vsonic"); ("Vsonic", "Ts"); ("Vsonic", "n_moles");
          ("Vsonic", "gamma"); ("Ps", "hs"); ("Ps", "ht")]
    /\ Forall (is_partial (Fin Rc) self inputs outputs resids) entries.
Proof.
  intros Hm Et En Eg Eht Ehs EW Erho Ea EV EVs EM Hx Hrho Harea Hht.
  pose proof (sqrt_lt_R0 _ Hx) as Hs.
  destruct (pos_factors _ _ _ _ Hx) as (Hg & HRc & Hnm & Ht).
  destruct inputs, outputs.
  cbn [i_Ts i_ht i_hs i_n_moles i_gamma i_W i_rho i_area o_V o_Vsonic o_MN]
    in *.
  subst.
  unfold linearize. rewrite Hm.
  cbn [i_Ts i_ht i_hs i_n_moles i_gamma i_W i_rho i_area o_V o_Vsonic o_area
       o_MN].
  rewrite compute_outputs_area_Fin by assumption.
  cbn [bind fst snd].
  change (fmul (fmul (fmul (Fin g) (Fin Rc)) (Fin nm)) (Fin t))
    with (Fin (g * Rc * nm * t)).
  rewrite !fpow_neg_half by exact Hx.
  assert (Hs0 : sqrt (g * Rc * nm * t) <> 0) by lra.
  fin_eval.
  unfold J_set.
  lazymatch goal with
  | |- exists s e, Ok (?s0, ?l) = _ /\ _ =>
      let p := prefix_of l J0 in exists s0, p
  end.
  split; [reflexivity|]. split; [reflexivity|].
  repeat apply Forall_cons; try apply Forall_nil.
  all: partial_area Hm.
Qed.

(** X: area mode on a finite state whose Mach-number output [m] is not
    the one the inputs determine: the pressure residual does not depend on
    [Ts], [n_moles] or [gamma] (its three partial derivatives are zero),
    but [linearize], which reads [MN**2/2] from the outputs and [MN] from
    the inputs, writes entries proportional to [m^2 - MN^2], the one for
    [n_moles] with its sign reversed. *)
Theorem linearize_area_unconverged (self : PsResid) (inputs : Inputs)
    (outputs : Outputs) (resids : Resids) (J0 : Jacobian)
    (t nm g ht hs W rho area oV oVs m : R) :
  mode self = ModeArea ->
  i_Ts inputs = Fin t -> i_n_moles inputs = Fin nm -> i_gamma inputs = Fin g ->
  i_ht inputs = Fin ht -> i_hs inputs = Fin hs -> i_W inputs = Fin W ->
  i_rho inputs = Fin rho -> i_area inputs = Fin area ->
  o_V outputs = Fin oV -> o_Vsonic outputs = Fin oVs ->
  o_MN outputs = Fin m ->
  0 < g * Rc * nm * t -> rho <> 0 -> area <> 0 -> ht <> 0 ->
  let MN := W / (rho * sqrt (g * Rc * nm * t) * area) in
  let res_Ps wrt z :=
    residual_at (Fin Rc) self resids "Ps"
      (set_var ModeArea wrt (Fin z) (inputs, outputs)) in
  exists self' J dTs dn dg,
    linearize (Fin Rc) self inputs outputs J0 = Ok (self', J)
    /\ J_get J "Ps" "Ts" = Some (Fin dTs)
    /\ dTs = g * Rc * nm * (m * m - MN * MN) / (2 * ht)
    /\ J_get J "Ps" "n_moles" = Some (Fin dn)
    /\ dn = - (g * Rc * t * (m * m - MN * MN) / (2 * ht))
    /\ J_get J "Ps" "gamma" = Some (Fin dg)
    /\ dg = Rc * t * nm * (m * m - MN * MN) / (2 * ht)
    /\ derivable_pt_lim (res_Ps "Ts") t 0
    /\ derivable_pt_lim (res_Ps "n_moles") nm 0
    /\ derivable_pt_lim (res_Ps "gamma") g 0.
Proof.
  intros Hm Et En Eg Eht Ehs EW Erho Ea EV EVs EM Hx Hrho Harea Hht MN res_Ps.
  pose proof (sqrt_lt_R0 _ Hx) as Hs.
  destruct (pos_factors _ _ _ _ Hx) as (Hg & HRc & Hnm & Ht).
  destruct inputs, outputs.
  cbn [i_Ts i_ht i_hs i_n_moles i_gamma i_W i_rho i_area o_V o_Vsonic o_MN]
    in *.
  subst. subst MN res_Ps.
  unfold linearize. rewrite Hm.
  cbn [i_Ts i_ht i_hs i_n_moles i_gamma i_W i_rho i_area o_V o_Vsonic o_area
       o_MN].
  rewrite compute_outputs_area_Fin by assumption.
  cbn [bind fst snd].
  change (fmul (fmul (fmul (Fin g) (Fin Rc)) (Fin nm)) (Fin t))
    with (Fin (g * Rc * nm * t)).
  rewrite !fpow_neg_half by exact Hx.
  assert (Hs0 : sqrt (g * Rc * nm * t) <> 0) by lra.
  fin_eval.
  eexists; eexists; eexists; eexists; eexists.
  split; [reflexivity|].
  split; [reflexivity|].
  split; [decimals; by_speed_of_sound; field; repeat split; side|].
  split; [reflexivity|].
  split; [decimals; by_speed_of_sound; field; repeat split; side|].
  split; [reflexivity|].
  split; [decimals; by_speed_of_sound; field; repeat split; side|].
  split; [|split]; ext_same_sign ltac:(pointwise (apply_nonlinear_area_values Rc) Hm).
Qed.

End FlowPartialsArea.

Section FlowPartialsStagnant.

Import PsResid.

(** X: MN mode with a Mach number that is not at least [1e-16] (below it,
    or NaN): [linearize] returns after writing the [Ps] and [Vsonic] rows
    and [J['area','area']]; it writes no entry of the [V] row and no other
    entry of the [area] row, so these keep the values they had. *)
Theorem linearize_MN_stagnant (R_SI' : npfloat) (self : PsResid)
    (inputs : Inputs) (outputs : Outputs) (J0 : Jacobian) :
  mode self = ModeMN ->
  fgeb (i_MN inputs) (Fin 1e-16) = false ->
  exists self' entries,
    linearize R_SI' self inputs outputs J0 = Ok (self', entries ++ J0)
    /\ map key entries
       = [("Ps", "Ts"); ("Ps", "gamma"); ("Ps", "n_moles"); ("Ps", "MN");
          ("area", "area");
          ("Vsonic", "Vsonic"); ("Vsonic", "Ts"); ("Vsonic", "n_moles");
          ("Vsonic", "gamma"); ("Ps", "hs"); ("Ps", "ht")]
    /\ (forall wrt, J_get (entries ++ J0) "V" wrt = J_get J0 "V" wrt)
    /\ (forall wrt, wrt <> "area" ->
        J_get (entries ++ J0) "area" wrt = J_get J0 "area" wrt).
Proof.
  intros Hm HMN. unfold linearize. rewrite Hm.
  unfold _compute_outputs_MN. rewrite Vsonic_expr_warn.
  cbn [bind fst snd]. rewrite HMN. unfold J_set.
  lazymatch goal with
  | |- exists s e, Ok (?s0, ?l) = _ /\ _ =>
      let p := prefix_of l J0 in exists s0, p
  end.
  split; [reflexivity|]. split; [reflexivity|].
  split; [intros wrt; reflexivity|].
  intros wrt Hw. cbn [app J_get].
  change (String.eqb "Ps" "area") with false.
  change (String.eqb "Vsonic" "area") with false.
  change (String.eqb "area" "area") with true.
  cbn [andb].
  destruct (String.eqb_spec "area" wrt) as [E|E];
    [exfalso; apply Hw; symmetry; exact E|reflexivity].
Qed.

End FlowPartialsStagnant.

(* ================================================================== *)
(** * The explicit static-flow calculation and its partials *)

Section CalcVariables.

Import PsCalc.

Definition calc_set_input (name : string) (v : npfloat) (i : Inputs)
    : Inputs :=
  {| i_P := if name =? "P" then v else i_P i;
     i_gamma := if name =? "gamma" then v else i_gamma i;
     i_n_moles := if name =? "n_moles" then v else i_n_moles i;
     i_Ts := if name =? "Ts" then v else i_Ts i;
     i_ht := if name =? "ht" then v else i_ht i;
     i_hs := if name =? "hs" then v else i_hs i;
     i_W := if name =? "W" then v else i_W i;
     i_rho := if name =? "rho" then v else i_rho i |}.

Definition calc_get_input (name : string) (i : Inputs) : npfloat :=
  if name =? "P" then i_P i
  else if name =? "gamma" then i_gamma i
  else if name =? "n_moles" then i_n_moles i
  else if name =? "Ts" then i_Ts i
  else if name =? "ht" then i_ht i
  else if name =? "hs" then i_hs i
  else if name =? "W" then i_W i
  else if name =? "rho" then i_rho i
  else NaN.

Definition calc_output_named (name : string) (o : Outputs) : npfloat :=
  if name =? "MN" then o_MN o
  else if name =? "V" then o_V o
  else if name =? "Vsonic" then o_Vsonic o
  else if name =? "area" then o_area o
  else NaN.

(** The output [out] that [compute] delivers, as a real number. *)
Definition output_at (R_SI' : npfloat) (out : string) (inputs : Inputs) : R :=
  match compute R_SI' ErrWarn inputs with
  | Ok o => real_of (calc_output_named out o)
  | Raise _ => 0
  end.

(** The entry [J[out, wrt] = v] is the partial derivative of the output
    [out] with respect to the input [wrt] at [inputs]. *)
Definition is_output_partial (R_SI' : npfloat) (inputs : Inputs)
    (entry : string * string * npfloat) : Prop :=
  let '(out, wrt, v) := entry in
  exists d x,
    v = Fin d /\ calc_get_input wrt inputs = Fin x
    /\ derivable_pt_lim
         (fun z => output_at R_SI' out (calc_set_input wrt (Fin z) inputs))
         x d.

End CalcVariables.

Ltac calc_names_eval :=
  cbv beta iota zeta delta
    [ calc_set_input calc_get_input calc_output_named real_of key
      String.eqb Ascii.eqb Bool.eqb orb fst snd
      PsCalc.i_P PsCalc.i_gamma PsCalc.i_n_moles PsCalc.i_Ts PsCalc.i_ht
      PsCalc.i_hs PsCalc.i_W PsCalc.i_rho
      PsCalc.o_MN PsCalc.o_V PsCalc.o_Vsonic PsCalc.o_area ].

Section CalcValues.

Import PsCalc.

Variable Rc : R.

(** [compute] above the static enthalpy ... *)
Lemma compute_values_above (em : errstate) (inputs : Inputs)
    (t nm g ht hs W rho : R) :
  i_Ts inputs = Fin t -> i_n_moles inputs = Fin nm -> i_gamma inputs = Fin g ->
  i_ht inputs = Fin ht -> i_hs inputs = Fin hs -> i_W inputs = Fin W ->
  i_rho inputs = Fin rho ->
  0 < g * Rc * nm * t -> rho <> 0 -> hs < ht ->
  compute (Fin Rc) em inputs
  = Ok {| o_MN := Fin (sqrt (2 * (ht + - hs)) / sqrt (g * Rc * nm * t));
          o_V := Fin (sqrt (2 * (ht + - hs)));
          o_Vsonic := Fin (sqrt (g * Rc * nm * t));
          o_area := Fin (W / (rho * sqrt (2 * (ht + - hs)))) |}.
Proof.
  intros Et En Eg Eht Ehs EW Erho Hx Hrho Hh.
  pose proof (sqrt_lt_R0 _ Hx) as Hs.
  assert (Hv : 0 < sqrt (2.0 * (ht + - hs))) by (apply sqrt_lt_R0; lra).
  unfold compute. rewrite Et, En, Eg, Eht, Ehs, EW, Erho.
  rewrite (fgeb_Fin ht hs) by lra.
  assert (Hd : rho * sqrt (2.0 * (ht + - hs)) <> 0) by nonzero.
  destruct em; np_eval; replace 2.0 with 2 by lra; reflexivity.
Qed.

(** ... and below it. *)
Lemma compute_values_below (em : errstate) (inputs : Inputs)
    (t nm g ht hs W rho : R) :
  i_Ts inputs = Fin t -> i_n_moles inputs = Fin nm -> i_gamma inputs = Fin g ->
  i_ht inputs = Fin ht -> i_hs inputs = Fin hs -> i_W inputs = Fin W ->
  i_rho inputs = Fin rho ->
  0 < g * Rc * nm * t -> rho <> 0 -> ht < hs ->
  compute (Fin Rc) em inputs
  = Ok {| o_MN := Fin (sqrt (2 * (hs + - ht)) / sqrt (g * Rc * nm * t));
          o_V := Fin (sqrt (2 * (hs + - ht)));
          o_Vsonic := Fin (sqrt (g * Rc * nm * t));
          o_area := Fin (W / (rho * sqrt (2 * (hs + - ht)))) |}.
Proof.
  intros Et En Eg Eht Ehs EW Erho Hx Hrho Hh.
  pose proof (sqrt_lt_R0 _ Hx) as Hs.
  assert (Hv : 0 < sqrt (2.0 * (hs + - ht))) by (apply sqrt_lt_R0; lra).
  unfold compute. rewrite Et, En, Eg, Eht, Ehs, EW, Erho.
  rewrite (fgeb_Fin_false ht hs) by lra.
  assert (Hd : rho * sqrt (2.0 * (hs + - ht)) <> 0) by nonzero.
  destruct em; np_eval; replace 2.0 with 2 by lra; reflexivity.
Qed.

(** X: [compute] on finite inputs with [gamma*R*n_moles*Ts > 0], a nonzero
    density and [ht <> hs], in either error state: the velocity is
    [sqrt(2*|ht - hs|)] on both sides of [ht = hs], and the outputs satisfy
    [MN*Vsonic = V] and [area*rho*V = W]. *)
Theorem compute_consistent (em : errstate) (inputs : Inputs)
    (t nm g ht hs W rho : R) :
  i_Ts inputs = Fin t -> i_n_moles inputs = Fin nm -> i_gamma inputs = Fin g ->
  i_ht inputs = Fin ht -> i_hs inputs = Fin hs -> i_W inputs = Fin W ->
  i_rho inputs = Fin rho ->
  0 < g * Rc * nm * t -> rho <> 0 -> ht <> hs ->
  exists MN V Vsonic area,
    compute (Fin Rc) em inputs
    = Ok {| o_MN := Fin MN; o_V := Fin V; o_Vsonic := Fin Vsonic;
            o_area := Fin area |}
    /\ V = sqrt (2 * Rabs (ht - hs))
    /\ Vsonic = sqrt (g * Rc * nm * t)
    /\ MN * Vsonic = V
    /\ area * rho * V = W.
Proof.
  intros Et En Eg Eht Ehs EW Erho Hx Hrho Hh.
  pose proof (sqrt_lt_R0 _ Hx) as Hs.
  destruct (Rlt_dec hs ht) as [Ha|Hb].
  - assert (Hv : 0 < sqrt (2 * (ht + - hs))) by (apply sqrt_lt_R0; lra).
    eexists; eexists; eexists; eexists. split.
    + exact (compute_values_above em inputs t nm g ht hs W rho
               Et En Eg Eht Ehs EW Erho Hx Hrho Ha).
    + split; [|split; [reflexivity|split; field; repeat split; lra]].
      f_equal. rewrite Rabs_right by lra. lra.
  - assert (Hlt : ht < hs) by lra.
    assert (Hv : 0 < sqrt (2 * (hs + - ht))) by (apply sqrt_lt_R0; lra).
    eexists; eexists; eexists; eexists. split.
    + exact (compute_values_below em inputs t nm g ht hs W rho
               Et En Eg Eht Ehs EW Erho Hx Hrho Hlt).
    + split; [|split; [reflexivity|split; field; repeat split; lra]].
      f_equal. rewrite Rabs_left by lra. lra.
Qed.

End CalcValues.

Ltac calc_pointwise L :=
  let z := fresh "z" in
  let Hz := fresh "Hz" in
  intros z Hz; unfold output_at; calc_names_eval;
  lazymatch goal with
  | |- _ = match PsCalc.compute _ _ ?i with _ => _ end =>
      rewrite (L ErrWarn i _ _ _ _ _ _ _
                 eq_refl eq_refl eq_refl eq_refl eq_refl eq_refl eq_refl);
      [ calc_names_eval; reflexivity | side .. ]
  end.

Ltac calc_partial_goal :=
  unfold is_output_partial;
  eexists; eexists; split; [reflexivity|]; split; [reflexivity|].

Section CalcPartials.

Import PsCalc.

Variable Rc : R.

Definition calc_keys : list (string * string) :=
  [("Vsonic", "gamma"); ("Vsonic", "n_moles"); ("Vsonic", "Ts");
   ("V", "ht"); ("V", "hs");
   ("MN", "ht"); ("MN", "hs"); ("MN", "gamma"); ("MN", "n_moles");
   ("MN", "Ts");
   ("area", "W"); ("area", "rho"); ("area", "ht"); ("area", "hs")].

Ltac calc_partial_above ht hs :=
  calc_partial_goal;
  lazymatch goal with
  | |- derivable_pt_lim
         (fun z => output_at _ _ (calc_set_input ?wrt _ _)) _ _ =>
      lazymatch wrt with
      | "ht" => ext_above hs ltac:(calc_pointwise (compute_values_above Rc))
      | "hs" => ext_below ht ltac:(calc_pointwise (compute_values_above Rc))
      | "W" => ext_global ltac:(calc_pointwise (compute_values_above Rc))
      | _ => ext_same_sign ltac:(calc_pointwise (compute_values_above Rc))
      end
  end.

Ltac calc_partial_below ht hs :=
  calc_partial_goal;
  lazymatch goal with
  | |- derivable_pt_lim
         (fun z => output_at _ _ (calc_set_input ?wrt _ _)) _ _ =>
      lazymatch wrt with
      | "ht" => ext_below hs ltac:(calc_pointwise (compute_values_below Rc))
      | "hs" => ext_above ht ltac:(calc_pointwise (compute_values_below Rc))
      | "W" => ext_global ltac:(calc_pointwise (compute_values_below Rc))
      | _ => ext_same_sign ltac:(calc_pointwise (compute_values_below Rc))
      end
  end.

(** X: on finite inputs with [gamma*R*n_moles*Ts > 0], a nonzero density
    and [ht <> hs], every one of the fourteen entries that
    [compute_partials] writes is the partial derivative of the output of
    [compute] it is filed under, on either side of [ht = hs]. *)
Theorem compute_partials_are_derivatives (inputs : Inputs) (J0 : Jacobian)
    (t nm g ht hs W rho : R) :
  i_Ts inputs = Fin t -> i_n_moles inputs = Fin nm -> i_gamma inputs = Fin g ->
  i_ht inputs = Fin ht -> i_hs inputs = Fin hs -> i_W inputs = Fin W ->
  i_rho inputs = Fin rho ->
  0 < g * Rc * nm * t -> rho <> 0 -> ht <> hs ->
  exists entries,
    compute_partials (Fin Rc) inputs J0 = entries ++ J0
    /\ List.length entries = 14%nat
    /\ (forall k, In k calc_keys -> In k (map key entries))
    /\ Forall (is_output_partial (Fin Rc) inputs) entries.
Proof.
  intros Et En Eg Eht Ehs EW Erho Hx Hrho Hh.
  pose proof (sqrt_lt_R0 _ Hx) as Hs.
  destruct (pos_factors _ _ _ _ Hx) as (Hg & HRc & Hnm & Ht).
  assert (Hs0 : sqrt (g * Rc * nm * t) <> 0) by lra.
  destruct inputs.
  cbn [i_Ts i_ht i_hs i_n_moles i_gamma i_W i_rho] in *.
  subst.
  unfold compute_partials.
  cbn [i_Ts i_ht i_hs i_n_moles i_gamma i_W i_rho].
  destruct (Rlt_dec hs ht) as [Ha|Hb].
  - assert (Hv : 0 < sqrt (2 * (ht + - hs))) by (apply sqrt_lt_R0; lra).
    assert (Hv0 : sqrt (2 * (ht + - hs)) <> 0) by lra.
    rewrite (fgeb_Fin ht hs) by lra.
    cbn [fmul fneg fadd fsub].
    replace 2.0 with 2 by lra. replace 1.0 with 1 by lra.
    replace (-1.0) with (-1) by lra.
    fin_eval.
    unfold J_set.
    lazymatch goal with
    | |- exists e, ?l = _ /\ _ => let p := prefix_of l J0 in exists p
    end.
    split; [reflexivity|]. split; [reflexivity|].
    split.
    { intros k Hk. unfold calc_keys in Hk. cbn [In] in Hk.
      cbn [map key fst In].
      repeat (destruct Hk as [<-|Hk]; [tauto|]). contradiction. }
    repeat apply Forall_cons; try apply Forall_nil.
    all: calc_partial_above ht hs.
  - assert (Hlt : ht < hs) by lra.
    assert (Hv : 0 < sqrt (2 * (hs + - ht))) by (apply sqrt_lt_R0; lra).
    assert (Hv0 : sqrt (2 * (hs + - ht)) <> 0) by lra.
    rewrite (fgeb_Fin_false ht hs) by lra.
    cbn [fmul fneg fadd fsub].
    replace 2.0 with 2 by lra. replace 1.0 with 1 by lra.
    replace (-1.0) with (-1) by lra.
    fin_eval.
    unfold J_set.
    lazymatch goal with
    | |- exists e, ?l = _ /\ _ => let p := prefix_of l J0 in exists p
    end.
    split; [reflexivity|]. split; [reflexivity|].
    split.
    { intros k Hk. unfold calc_keys in Hk. cbn [In] in Hk.
      cbn [map key fst In].
      repeat (destruct Hk as [<-|Hk]; [tauto|]). contradiction. }
    repeat apply Forall_cons; try apply Forall_nil.
    all: calc_partial_below ht hs.
Qed.

End CalcPartials.

(* ================================================================== *)
(** * Examples: a duct station at Mach 0.5 *)

Section FlowPartialExamples.

Import PsResid.

(** [station1] moving at Mach 0.5, with the total enthalpy above the static
    one. *)
Definition station_cruise : Inputs :=
  {| i_Ts := Fin 300; i_ht := Fin 2; i_hs := Fin 1; i_n_moles := Fin 0.03;
     i_gamma := Fin 1.4; i_W := Fin 1; i_rho := Fin 1;
     i_guess_gamt := Fin 1.4; i_guess_Pt := Fin 1;
     i_MN := Fin 0.5; i_guess_MN := Fin 0.5; i_area := Fin 1 |}.

Definition resids0 : Resids :=
  {| r_Ps := Fin 0; r_V := Fin 0; r_Vsonic := Fin 0; r_area := Fin 0;
     r_MN := Fin 0 |}.

(** Outputs whose Mach number is the one [station_cruise] determines in
    area mode. *)
Definition outputs_converged : Outputs :=
  {| o_Ps := Fin 0.001; o_V := Fin 100; o_Vsonic := Fin 330;
     o_area := Fin 1;
     o_MN := Fin (1 / (1 * sqrt (1.4 * 8314.4598 * 0.03 * 300) * 1)) |}.

Lemma apply_nonlinear_MN_energy_witness :
  exists self' r p,
    apply_nonlinear R_SI ErrWarn (setup ModeMN "duct.ps_resid") station_cruise
      outputs0 resids0 = Ok (self', r)
    /\ r_Ps r = Fin p
    /\ p = (1 + 0.5 * sqrt (1.4 * 8314.4598 * 0.03 * 300)
                * (0.5 * sqrt (1.4 * 8314.4598 * 0.03 * 300)) / 2 - 2) / 2
    /\ (p = 0 <->
        2 = 1 + 0.5 * sqrt (1.4 * 8314.4598 * 0.03 * 300)
                * (0.5 * sqrt (1.4 * 8314.4598 * 0.03 * 300)) / 2).
Proof.
  apply (apply_nonlinear_MN_energy 8314.4598 (setup ModeMN "duct.ps_resid")
           station_cruise outputs0 resids0 300 0.03 1.4 2 1 0.5);
    try reflexivity; lra.
Defined.

Lemma apply_nonlinear_area_energy_witness :
  exists self' r p,
    apply_nonlinear R_SI ErrWarn (setup ModeArea "duct.ps_resid")
      station_cruise outputs0 resids0 = Ok (self', r)
    /\ r_Ps r = Fin p
    /\ p = (1 + 1 / (1 * 1) * (1 / (1 * 1)) / 2 - 2) / 2.
Proof.
  apply (apply_nonlinear_area_energy 8314.4598
           (setup ModeArea "duct.ps_resid") station_cruise outputs0 resids0
           300 0.03 1.4 2 1 1 1 1);
    try reflexivity; lra.
Defined.

(** [solve_nonlinear] at rest in MN mode: the area is infinite. *)
Lemma solve_at_rest :
  solve_nonlinear R_SI ErrWarn (setup ModeMN "duct.ps_resid") station1 outputs0
  = Ok (add_stdout (setup ModeMN "duct.ps_resid") [],
        {| o_Ps := Fin 0.001;
           o_V := Fin (0 * sqrt (1.4 * 8314.4598 * 0.03 * 300));
           o_Vsonic := Fin (sqrt (1.4 * 8314.4598 * 0.03 * 300));
           o_area := PInf; o_MN := Fin 0.5 |}).
Proof.
  unfold solve_nonlinear, _compute_outputs_MN, station1, outputs0, R_SI.
  cbn [mode setup i_Ts i_n_moles i_gamma i_W i_rho i_MN].
  rewrite !(Vsonic_expr_Fin 8314.4598) by lra.
  cbn [bind fst snd reraise]. np_eval. reflexivity.
Qed.

Lemma apply_nonlinear_after_solve_witness :
  exists self2 r,
    apply_nonlinear R_SI ErrWarn
      (add_stdout (setup ModeMN "duct.ps_resid") []) station1
      {| o_Ps := Fin 0.001;
         o_V := Fin (0 * sqrt (1.4 * 8314.4598 * 0.03 * 300));
         o_Vsonic := Fin (sqrt (1.4 * 8314.4598 * 0.03 * 300));
         o_area := PInf; o_MN := Fin 0.5 |} resids0
    = Ok (self2, r)
    /\ r_V r = Fin 0 /\ r_Vsonic r = Fin 0 /\ r_area r = Fin 0.
Proof.
  destruct (apply_nonlinear_after_solve R_SI (setup ModeMN "duct.ps_resid")
              _ station1 outputs0 _ resids0 solve_at_rest eq_refl eq_refl)
    as (self2 & r & H & HV & HVs & Harea & _).
  exists self2, r. repeat split; try assumption.
  apply Harea; [reflexivity | right; reflexivity].
Defined.

Lemma linearize_MN_partials_witness :
  exists self' entries,
    linearize R_SI (setup ModeMN "duct.ps_resid") station_cruise outputs0 []
    = Ok (self', entries ++ [])
    /\ map key entries
       = [("V", "gamma"); ("V", "n_moles"); ("V", "Ts"); ("V", "MN");
          ("area", "MN"); ("area", "Ts"); ("area", "n_moles");
          ("area", "gamma"); ("area", "rho"); ("area", "W");
          ("Ps", "Ts"); ("Ps", "gamma"); ("Ps", "n_moles"); ("Ps", "MN");
          ("area", "area");
          ("Vsonic", "Vsonic"); ("Vsonic", "Ts"); ("Vsonic", "n_moles");
          ("Vsonic", "gamma"); ("Ps", "hs"); ("Ps", "ht")]
    /\ Forall (is_partial R_SI (setup ModeMN "duct.ps_resid") station_cruise
                 outputs0 resids0) entries.
Proof.
  apply (linearize_MN_partials 8314.4598 (setup ModeMN "duct.ps_resid")
           station_cruise outputs0 resids0 [] 300 0.03 1.4 2 1 1 1 0.5
           100 330 1);
    try reflexivity; lra.
Defined.

Lemma linearize_area_partials_witness :
  exists self' entries,
    linearize R_SI (setup ModeArea "duct.ps_resid") station_cruise
      outputs_converged []
    = Ok (self', entries ++ [])
    /\ map key entries
       = [("MN", "rho"); ("V", "rho"); ("Ps", "rho");
          ("V", "gamma"); ("Ps", "gamma"); ("MN", "gamma");
          ("MN", "W"); ("V", "W"); ("Ps", "W");
          ("MN", "n_moles"); ("V", "n_moles"); ("Ps", "n_moles");
          ("MN", "Ts"); ("V", "Ts"); ("Ps", "Ts");
          ("MN", "area"); ("V", "area"); ("Ps", "area");
          ("MN", "MN");
          ("Vsonic", "Vsonic"); ("Vsonic", "Ts"); ("Vsonic", "n_moles");
          ("Vsonic", "gamma"); ("Ps", "hs"); ("Ps", "ht")]
    /\ Forall (is_partial R_SI (setup ModeArea "duct.ps_resid") station_cruise
                 outputs_converged resids0) entries.
Proof.
  apply (linearize_area_partials 8314.4598 (setup ModeArea "duct.ps_resid")
           station_cruise outputs_converged resids0 [] 300 0.03 1.4 2 1 1 1 1
           100 330);
    try reflexivity; lra.
Defined.

Lemma linearize_area_unconverged_witness :
  exists self' J dTs dn dg,
    linearize R_SI (setup ModeArea "duct.ps_resid") station_cruise outputs0 []
    = Ok (self', J)
    /\ J_get J "Ps" "Ts" = Some (Fin dTs)
    /\ dTs = 1.4 * 8314.4598 * 0.03
             * (0.5 * 0.5
                - 1 / (1 * sqrt (1.4 * 8314.4598 * 0.03 * 300) * 1)
                  * (1 / (1 * sqrt (1.4 * 8314.4598 * 0.03 * 300) * 1)))
             / (2 * 2)
    /\ J_get J "Ps" "n_moles" = Some (Fin dn)
    /\ dn = - (1.4 * 8314.4598 * 300
               * (0.5 * 0.5
                  - 1 / (1 * sqrt (1.4 * 8314.4598 * 0.03 * 300) * 1)
                    * (1 / (1 * sqrt (1.4 * 8314.4598 * 0.03 * 300) * 1)))
               / (2 * 2))
    /\ J_get J "Ps" "gamma" = Some (Fin dg)
    /\ dg = 8314.4598 * 300 * 0.03
            * (0.5 * 0.5
               - 1 / (1 * sqrt (1.4 * 8314.4598 * 0.03 * 300) * 1)
                 * (1 / (1 * sqrt (1.4 * 8314.4598 * 0.03 * 300) * 1)))
            / (2 * 2)
    /\ derivable_pt_lim
         (fun z => residual_at R_SI (setup ModeArea "duct.ps_resid") resids0
                     "Ps" (set_var ModeArea "Ts" (Fin z)
                             (station_cruise, outputs0))) 300 0
    /\ derivable_pt_lim
         (fun z => residual_at R_SI (setup ModeArea "duct.ps_resid") resids0
                     "Ps" (set_var ModeArea "n_moles" (Fin z)
                             (station_cruise, outputs0))) 0.03 0
    /\ derivable_pt_lim
         (fun z => residual_at R_SI (setup ModeArea "duct.ps_resid") resids0
                     "Ps" (set_var ModeArea "gamma" (Fin z)
                             (station_cruise, outputs0))) 1.4 0.
Proof.
  apply (linearize_area_unconverged 8314.4598
           (setup ModeArea "duct.ps_resid") station_cruise outputs0 resids0 []
           300 0.03 1.4 2 1 1 1 1 100 330 0.5);
    try reflexivity; lra.
Defined.

Lemma linearize_MN_stagnant_witness :
  exists self' entries,
    linearize R_SI (setup ModeMN "duct.ps_resid") station1 outputs0 []
    = Ok (self', entries ++ [])
    /\ map key entries
       = [("Ps", "Ts"); ("Ps", "gamma"); ("Ps", "n_moles"); ("Ps", "MN");
          ("area", "area");
          ("Vsonic", "Vsonic"); ("Vsonic", "Ts"); ("Vsonic", "n_moles");
          ("Vsonic", "gamma"); ("Ps", "hs"); ("Ps", "ht")]
    /\ (forall wrt, J_get (entries ++ []) "V" wrt = J_get [] "V" wrt)
    /\ (forall wrt, wrt <> "area" ->
        J_get (entries ++ []) "area" wrt = J_get [] "area" wrt).
Proof.
  apply (linearize_MN_stagnant R_SI (setup ModeMN "duct.ps_resid") station1
           outputs0 []); [reflexivity|].
  apply fgeb_Fin_false. lra.
Defined.

End FlowPartialExamples.

Section CalcExamples.

Import PsCalc.

Definition calc_station : Inputs :=
  {| i_P := Fin 1; i_gamma := Fin 1.4; i_n_moles := Fin 0.03;
     i_Ts := Fin 300; i_ht := Fin 1; i_hs := Fin 2; i_W := Fin 1;
     i_rho := Fin 1 |}.

Lemma compute_consistent_witness :
  exists MN V Vsonic area,
    compute R_SI ErrRaise calc_station
    = Ok {| o_MN := Fin MN; o_V := Fin V; o_Vsonic := Fin Vsonic;
            o_area := Fin area |}
    /\ V = sqrt (2 * Rabs (1 - 2))
    /\ Vsonic = sqrt (1.4 * 8314.4598 * 0.03 * 300)
    /\ MN * Vsonic = V
    /\ area * 1 * V = 1.
Proof.
  apply (compute_consistent 8314.4598 ErrRaise calc_station
           300 0.03 1.4 1 2 1 1);
    try reflexivity; lra.
Defined.

Lemma compute_partials_are_derivatives_witness :
  exists entries,
    compute_partials R_SI calc_station [] = entries ++ []
    /\ List.length entries = 14%nat
    /\ (forall k, In k calc_keys -> In k (map key entries))
    /\ Forall (is_output_partial R_SI calc_station) entries.
Proof.
  apply (compute_partials_are_derivatives 8314.4598 calc_station []
           300 0.03 1.4 1 2 1 1);
    try reflexivity; lra.
Defined.

End CalcExamples.
